(** * RaceTrack Studio core: track reconstruction and optimal racing line

    A shallow embedding of
      - [Code/Core/OptimalLine/optimal_line_generator.py]
        (class [OptimalLineGenerator]) and
      - [Code/Core/MapCreator/track_processor.py] (class [TrackProcessor])
    together with the properties their specification states about them,
    and of the service calls of
      - [Code/Core/MapCreator/track_fetcher.py] (class [TrackFetcher]),
    with further properties that the code of the three classes shows.

    Number model.  The Python code computes on binary64 floats.  The tire
    grip model only uses [+ - * / abs] and comparisons, so it is embedded
    over the rationals [Q], where it can be evaluated.  Everything that
    takes a square root (distances, the speed solver) is embedded over the
    real numbers [R]; rounding, infinities and NaN are not modelled.
    Python dictionaries are finite maps ([gmap]); dictionaries that are
    mutated while shared live in an explicit heap indexed by references. *)

From Stdlib Require Import Reals QArith Qabs Qreals Lra Lia Lqa Ascii String.
From stdpp Require Import gmap strings list pretty.

(* ===================================================================== *)
(** ** Python built-ins used by the code *)
(* ===================================================================== *)

Module Py.

(** [min(a, b)] returns [b] only when [b < a]; [max(a, b)] returns [b]
    only when [b > a] (the first argument wins ties). *)
Definition qmin (a b : Q) : Q := if Qlt_le_dec b a then b else a.
Definition qmax (a b : Q) : Q := if Qlt_le_dec a b then b else a.

Definition rmin (a b : R) : R := if Rlt_dec b a then b else a.
Definition rmax (a b : R) : R := if Rlt_dec a b then b else a.

(** Comparisons of reals are decided classically (not by computation). *)
#[global] Instance Rlt_decision (a b : R) : Decision (a < b)%R := Rlt_dec a b.
#[global] Instance Rle_decision (a b : R) : Decision (a <= b)%R := Rle_dec a b.
#[global] Instance Rgt_decision (a b : R) : Decision (a > b)%R := Rgt_dec a b.
#[global] Instance Rge_decision (a b : R) : Decision (a >= b)%R := Rge_dec a b.
#[global] Instance R_eq_decision : EqDecision R := Req_dec_T.

(** Exceptions that the modelled functions raise. *)
Inductive exn :=
  | ValueError (msg : string)
  | KeyError (key : string)
  | IndexError
  | ZeroDivisionError
  | FitError. (* whatever [scipy.interpolate.splprep] raises *)

(** A call either returns or raises. *)
Inductive result (A : Type) :=
  | Ok (a : A)
  | Raise (e : exn).
Arguments Ok {A} a.
Arguments Raise {A} e.

Definition bind {A B} (m : result A) (k : A -> result B) : result B :=
  match m with
  | Ok a => k a
  | Raise e => Raise e
  end.

#[global] Instance result_bind : MBind result := fun A B k m => bind m k.
#[global] Instance result_ret : MRet result := @Ok.

End Py.

(* ===================================================================== *)
(** ** Tire grip model: [OptimalLineGenerator._calculate_tire_grip] *)
(* ===================================================================== *)

Module Grip.
Import Py.
Local Open Scope Q_scope.

(** The vehicle and weather configurations are Python dicts from key to
    number (the vehicle's ['name'] entry, a string that is never read, is
    left out). *)
Abbreviation config := (gmap string Q).

Definition get_default_vehicle_config : config :=
  list_to_map
    [ ("mass_kg"%string, 1270);
      ("power_hp"%string, 228);
      ("top_speed_ms"%string, 67.0);
      ("tire_friction_dry"%string, 1.40);
      ("tire_friction_wet"%string, 0.70);
      ("tire_friction_intermediate"%string, 1.00);
      ("optimal_tire_temp"%string, 85);
      ("max_lateral_g"%string, 1.35);
      ("max_brake_g"%string, 1.50);
      ("max_accel_g"%string, 0.85);
      ("corner_speed_factor"%string, 0.92) ].

Definition get_default_weather_config : config :=
  list_to_map
    [ ("track_temp"%string, 85.0);
      ("air_temp"%string, 25.0);
      ("humidity"%string, 50);
      ("wind_speed"%string, 0.0);
      ("wind_direction"%string, 0);
      ("rainfall"%string, 0.0) ].

(** [d[key]]: raises [KeyError] when the key is absent. *)
Definition getitem (d : config) (key : string) : result Q :=
  match d !! key with
  | Some v => Ok v
  | None => Raise (KeyError key)
  end.

(** [d.get(key, dflt)] *)
Definition get (d : config) (key : string) (dflt : Q) : Q :=
  default dflt (d !! key).

Definition required_vehicle_keys : list string :=
  [ "tire_friction_dry"; "top_speed_ms"; "max_lateral_g";
    "max_brake_g"; "max_accel_g"; "corner_speed_factor" ]%string.

(** The dictionary part of [_validate_inputs]. *)
Definition validate_configs (vehicle weather : config) : result unit :=
  match List.find (fun k => bool_decide (vehicle !! k = None))
                  required_vehicle_keys with
  | Some k => Raise (ValueError ("Vehicle config must have '" +:+ k +:+ "' parameter"))
  | None =>
      match weather !! "track_temp"%string with
      | None => Raise (ValueError "Weather config must have 'track_temp' parameter")
      | Some _ => Ok tt
      end
  end.



Definition temp_factor (track_temp optimal_temp : Q) : Q :=
  let temp_diff := Qabs (track_temp - optimal_temp) in
  let temp_factor := 1.0 - (temp_diff / 100.0) * 0.3 in
  qmax 0.4 (qmin 1.0 temp_factor).

Definition calculate_tire_grip (vehicle weather : config) : result Q :=
  base_friction ← getitem vehicle "tire_friction_dry";
  let optimal_temp := get vehicle "optimal_tire_temp" 85 in
  track_temp ← getitem weather "track_temp";
  let temp_factor := temp_factor track_temp optimal_temp in
  let rainfall := get weather "rainfall" 0 in
  let effective_friction :=
    if Qlt_le_dec 10.0 rainfall then get vehicle "tire_friction_wet" 0.70
    else if Qlt_le_dec 2.0 rainfall then get vehicle "tire_friction_intermediate" 1.00
    else if Qlt_le_dec 0.1 rainfall then base_friction * 0.85
    else base_friction in
  Ok (effective_friction * temp_factor).

(** The grip model in the words of the specification, for comparison. *)
Definition spec_clamp (x lo hi : Q) : Q :=
  if Qlt_le_dec x lo then lo else if Qlt_le_dec hi x then hi else x.

Definition spec_temp_factor (track_temp optimal_temp : Q) : Q :=
  spec_clamp (1 - Qabs (track_temp - optimal_temp) / 100 * 0.3) 0.4 1.0.

Definition spec_selected_friction (dry wet intermediate rainfall : Q) : Q :=
  if Qlt_le_dec 10 rainfall then wet
  else if Qlt_le_dec 2 rainfall then intermediate
  else if Qlt_le_dec 0.1 rainfall then dry * 0.85
  else dry.

Definition spec_effective_grip
    (dry wet intermediate optimal_temp track_temp rainfall : Q) : Q :=
  spec_selected_friction dry wet intermediate rainfall
  * spec_temp_factor track_temp optimal_temp.

(** Weather record with a given track temperature and rainfall rate. *)
Definition weather_with (track_temp rainfall : Q) : config :=
  <["rainfall"%string := rainfall]>
    (<["track_temp"%string := track_temp]> get_default_weather_config).

End Grip.

(* ===================================================================== *)
(** ** Optimal line: [OptimalLineGenerator.generate_optimal_line] *)
(* ===================================================================== *)

Module OptimalLine.
Import Py.
Local Open Scope R_scope.

(** Element-wise numpy operations on arrays (lists of reals). *)
Definition np_sign (v : R) : R :=
  if Rlt_dec v 0 then -1 else if Rlt_dec 0 v then 1 else 0.

Definition hypot (dx dy : R) : R := sqrt (dx * dx + dy * dy).

(** [np.linspace(0, 1, n, endpoint=False)] *)
Definition linspace01 (n : nat) : list R :=
  map (fun i => INR i / INR n) (seq 0 n).

(** One row of the result [DataFrame] columns, and the frame itself.  The
    scalar columns [grip_coefficient] and [lap_time] hold the same value
    in every row. *)
Record optimal_line := {
  ol_x : list R;
  ol_y : list R;
  ol_distance : list R;
  ol_speed : list R;
  ol_curvature : list R;
  ol_grip_coefficient : R;
  ol_lap_time : R
}.

Definition g : R := 981 / 100.
Definition min_spacing : R := 1 / 10.

(** The error for a centerline with too few distinct points. *)
Definition too_few_points (n : nat) : exn :=
  ValueError ("Track has too few unique points (" +:+ pretty n +:+ " < 4 required)").

(** Step 1: drop points closer than [min_spacing] to the last kept one.
    [last_kept] is [cleaned[-1]]; the result lists what is appended. *)
Fixpoint clean_from (last_kept : R * R) (rest : list (R * R)) : list (R * R) :=
  match rest with
  | [] => []
  | p :: rest' =>
      let dx := p.1 - last_kept.1 in
      let dy := p.2 - last_kept.2 in
      let dist := sqrt (dx * dx + dy * dy) in
      if Rle_dec min_spacing dist
      then p :: clean_from p rest'
      else clean_from last_kept rest'
  end.

Definition clean_points (center : list (R * R)) : result (list (R * R)) :=
  match center with
  | [] => Raise IndexError
  | p0 :: rest => Ok (p0 :: clean_from p0 rest)
  end.

(** The distance array: [distance[0] = 0],
    [distance[i] = distance[i-1] + |center[i] - center[i-1]|]. *)
Fixpoint distance_from (prev : R * R) (acc : R) (pts : list (R * R)) : list R :=
  match pts with
  | [] => []
  | p :: pts' =>
      let ds := sqrt ((p.1 - prev.1) ^ 2 + (p.2 - prev.2) ^ 2) in
      (acc + ds) :: distance_from p (acc + ds) pts'
  end.

Definition distance_array (pts : list (R * R)) : list R :=
  match pts with
  | [] => []
  | p0 :: pts' => 0 :: distance_from p0 0 pts'
  end.

(** Forward pass (acceleration-limited).  [prev_v] and [prev_d] are
    [speeds[i-1]] and [distance[i-1]]. *)
Fixpoint forward_from (accel_g : R) (prev_v prev_d : R)
    (max_speed_lateral distance : list R) : list R :=
  match max_speed_lateral, distance with
  | v :: vs, d :: ds' =>
      let ds := d - prev_d in
      let v_max_accel := sqrt (prev_v ^ 2 + 2 * accel_g * g * ds) in
      let s := rmin v v_max_accel in
      s :: forward_from accel_g s d vs ds'
  | _, _ => []
  end.

Definition forward_pass (accel_g : R) (max_speed_lateral distance : list R)
  : list R :=
  match max_speed_lateral, distance with
  | v0 :: vs, d0 :: ds => v0 :: forward_from accel_g v0 d0 vs ds
  | _, _ => []
  end.

(** Backward pass (braking-limited): from index [n-2] down to [0],
    [speeds[i] = min(speeds[i], sqrt(speeds[i+1]^2 + 2*brake*g*ds))];
    the last entry is left as it is. *)
Fixpoint backward_pass (brake_g : R) (speeds distance : list R) : list R :=
  match speeds, distance with
  | s :: speeds', d :: distance' =>
      match backward_pass brake_g speeds' distance', distance' with
      | s1 :: rest, d1 :: _ =>
          let ds := d1 - d in
          let v_max_brake := sqrt (s1 ^ 2 + 2 * brake_g * g * ds) in
          rmin s v_max_brake :: s1 :: rest
      | _, _ => [s]
      end
  | _, _ => []
  end.

(** Step 7: lap time, the sum of [ds / max(v_avg, 1.0)] over segments. *)
Fixpoint lap_time_of (distance speeds : list R) : R :=
  match distance, speeds with
  | d :: ((d1 :: _) as distance'), s :: ((s1 :: _) as speeds') =>
      let ds := d1 - d in
      let v_avg := (s + s1) / 2 in
      ds / rmax v_avg 1 + lap_time_of distance' speeds'
  | _, _ => 0
  end.

(** One call of [splprep([xs, ys], s=..., per=True, k=3)]. *)
Record fit_call := { fit_xs : list R; fit_ys : list R; fit_s : R }.

(** A computation that records the curve fits it asks for. *)
Definition traced (A : Type) : Type := list fit_call * result A.

Definition tbind {A B} (m : traced A) (k : A -> traced B) : traced B :=
  match m with
  | (log, Ok a) => let '(log', r) := k a in (log ++ log', r)
  | (log, Raise e) => (log, Raise e)
  end.

Definition lift {A} (r : result A) : traced A := ([], r).

(** *** The object and the dictionaries it shares with its caller

    The constructor keeps references to the caller's centerline frame
    and configuration dictionaries, so these live in a heap. *)

Record row := { row_x : R; row_y : R; row_distance : R }.


Inductive obj :=
  | ODict (d : Grip.config)
  | OFrame (rows : list row).

Abbreviation loc := positive.
Abbreviation heap := (gmap positive obj).

Record generator := {
  centerline : loc;
  track_width : R;
  vehicle : loc;
  weather : loc;
  center_xy : list (R * R);
  distance : list R;
  track_length : R;
  effective_grip : Q
}.

Section Generator.

(** scipy, taken as given: the spline representation, [splprep] ([None]
    when it raises), [splev(u, tck, der)] and [gaussian_filter1d]. *)
Variable tck : Type.
Variable splprep : list R -> list R -> R -> option tck.
Variable splev : list R -> tck -> nat -> list R * list R.
Variable gaussian_filter1d : list R -> R -> list R.

Definition call_splprep (xs ys : list R) (s : R) : traced tck :=
  ([ {| fit_xs := xs; fit_ys := ys; fit_s := s |} ],
   match splprep xs ys s with
   | Some t => Ok t
   | None => Raise FitError
   end).

(** The [try: ... except Exception: ...] around the centerline fit. *)
Definition fit_centerline (cleaned : list (R * R)) : traced tck :=
  let cleaned_x := cleaned.*1 in
  let cleaned_y := cleaned.*2 in
  match call_splprep cleaned_x cleaned_y 0 with
  | (log, Ok t) => (log, Ok t)
  | (log, Raise _) =>
      let '(log', r) := call_splprep cleaned_x cleaned_y 10 in
      (log ++ log', r)
  end.

Definition curvature_of (d1 d2 : list R * list R) : list R :=
  zip_with (fun '(dx, dy) '(d2x, d2y) =>
              Rabs (dx * d2y - dy * d2x) / (hypot dx dy) ^ 3)
           (zip d1.1 d1.2) (zip d2.1 d2.2).

(** Steps 2-7, once the centerline spline is fitted. *)
Definition line_from_fit (track_width : R) (vehicle : Grip.config)
    (effective_grip : Q) (n_points : nat) (t : tck) : traced optimal_line :=
  let u_fine := linspace01 n_points in
  let center := splev u_fine t 0 in
  let d1 := splev u_fine t 1 in
  let normal :=
    zip_with (fun dx dy =>
                let tangent_len := hypot dx dy in
                (- (dy / tangent_len), dx / tangent_len)) d1.1 d1.2 in
  let distance := distance_array (zip center.1 center.2) in
  let d2 := splev u_fine t 2 in
  let curvature_center := gaussian_filter1d (curvature_of d1 d2) 15 in
  let max_offset := track_width / 2 * (9 / 10) in
  tbind (lift (Grip.getitem vehicle "tire_friction_dry")) (fun dry =>
  let grip_factor := Q2R effective_grip / Q2R dry in
  let lateral_offsets :=
    gaussian_filter1d
      (map (fun k => - np_sign k * Rmin (Rabs k * 800 * grip_factor) max_offset)
           curvature_center) 20 in
  let race_x :=
    zip_with (fun c '(o, n) => c + o * n) center.1 (zip lateral_offsets normal.*1) in
  let race_y :=
    zip_with (fun c '(o, n) => c + o * n) center.2 (zip lateral_offsets normal.*2) in
  tbind (call_splprep race_x race_y 10) (fun race_tck =>
  let race_d1 := splev u_fine race_tck 1 in
  let race_d2 := splev u_fine race_tck 2 in
  let curvature_race :=
    map (fun k => Rmax k (1 / 1000000))
        (gaussian_filter1d (curvature_of race_d1 race_d2) 10) in
  tbind (lift (Grip.getitem vehicle "corner_speed_factor")) (fun factor =>
  tbind (lift (Grip.getitem vehicle "top_speed_ms")) (fun top_speed =>
  let max_speed_lateral :=
    map (fun k =>
           let corner_radius := 1 / k in
           Rmin (sqrt (Q2R effective_grip * g * corner_radius * Q2R factor))
                (Q2R top_speed))
        curvature_race in
  match max_speed_lateral with
  | [] => lift (Raise IndexError)
  | _ :: _ =>
      tbind (lift (Grip.getitem vehicle "max_accel_g")) (fun accel =>
      tbind (lift (Grip.getitem vehicle "max_brake_g")) (fun brake =>
      let speeds :=
        backward_pass (Q2R brake)
          (forward_pass (Q2R accel) max_speed_lateral distance) distance in
      lift (Ok {| ol_x := race_x;
                  ol_y := race_y;
                  ol_distance := distance;
                  ol_speed := speeds;
                  ol_curvature := curvature_race;
                  ol_grip_coefficient := Q2R effective_grip;
                  ol_lap_time := lap_time_of distance speeds |})))
  end)))).

(** [generate_optimal_line] on the values the object holds: the
    centerline coordinates, the track width, the vehicle dictionary and
    the grip computed at construction. *)
Definition generate_optimal_line (center : list (R * R)) (track_width : R)
    (vehicle : Grip.config) (effective_grip : Q) (n_points : nat)
  : traced optimal_line :=
  tbind (lift (clean_points center)) (fun cleaned =>
  if (length cleaned <? 4)%nat
  then lift (Raise (too_few_points (length cleaned)))
  else
    tbind (fit_centerline cleaned) (fun t =>
    line_from_fit track_width vehicle effective_grip n_points t)).

(** *** The methods of the object *)

Definition read_dict (h : heap) (l : loc) : result Grip.config :=
  match h !! l with
  | Some (ODict d) => Ok d
  | _ => Raise (ValueError "not a dict")
  end.





(** [update_weather(self, new_weather)]:
    [self.weather.update(new_weather)] writes into the dictionary that
    [self.weather] refers to, then the grip is recomputed. *)
Definition update_weather (h : heap) (self : generator)
    (new_weather : Grip.config) : heap * result generator :=
  match read_dict h (weather self) with
  | Raise e => (h, Raise e)
  | Ok wd =>
      let h' := <[weather self := ODict (new_weather ∪ wd)]> h in
      (h',
       vd ← read_dict h' (vehicle self);
       wd' ← read_dict h' (weather self);
       grip ← Grip.calculate_tire_grip vd wd';
       Ok {| centerline := centerline self;
             track_width := track_width self;
             vehicle := vehicle self;
             weather := weather self;
             center_xy := center_xy self;
             distance := distance self;
             track_length := track_length self;
             effective_grip := grip |})
  end.

End Generator.

End OptimalLine.

(* ===================================================================== *)
(** ** Track reconstruction: [TrackProcessor] *)
(* ===================================================================== *)

Module TrackProcessor.
Import Py.
Local Open Scope R_scope.

Definition EARTH_R : R := 6378137.

(** A projected point [{'x': .., 'y': ..}]. *)
Record xy := { px : R; py : R }.

Definition project_to_local_meters (lat lon center_lat center_lon : R) : xy :=
  let dLat := (lat - center_lat) * PI / 180 in
  let dLon := (lon - center_lon) * PI / 180 in
  let latRad := center_lat * PI / 180 in
  {| px := EARTH_R * dLon * cos latRad; py := EARTH_R * dLat |}.

Definition get_distance_meters (p1 p2 : xy) : R :=
  sqrt ((px p2 - px p1) ^ 2 + (py p2 - py p1) ^ 2).

(** Comparisons against a running minimum or maximum that starts at
    [float('inf')] or [float('-inf')]: [None] stands for the infinity. *)
Definition lt_running (v : R) (cur : option R) : bool :=
  match cur with
  | None => true
  | Some m => bool_decide (v < m)
  end.

Definition gt_running (v : R) (cur : option R) : bool :=
  match cur with
  | None => true
  | Some m => bool_decide (v > m)
  end.

Definition upd_min (cur : option R) (v : R) : option R :=
  if lt_running v cur then Some v else cur.
Definition upd_max (cur : option R) (v : R) : option R :=
  if gt_running v cur then Some v else cur.

(** *** [process_osm_data] *)

Abbreviation tags := (gmap string string).

Record geo := { lat : R; lon : R }.

Record way := {
  way_id : Z;
  way_nodes : option (list Z);   (* the key 'nodes' may be missing *)
  way_tags : option tags         (* the key 'tags' may be missing *)
}.

Inductive element :=
  | ENode (id : Z) (pos : geo)
  | EWay (w : way)
  | EOther.

Inductive path_type := Track | Pit.

(** One entry of [all_paths] (the label ['widthLabel'], a display string,
    is left out). *)
Record path_value := {
  pv_id : Z;
  pv_points : list xy;
  pv_rawPoints : list geo;
  pv_type : path_type;
  pv_widthValue : R
}.

Record bounds := { minX : option R; maxX : option R; minY : option R; maxY : option R }.

Record track_value := {
  tv_name : string;
  tv_paths : list path_value;
  tv_center : option (R * R);    (* [None] when no node was seen (NaN) *)
  tv_boundsMeters : bounds
}.

(** ASCII [str.lower()] and the substring test [needle in hay]. *)
Definition ascii_lower (c : Ascii.ascii) : Ascii.ascii :=
  let n := nat_of_ascii c in
  if ((65 <=? n) && (n <=? 90))%nat then ascii_of_nat (n + 32) else c.

Fixpoint lower (s : string) : string :=
  match s with
  | EmptyString => EmptyString
  | String c s' => String (ascii_lower c) (lower s')
  end.

Fixpoint contains (needle hay : string) : bool :=
  String.prefix needle hay
  || match hay with
     | EmptyString => false
     | String _ hay' => contains needle hay'
     end.

(** Truthiness of [tags.get(key)]: present and not the empty string. *)
Definition tag_truthy (t : tags) (key : string) : bool :=
  match t !! key with
  | Some v => negb (String.eqb v "")
  | None => false
  end.

Definition tag_is (t : tags) (key value : string) : bool :=
  bool_decide (t !! key = Some value).

(** Truthiness of [pit_lane_id]: [None] and the id [0] are falsy. *)
Definition id_truthy (pid : option Z) : bool :=
  match pid with
  | Some i => negb (i =? 0)%Z
  | None => false
  end.

Record parsed := {
  p_nodes : gmap Z geo;
  p_ways : list way;
  p_seen : gset Z;
  p_min_lat : option R; p_max_lat : option R;
  p_min_lon : option R; p_max_lon : option R
}.

Definition parse_element (st : parsed) (el : element) : parsed :=
  match el with
  | ENode id pos =>
      {| p_nodes := <[id := pos]> (p_nodes st);
         p_ways := p_ways st;
         p_seen := p_seen st;
         p_min_lat := upd_min (p_min_lat st) (lat pos);
         p_max_lat := upd_max (p_max_lat st) (lat pos);
         p_min_lon := upd_min (p_min_lon st) (lon pos);
         p_max_lon := upd_max (p_max_lon st) (lon pos) |}
  | EWay w =>
      if decide (way_id w ∈ p_seen st) then st
      else {| p_nodes := p_nodes st;
              p_ways := p_ways st ++ [w];
              p_seen := {[ way_id w ]} ∪ p_seen st;
              p_min_lat := p_min_lat st; p_max_lat := p_max_lat st;
              p_min_lon := p_min_lon st; p_max_lon := p_max_lon st |}
  | EOther => st
  end.

Definition parse_elements (els : list element) : parsed :=
  foldl parse_element
        {| p_nodes := ∅; p_ways := []; p_seen := ∅;
           p_min_lat := None; p_max_lat := None;
           p_min_lon := None; p_max_lon := None |}
        els.

(** The pit-lane search: the way whose first node is nearest the anchor.
    The state is [(min_dist, pit_lane_id)]. *)
Definition pit_step (nodes : gmap Z geo) (pit_anchor : geo)
    (st : result (option R * option Z)) (w : way)
  : result (option R * option Z) :=
  '(min_dist, pit_lane_id) ← st;
  match way_nodes w with
  | None => Raise (KeyError "nodes")
  | Some [] => Ok (min_dist, pit_lane_id)
  | Some (n0 :: _) =>
      match nodes !! n0 with
      | None => Ok (min_dist, pit_lane_id)
      | Some first_node =>
          let d_lat := (lat pit_anchor - lat first_node) * 111000 in
          let d_lon := (lon pit_anchor - lon first_node) * 111000 in
          let d := sqrt (d_lat ^ 2 + d_lon ^ 2) in
          if lt_running d min_dist
          then Ok (Some d, Some (way_id w))
          else Ok (min_dist, pit_lane_id)
      end
  end.

Definition find_pit_lane (nodes : gmap Z geo) (ways : list way)
    (pit_anchor : option geo) : result (option Z) :=
  match pit_anchor with
  | None => Ok None
  | Some a => st ← foldl (pit_step nodes a) (Ok (None, None)) ways; Ok st.2
  end.

Section Process.

(** [re.match(r'([0-9.]+)', s)] followed by [float(...)]; [None] when
    there is no match or the conversion raises. *)
Variable parse_width : string -> option R.

Definition resolve (nodes : gmap Z geo) (ids : list Z) : list geo :=
  omap (fun i => nodes !! i) ids.

(** The body of the loop over [ways] for one way: [None] is [continue]. *)
Definition process_way (nodes : gmap Z geo) (center : R * R)
    (pit_lane_id : option Z) (w : way) : option path_value :=
  match way_nodes w with
  | None => None
  | Some ids =>
      if (length ids <? 2)%nat then None else
      let points := resolve nodes ids in
      if (length points <? 2)%nat then None else
      let t := default ∅ (way_tags w) in
      if id_truthy pit_lane_id
         && negb (bool_decide (Some (way_id w) = pit_lane_id))
         && tag_is t "highway" "service"
      then None else
      if tag_truthy t "barrier" || tag_truthy t "wall" || tag_truthy t "building"
      then None else
      let projected_points :=
        map (fun p => project_to_local_meters (lat p) (lon p) center.1 center.2)
            points in
      let is_pit :=
        bool_decide (Some (way_id w) = pit_lane_id)
        || tag_is t "service" "pit_lane"
        || contains "pit" (lower (default ""%string (t !! "name"%string))) in
      let width_value := if is_pit then 5 else 12 in
      let width_value :=
        match t !! "width"%string with
        | Some width_str => default width_value (parse_width width_str)
        | None => width_value
        end in
      Some {| pv_id := way_id w;
              pv_points := projected_points;
              pv_rawPoints := points;
              pv_type := if is_pit then Pit else Track;
              pv_widthValue := width_value |}
  end.

Definition grow_bounds (b : bounds) (m : xy) : bounds :=
  {| maxX := upd_max (maxX b) (px m);
     minX := upd_min (minX b) (px m);
     maxY := upd_max (maxY b) (py m);
     minY := upd_min (minY b) (py m) |}.

Definition no_bounds : bounds :=
  {| minX := None; maxX := None; minY := None; maxY := None |}.

(** [osm_data] is [None] when the argument is falsy or has no
    ['elements'] key, else its element list.  A way can only pass the
    node filter when some node exists, and then the centre is defined;
    the centre [(0, 0)] below is never used. *)
Definition process_osm_data (osm_data : option (list element)) (name : string)
    (pit_anchor : option geo) : result (option track_value) :=
  match osm_data with
  | None => Ok None
  | Some els =>
      let st := parse_elements els in
      match p_ways st with
      | [] => Ok None
      | ways =>
          let center :=
            match p_min_lat st, p_max_lat st, p_min_lon st, p_max_lon st with
            | Some a, Some b, Some c, Some d => Some ((a + b) / 2, (c + d) / 2)
            | _, _, _, _ => None
            end in
          pit_lane_id ← find_pit_lane (p_nodes st) ways pit_anchor;
          let all_paths :=
            omap (process_way (p_nodes st) (default (0, 0) center) pit_lane_id)
                 ways in
          Ok (Some {| tv_name := name;
                      tv_paths := all_paths;
                      tv_center := center;
                      tv_boundsMeters :=
                        foldl grow_bounds no_bounds
                              (concat (map pv_points all_paths)) |})
      end
  end.

End Process.

(** *** [finalize_track]: data

    The point dictionaries of [track_data] are shared with the caller and
    some of them are written to, so they live in a heap: [points] holds
    references to [{'x', 'y'}] dictionaries (which may gain a ['z']), and
    [rawPoints] references to [{'lat', 'lon'}] dictionaries (likewise).
    The list of paths and the other entries of a path are only read. *)

Abbreviation loc := positive.

Record point := { pt_xy : xy; pt_z : option R }.
Record raw_point := { raw_geo : geo; raw_z : option R }.

Record heap := {
  h_points : gmap loc point;
  h_raw : gmap loc raw_point
}.

Record path := {
  id : Z;
  points : list loc;
  rawPoints : list loc;
  type : path_type;
  widthValue : R
}.

Record track_data := {
  paths : list path;
  center : geo
}.

(** A spline point: a dictionary created by [finalize_track] itself. *)
Record spline_point := {
  x : R; y : R; z : R;
  sp_lat : R; sp_lon : R;
  dist : R;
  width : R
}.

Definition sp_xy (p : spline_point) : xy := {| px := x p; py := y p |}.

Definition set_z (p : spline_point) (v : R) : spline_point :=
  {| x := x p; y := y p; z := v; sp_lat := sp_lat p; sp_lon := sp_lon p;
     dist := dist p; width := width p |}.

Definition set_dist (p : spline_point) (v : R) : spline_point :=
  {| x := x p; y := y p; z := z p; sp_lat := sp_lat p; sp_lon := sp_lon p;
     dist := v; width := width p |}.

Definition scale_point (k : R) (p : spline_point) : spline_point :=
  {| x := x p * k; y := y p * k; z := z p; sp_lat := sp_lat p; sp_lon := sp_lon p;
     dist := dist p * k; width := width p |}.

(** A track segment with its point coordinates read out ([x], [y], [lat]
    and [lon] are never written); the raw points keep their reference,
    through which ['z'] is written and read. *)
Record segment := {
  seg_points : list xy;
  seg_rawPoints : list (loc * geo);
  seg_width : R;
  seg_id : Z
}.

(** The dictionary returned by the elevation provider, keyed by
    [(round(lat, 6), round(lon, 6))]. *)
Definition elevation_map : Type := R * R -> option R.

Definition no_elevations : elevation_map := fun _ => None.

(** [older.update(newer)] *)
Definition update_elevations (older newer : elevation_map) : elevation_map :=
  fun k => match newer k with Some v => Some v | None => older k end.

Definition fetcher : Type := list geo -> elevation_map.

(** A dangling reference cannot occur in Python; the model reports it as
    a [KeyError]. *)
Definition deref_point (h : heap) (l : loc) : result point :=
  match h_points h !! l with
  | Some p => Ok p
  | None => Raise (KeyError "point")
  end.

Definition deref_raw (h : heap) (l : loc) : result raw_point :=
  match h_raw h !! l with
  | Some p => Ok p
  | None => Raise (KeyError "rawPoint")
  end.

Fixpoint mapM {A B} (f : A -> result B) (l : list A) : result (list B) :=
  match l with
  | [] => Ok []
  | a :: l' => b ← f a; bs ← mapM f l'; Ok (b :: bs)
  end.

Definition read_segment (h : heap) (p : path) : result segment :=
  pts ← mapM (fun l => q ← deref_point h l; Ok (pt_xy q)) (points p);
  raws ← mapM (fun l => q ← deref_raw h l; Ok (l, raw_geo q)) (rawPoints p);
  Ok {| seg_points := pts; seg_rawPoints := raws;
        seg_width := widthValue p; seg_id := id p |}.

(** [raw.get('z', 0)] through the reference. *)
Definition raw_z_or_0 (h : heap) (l : loc) : R :=
  default 0 (h_raw h !! l ≫= raw_z).

(** [pt.get('z', 0)] through the reference. *)
Definition point_z_or_0 (h : heap) (l : loc) : R :=
  default 0 (h_points h !! l ≫= pt_z).

Definition write_raw_z (h : heap) (l : loc) (v : R) : heap :=
  {| h_points := h_points h;
     h_raw := alter (fun q => {| raw_geo := raw_geo q; raw_z := Some v |}) l (h_raw h) |}.

Definition write_point_z (h : heap) (l : loc) (v : R) : heap :=
  {| h_points := alter (fun q => {| pt_xy := pt_xy q; pt_z := Some v |}) l (h_points h);
     h_raw := h_raw h |}.

(** *** Segment ordering (greedy stitching) *)

(** [seg['points'][0]] and [seg['points'][-1]] *)
Definition ends (s : segment) : result (xy * xy) :=
  match head (seg_points s), last (seg_points s) with
  | Some hd, Some tl => Ok (hd, tl)
  | _, _ => Raise IndexError
  end.

(** One step of a nearest-endpoint search; the state is
    [(min_dist, index, reverse)], [None] before the first hit. *)
Definition nearer (target : xy) (i : nat) (hd tl : xy)
    (st : option (R * nat * bool)) : option (R * nat * bool) :=
  let d_head := get_distance_meters hd target in
  let d_tail := get_distance_meters tl target in
  let st1 := if lt_running d_head (fst <$> (fst <$> st))
             then Some (d_head, i, false) else st in
  if lt_running d_tail (fst <$> (fst <$> st1))
  then Some (d_tail, i, true) else st1.

Fixpoint find_start (sf_meters : xy) (i : nat) (segs : list segment)
    (st : option (R * nat * bool)) : result (option (R * nat * bool)) :=
  match segs with
  | [] => Ok st
  | s :: segs' =>
      '(hd, tl) ← ends s;
      find_start sf_meters (S i) segs' (nearer sf_meters i hd tl st)
  end.

(** The search for the next segment measures from the chain tail to the
    candidate's ends, [get_distance_meters(tail, n_head)]. *)
Definition nearer_from (tail : xy) (i : nat) (hd tl : xy)
    (st : option (R * nat * bool)) : option (R * nat * bool) :=
  let d_head := get_distance_meters tail hd in
  let d_tail := get_distance_meters tail tl in
  let st1 := if lt_running d_head (fst <$> (fst <$> st))
             then Some (d_head, i, false) else st in
  if lt_running d_tail (fst <$> (fst <$> st1))
  then Some (d_tail, i, true) else st1.

Fixpoint find_next (tail : xy) (used : gset nat) (i : nat)
    (segs : list segment) (st : option (R * nat * bool))
  : option (R * nat * bool) :=
  match segs with
  | [] => st
  | s :: segs' =>
      let st' :=
        if decide (i ∈ used) then st
        else match head (seg_points s), last (seg_points s) with
             | Some hd, Some tl => nearer_from tail i hd tl st
             | _, _ => st   (* excluded: [find_start] has raised before *)
             end in
      find_next tail used (S i) segs' st'
  end.

Definition orient (reverse : bool) (s : segment) : segment :=
  {| seg_points := if reverse then rev (seg_points s) else seg_points s;
     seg_rawPoints := if reverse then rev (seg_rawPoints s) else seg_rawPoints s;
     seg_width := seg_width s;
     seg_id := seg_id s |}.

(** The loop [for _ in range(len(track_segs))]; [fuel] counts its
    remaining iterations. *)
Fixpoint order_segments (fuel : nat) (track_segs : list segment)
    (used : gset nat) (current_idx : nat) (reverse : bool) : list segment :=
  match fuel with
  | O => []
  | S fuel' =>
      match track_segs !! current_idx with
      | None => []
      | Some seg =>
          let used := {[ current_idx ]} ∪ used in
          let o := orient reverse seg in
          match last (seg_points o) with
          | None => [o]
          | Some tail =>
              match find_next tail used 0 track_segs None with
              | Some (min_gap, next_idx, next_reverse) =>
                  if bool_decide (min_gap < 50)
                  then o :: order_segments fuel' track_segs used next_idx next_reverse
                  else [o]
              | None => [o]
              end
          end
      end
  end.

(** The start/finish anchor: the arguments, or the first raw point of the
    first path when one of them is [None]; no anchor means [return None]. *)
Definition anchor (h : heap) (td : track_data) (sf_lat sf_lon : option R)
  : result (option geo) :=
  match sf_lat, sf_lon with
  | Some la, Some lo => Ok (Some {| lat := la; lon := lo |})
  | _, _ =>
      match paths td with
      | p0 :: _ =>
          match rawPoints p0 with
          | r0 :: _ => q ← deref_raw h r0; Ok (Some (raw_geo q))
          | [] => Ok None
          end
      | [] => Ok None
      end
  end.

Definition is_track (p : path) : bool :=
  match type p with Track => true | Pit => false end.
Definition is_pit (p : path) : bool :=
  match type p with Pit => true | Track => false end.

(** Up to the ordered segment chain: nothing is written.  [None] stands
    for the early [return None]. *)
Definition stitch (h : heap) (td : track_data) (sf : geo)
  : result (option (list segment)) :=
  let sf_meters :=
    project_to_local_meters (lat sf) (lon sf) (lat (center td)) (lon (center td)) in
  track_segs ← mapM (read_segment h) (filter (fun p => is_track p = true) (paths td));
  match track_segs with
  | [] => Ok None
  | _ :: _ =>
      start ← find_start sf_meters 0 track_segs None;
      match start with
      | None => Ok None
      | Some (_, best_start_idx, start_reverse) =>
          Ok (Some (order_segments (length track_segs) track_segs ∅
                                   best_start_idx start_reverse))
      end
  end.

(** [int(d)] for a positive float. *)
Definition int_of (d : R) : nat := Z.to_nat (Zfloor d).

(** *** Resampling with elevation (the second resampling loop; the first
    one walks the same points without ['z'] and its result is
    overwritten, so only whether it raises matters) *)

(** What the loop reads of a raw point: position and [raw.get('z', 0)]. *)
Definition raw_view (h : heap) (r : loc * geo) : geo * R :=
  (r.2, raw_z_or_0 h r.1).

Definition interpolated (last_p : spline_point) (p : xy) (d : R)
    (last_raw raw_p : geo * R) (total_distance seg_w : R) : list spline_point :=
  map (fun s : nat =>
         let t := INR s / d in
         {| x := x last_p + (px p - x last_p) * t;
            y := y last_p + (py p - y last_p) * t;
            z := last_raw.2 + (raw_p.2 - last_raw.2) * t;
            sp_lat := lat last_raw.1 + (lat raw_p.1 - lat last_raw.1) * t;
            sp_lon := lon last_raw.1 + (lon raw_p.1 - lon last_raw.1) * t;
            dist := total_distance + INR s;
            width := seg_w |})
      (seq 1 (int_of d)).

(** The inner loop over the points of one segment.  [prev_raw] is
    [seg['rawPoints'][i-1]] ([None] at [i = 0]); the state is
    [(spline_points, total_distance)]. *)
Fixpoint resample_points (h : heap) (seg_w : R) (prev_raw : option (geo * R))
    (pts : list xy) (raws : list (loc * geo)) (st : list spline_point * R)
  : result (list spline_point * R) :=
  match pts with
  | [] => Ok st
  | p :: pts' =>
      match raws with
      | [] => Raise IndexError
      | r :: raws' =>
          let raw_p := raw_view h r in
          let st1 :=
            match last st.1 with
            | None => st
            | Some last_p =>
                let last_raw := default raw_p prev_raw in
                let d := get_distance_meters (sp_xy last_p) p in
                let added :=
                  if bool_decide (d > 1)
                  then interpolated last_p p d last_raw raw_p st.2 seg_w
                  else [] in
                (st.1 ++ added, st.2 + d)
            end in
          let vertex :=
            {| x := px p; y := py p; z := raw_p.2;
               sp_lat := lat raw_p.1; sp_lon := lon raw_p.1;
               dist := st1.2; width := seg_w |} in
          resample_points h seg_w (Some raw_p) pts' raws' (st1.1 ++ [vertex], st1.2)
      end
  end.

Fixpoint resample (h : heap) (segs : list segment) (st : list spline_point * R)
  : result (list spline_point * R) :=
  match segs with
  | [] => Ok st
  | seg :: segs' =>
      st' ← resample_points h (seg_width seg) None
                            (seg_points seg) (seg_rawPoints seg) st;
      resample h segs' st'
  end.

(** *** Elevation normalisation *)

(** [min(values)] for a non-empty list: the first item, replaced by each
    later item that is smaller. *)
Definition py_min_list (values : list R) : option R :=
  match values with
  | [] => None
  | v :: rest => Some (foldl rmin v rest)
  end.

Definition pit_point_refs (pit_segs : list path) : list loc :=
  concat (map points pit_segs).

(** The ['z'] entries of the pit points that have one. *)
Definition pit_z_values (h : heap) (refs : list loc) : list R :=
  omap (fun l => h_points h !! l ≫= pt_z) refs.

(** [if 'z' in pt: pt['z'] -= min_z] *)
Definition lower_pit_z (min_z : R) (h : heap) (l : loc) : heap :=
  match h_points h !! l ≫= pt_z with
  | Some v => write_point_z h l (v - min_z)
  | None => h
  end.

Definition normalize_elevation (h : heap) (spline_points : list spline_point)
    (pit_segs : list path) : heap * list spline_point :=
  match spline_points with
  | [] => (h, spline_points)
  | _ :: _ =>
      let refs := pit_point_refs pit_segs in
      let z_values := map z spline_points ++ pit_z_values h refs in
      match py_min_list z_values with
      | None => (h, spline_points)
      | Some min_z =>
          (foldl (lower_pit_z min_z) h refs,
           map (fun p => set_z p (z p - min_z)) spline_points)
      end
  end.

(** The elevations a finished track shows: ['z'] of every spline point
    and [p.get('z', 0)] of every pit point. *)
Definition all_elevations (h : heap) (spline_points : list spline_point)
    (pit_segs : list path) : list R :=
  map z spline_points ++ map (point_z_or_0 h) (pit_point_refs pit_segs).

(** *** Scaling, start/finish rotation and cumulative distance *)

Definition METERS_PER_MILE : R := 160934 / 100.   (* 1609.34 *)
Definition METERS_PER_INCH : R := 254 / 10000.    (* 0.0254 *)

(** The scaling block; the result is
    [(spline_points, total_distance, scaling_factor)]. *)
Definition scale_track (spline_points : list spline_point) (total_distance : R)
    (circuit_miles : option R) : result (list spline_point * R * R) :=
  match circuit_miles with
  | Some miles =>
      if bool_decide (miles > 0) then
        let target_meters := miles * METERS_PER_MILE in
        if bool_decide (total_distance = 0) then Raise ZeroDivisionError else
        let scaling_factor := target_meters / total_distance in
        Ok (map (scale_point scaling_factor) spline_points,
            total_distance * scaling_factor, scaling_factor)
      else Ok (spline_points, total_distance, 1)
  | None => Ok (spline_points, total_distance, 1)
  end.

(** The start/finish search over [spline_points[i]], [i < min(2000, len)];
    the state is [(min_sf_dist, sf_index)]. *)
Fixpoint sf_search (scaled_sf : xy) (i : nat) (pts : list spline_point)
    (st : option R * nat) : nat :=
  match pts with
  | [] => st.2
  | p :: pts' =>
      let d := get_distance_meters (sp_xy p) scaled_sf in
      sf_search scaled_sf (S i) pts'
                (if lt_running d st.1 then (Some d, i) else st)
  end.

Definition find_sf_index (spline_points : list spline_point) (scaled_sf : xy) : nat :=
  sf_search scaled_sf 0 (take 2000 spline_points) (None, 0%nat).

(** Cumulative distance recomputed along the sequence. *)
Fixpoint recompute_from (prev : spline_point) (total_distance : R)
    (pts : list spline_point) : list spline_point * R :=
  match pts with
  | [] => ([], total_distance)
  | p :: pts' =>
      let total := total_distance + get_distance_meters (sp_xy prev) (sp_xy p) in
      let '(rest, final) := recompute_from p total pts' in
      (set_dist p total :: rest, final)
  end.

Definition recompute_dist (pts : list spline_point) : list spline_point * R :=
  match pts with
  | [] => ([], 0)
  | p0 :: pts' =>
      let '(rest, final) := recompute_from p0 0 pts' in
      (set_dist p0 0 :: rest, final)
  end.

(** [if sf_index > 0: ...] *)
Definition rotate_to_sf (spline_points : list spline_point) (total_distance : R)
    (sf_index : nat) : list spline_point * R :=
  match sf_index with
  | O => (spline_points, total_distance)
  | S _ =>
      let before := take sf_index spline_points in
      let after := drop sf_index spline_points in
      recompute_dist (after ++ before)
  end.

Record placed := {
  pl_points : list spline_point;
  pl_total_distance : R;
  pl_scaling_factor : R;
  pl_sf_index : nat
}.

(** Scaling followed by the rotation to the start/finish point. *)
Definition scale_and_rotate (spline_points : list spline_point)
    (total_distance : R) (circuit_miles : option R) (unscaled_sf : xy)
  : result placed :=
  '(pts, total, scaling_factor) ← scale_track spline_points total_distance circuit_miles;
  let scaled_sf := {| px := px unscaled_sf * scaling_factor;
                      py := py unscaled_sf * scaling_factor |} in
  let sf_index := find_sf_index pts scaled_sf in
  let '(pts', total') := rotate_to_sf pts total sf_index in
  Ok {| pl_points := pts'; pl_total_distance := total';
        pl_scaling_factor := scaling_factor; pl_sf_index := sf_index |}.

(** *** Sector indices *)

(** [(inches if inches else 0) * 0.0254] *)
Definition sector_meters (inches : option R) : R :=
  default 0 inches * METERS_PER_INCH.

(** The first index, counted from [i], whose ['dist'] reaches [target];
    [-1] when the loop ends without a [break]. *)
Fixpoint first_reaching (target : R) (i : nat) (pts : list spline_point) : Z :=
  match pts with
  | [] => (-1)%Z
  | p :: pts' =>
      if bool_decide (dist p >= target) then Z.of_nat i
      else first_reaching target (S i) pts'
  end.

Definition sector_indices (spline_points : list spline_point)
    (sector1_inches sector2_inches : option R) : Z * Z :=
  let s1m := sector_meters sector1_inches in
  let s2m := sector_meters sector2_inches in
  let s1_idx :=
    if bool_decide (s1m > 0) then first_reaching s1m 0 spline_points else (-1)%Z in
  let s2_idx :=
    if bool_decide (s2m > 0) then first_reaching (s1m + s2m) 0 spline_points
    else (-1)%Z in
  (s1_idx, s2_idx).

(** *** The whole of [finalize_track] *)

Record pit_visual := {
  pvis_id : Z;
  pvis_width : R;
  pvis_points : list (R * R * R)      (* scaled x, scaled y, z *)
}.

(** The returned dictionary (the SVG path strings, colours and the node
    sample, which are display data, are left out; numbers that the code
    formats as strings are kept as numbers). *)
Record finalized := {
  splinePoints : list spline_point;
  sfMarker : option spline_point;
  totalLen : R;
  sectors : bool;
  scalingFactorApplied : R;
  s1EndIndex : Z;
  s2EndIndex : Z;
  s3EndIndex : Z;
  pitPaths : list pit_visual;
  out_center : geo
}.

Section Finalize.

(** [round(v, 6)] and scipy's
    [gaussian_filter1d(_, sigma=5.0, mode='wrap')], taken as given. *)
Variable round6 : R -> R.
Variable gaussian_filter1d : list R -> list R.

Definition node_key (p : geo) : R * R := (round6 (lat p), round6 (lon p)).

(** [unique_nodes]: the first node seen for each key, in insertion
    order. *)
Definition add_unique (acc : list (R * R * geo)) (p : geo) : list (R * R * geo) :=
  if bool_decide (node_key p ∈ acc.*1) then acc else acc ++ [(node_key p, p)].

Definition all_raw (segs : list segment) : list (loc * geo) :=
  concat (map seg_rawPoints segs).

Definition unique_nodes (segs : list segment) : list geo :=
  (foldl add_unique [] (all_raw segs).*2).*2.

(** [node_list[i:i+batch_size]] for [i = 0, batch_size, ...] *)
Fixpoint batches (fuel size : nat) (l : list geo) : list (list geo) :=
  match fuel, l with
  | S fuel', _ :: _ => take size l :: batches fuel' size (drop size l)
  | _, _ => []
  end.

Definition fetch_node_elevations (fetch : fetcher) (segs : list segment)
  : elevation_map :=
  let node_list := unique_nodes segs in
  foldl (fun acc batch => update_elevations acc (fetch batch))
        no_elevations
        (batches (length node_list) 200 node_list).

(** [node['z'] = node_elevations.get(node_key, 0)] for every raw point
    of every ordered segment. *)
Definition apply_node_elevations (node_elevations : elevation_map)
    (h : heap) (segs : list segment) : heap :=
  foldl (fun h r => write_raw_z h r.1 (default 0 (node_elevations (node_key r.2))))
        h (all_raw segs).

Definition elevate_track (fetch : option fetcher) (h : heap)
    (segs : list segment) : heap :=
  match fetch, segs with
  | Some f, _ :: _ => apply_node_elevations (fetch_node_elevations f segs) h segs
  | _, _ => h
  end.

(** The smoothing block: only for more than 10 points;
    [pt['z'] = smoothed_z[i]] (the filter returns an array as long as
    its input, so the index is always in range). *)
Definition smooth_elevation (spline_points : list spline_point)
  : list spline_point :=
  if (10 <? length spline_points)%nat then
    let smoothed_z := gaussian_filter1d (map z spline_points) in
    imap (fun i pt => set_z pt (default (z pt) (smoothed_z !! i))) spline_points
  else spline_points.

(** Elevation of one pit segment: one provider call with the segment's
    raw coordinates, then [pt['z'] = pit_elevations.get(key, 0)] for the
    points that have a raw point at the same index. *)
Definition elevate_pit_segment (f : fetcher) (h : heap) (seg : path) : heap :=
  let raws := omap (fun l => raw_geo <$> h_raw h !! l) (rawPoints seg) in
  let pit_elevations := f raws in
  foldl (fun h '(pt, rp) =>
           write_point_z h pt (default 0 (pit_elevations (node_key rp))))
        h (zip (points seg) raws).

Definition elevate_pits (fetch : option fetcher) (h : heap)
    (pit_segs : list path) : heap :=
  match fetch with
  | Some f => foldl (elevate_pit_segment f) h pit_segs
  | None => h
  end.

Definition pit_visual_of (h : heap) (scaling_factor : R) (seg : path)
  : pit_visual :=
  {| pvis_id := id seg;
     pvis_width := widthValue seg;
     pvis_points :=
       omap (fun l =>
               (fun q => (px (pt_xy q) * scaling_factor,
                          py (pt_xy q) * scaling_factor,
                          default 0 (pt_z q))) <$> h_points h !! l)
            (points seg) |}.

(** Everything after the segment chain is known. *)
Definition finish (h : heap) (td : track_data) (sf : geo)
    (ordered_segments : list segment)
    (sector1_inches sector2_inches : option R) (circuit_miles : option R)
    (fetch : option fetcher) : heap * result (option finalized) :=
  let pit_segs := filter (fun p => is_pit p = true) (paths td) in
  (* first resampling loop, before any elevation is written *)
  match resample h ordered_segments ([], 0) with
  | Raise e => (h, Raise e)
  | Ok _ =>
  let h1 := elevate_track fetch h ordered_segments in
  (* second resampling loop *)
  match resample h1 ordered_segments ([], 0) with
  | Raise e => (h1, Raise e)
  | Ok (spline_points, total_distance) =>
      let spline_points := smooth_elevation spline_points in
      let h2 := elevate_pits fetch h1 pit_segs in
      let '(h3, spline_points) := normalize_elevation h2 spline_points pit_segs in
      let unscaled_sf :=
        project_to_local_meters (lat sf) (lon sf)
                                (lat (center td)) (lon (center td)) in
      match scale_and_rotate spline_points total_distance circuit_miles
                             unscaled_sf with
      | Raise e => (h3, Raise e)
      | Ok pl =>
          let '(s1_idx, s2_idx) :=
            sector_indices (pl_points pl) sector1_inches sector2_inches in
          (h3,
           Ok (Some
             {| splinePoints := pl_points pl;
                sfMarker := head (pl_points pl);
                totalLen := pl_total_distance pl;
                sectors := bool_decide (s1_idx > 0)%Z;
                scalingFactorApplied := pl_scaling_factor pl;
                s1EndIndex := s1_idx;
                s2EndIndex := s2_idx;
                s3EndIndex := Z.of_nat (length (pl_points pl)) - 1;
                pitPaths := map (pit_visual_of h3 (pl_scaling_factor pl)) pit_segs;
                out_center := center td |}))
      end
  end
  end.

(** [finalize_track(track_data, sf_lat, sf_lon, sector1_inches,
    sector2_inches, sector3_inches, circuit_miles, fetcher)] as a
    transformation of the heap that holds the point dictionaries.
    [track_data] is [None] when the argument is falsy. *)
Definition finalize_track (h : heap) (track_data : option track_data)
    (sf_lat sf_lon : option R)
    (sector1_inches sector2_inches sector3_inches : option R)
    (circuit_miles : option R) (fetch : option fetcher)
  : heap * result (option finalized) :=
  match track_data with
  | None => (h, Ok None)
  | Some td =>
      match paths td with
      | [] => (h, Ok None)
      | _ :: _ =>
          match anchor h td sf_lat sf_lon with
          | Raise e => (h, Raise e)
          | Ok None => (h, Ok None)
          | Ok (Some sf) =>
              match stitch h td sf with
              | Raise e => (h, Raise e)
              | Ok None => (h, Ok None)
              | Ok (Some ordered_segments) =>
                  finish h td sf ordered_segments
                         sector1_inches sector2_inches circuit_miles fetch
              end
          end
      end
  end.

End Finalize.

End TrackProcessor.

(* ===================================================================== *)
(** ** Vocabulary of the properties *)
(* ===================================================================== *)

Module Spec.
Import Py.
Local Open Scope R_scope.

(** [link P values distance]: [P] relates every adjacent pair of points,
    given as value and cumulative distance at [i] and at [i+1]. *)
Fixpoint link (P : R -> R -> R -> R -> Prop) (values distance : list R) : Prop :=
  match values, distance with
  | v0 :: ((v1 :: _) as values'), d0 :: ((d1 :: _) as distance') =>
      P v0 d0 v1 d1 /\ link P values' distance'
  | _, _ => True
  end.

(** A sequence that never decreases. *)
Fixpoint ascending (l : list R) : Prop :=
  match l with
  | a :: ((b :: _) as l') => a <= b /\ ascending l'
  | _ => True
  end.

(** The forward (acceleration) and backward (braking) constraints on an
    adjacent pair. *)
Definition accel_ok (accel_g : R) (v0 d0 v1 d1 : R) : Prop :=
  v1 <= sqrt (v0 ^ 2 + 2 * accel_g * OptimalLine.g * (d1 - d0)).

Definition brake_ok (brake_g : R) (v0 d0 v1 d1 : R) : Prop :=
  v0 <= sqrt (v1 ^ 2 + 2 * brake_g * OptimalLine.g * (d1 - d0)).

(** A way with its ['highway'] tag erased. *)
Definition without_highway (w : TrackProcessor.way) : TrackProcessor.way :=
  {| TrackProcessor.way_id := TrackProcessor.way_id w;
     TrackProcessor.way_nodes := TrackProcessor.way_nodes w;
     TrackProcessor.way_tags :=
       delete "highway"%string <$> TrackProcessor.way_tags w |}.

(** [idx] is the first index of [pts] whose cumulative distance reaches
    [target]. *)
Definition first_at (target : R) (pts : list TrackProcessor.spline_point)
    (idx : Z) : Prop :=
  exists (k : nat) (p : TrackProcessor.spline_point),
    idx = Z.of_nat k
    /\ pts !! k = Some p
    /\ TrackProcessor.dist p >= target
    /\ forall (j : nat) (q : TrackProcessor.spline_point),
         (j < k)%nat -> pts !! j = Some q -> TrackProcessor.dist q < target.

(** The track length: the cumulative distance of the last point. *)
Definition length_of (pts : list TrackProcessor.spline_point) : R :=
  default 0 (TrackProcessor.dist <$> last pts).

(** What the resampling loop keeps true of its state
    [(spline_points, total_distance)]: the cumulative distances ascend
    and stay below the running total, and the last point sits at the
    running total. *)
Definition measured (st : list TrackProcessor.spline_point * R) : Prop :=
  ascending (map TrackProcessor.dist st.1)
  /\ Forall (fun v => v <= st.2) (map TrackProcessor.dist st.1)
  /\ 0 <= st.2
  /\ (st.1 = [] \/ length_of st.1 = st.2).

(** A pit point whose ['z'], if it has one, is lowered by [min_z]. *)
Definition lower_point (min_z : R) (q : TrackProcessor.point) : TrackProcessor.point :=
  {| TrackProcessor.pt_xy := TrackProcessor.pt_xy q;
     TrackProcessor.pt_z := (fun v => v - min_z) <$> TrackProcessor.pt_z q |}.

End Spec.

(* ===================================================================== *)
(** ** Concrete inputs for the examples *)
(* ===================================================================== *)

Module Examples.
Import Py.
Local Open Scope R_scope.

(** Stand-ins for scipy: a fit that always succeeds, one that only
    succeeds with smoothing, an evaluation that returns the parameter
    values themselves, and a filter that changes nothing. *)
Definition always_fits (xs ys : list R) (s : R) : option unit := Some tt.

Definition fits_when_smoothed (xs ys : list R) (s : R) : option unit :=
  if bool_decide (s = 0) then None else Some tt.

Definition diagonal_splev (u : list R) (t : unit) (der : nat) : list R * list R :=
  (u, u).

Definition no_filter (values : list R) (sigma : R) : list R := values.

(** A square centerline with 1 m sides. *)
Definition square : list (R * R) := [(0, 0); (1, 0); (1, 1); (0, 1)].

(** Map data: two nodes, a way tagged [highway=service] and a way tagged
    [highway=raceway] over them; no width tag is ever parsed. *)
Definition node1 : TrackProcessor.geo := {| TrackProcessor.lat := 0; TrackProcessor.lon := 0 |}.
Definition node2 : TrackProcessor.geo := {| TrackProcessor.lat := 0; TrackProcessor.lon := 1 / 1000 |}.

Definition service_way : TrackProcessor.way :=
  {| TrackProcessor.way_id := 10;
     TrackProcessor.way_nodes := Some [1; 2]%Z;
     TrackProcessor.way_tags := Some {[ "highway"%string := "service"%string ]} |}.

Definition raceway : TrackProcessor.way :=
  {| TrackProcessor.way_id := 11;
     TrackProcessor.way_nodes := Some [1; 2]%Z;
     TrackProcessor.way_tags := Some {[ "highway"%string := "raceway"%string ]} |}.

Definition service_only : list TrackProcessor.element :=
  [ TrackProcessor.ENode 1 node1; TrackProcessor.ENode 2 node2;
    TrackProcessor.EWay service_way ].

Definition raceway_and_service : list TrackProcessor.element :=
  [ TrackProcessor.ENode 1 node1; TrackProcessor.ENode 2 node2;
    TrackProcessor.EWay raceway; TrackProcessor.EWay service_way ].

Definition no_width (s : string) : option R := None.

(** Spline points on the x axis, at sea level. *)
Definition on_axis (xv dv : R) : TrackProcessor.spline_point :=
  {| TrackProcessor.x := xv; TrackProcessor.y := 0; TrackProcessor.z := 0;
     TrackProcessor.sp_lat := 0; TrackProcessor.sp_lon := 0;
     TrackProcessor.dist := dv; TrackProcessor.width := 12 |}.

(** A straight, open 2 m track sampled every metre. *)
Definition straight : list TrackProcessor.spline_point :=
  [on_axis 0 0; on_axis 1 1; on_axis 2 2].

(** The factor that scales the 2 m straight to one mile. *)
Definition half_mile : R := 1 * TrackProcessor.METERS_PER_MILE / 2.

(** Track data in a heap: a track path over the points 1 and 2 and a pit
    path over the point 3, none of them with an elevation yet. *)
Definition flat_point (xv yv : R) : TrackProcessor.point :=
  {| TrackProcessor.pt_xy := {| TrackProcessor.px := xv; TrackProcessor.py := yv |};
     TrackProcessor.pt_z := None |}.

Definition raw_of (p : TrackProcessor.geo) : TrackProcessor.raw_point :=
  {| TrackProcessor.raw_geo := p; TrackProcessor.raw_z := None |}.

Definition track_heap : TrackProcessor.heap :=
  {| TrackProcessor.h_points :=
       <[1%positive := flat_point 0 0]>
         (<[2%positive := flat_point 1 0]>
            (<[3%positive := flat_point 0 5]> ∅));
     TrackProcessor.h_raw :=
       <[1%positive := raw_of node1]>
         (<[2%positive := raw_of node2]>
            (<[3%positive := raw_of node1]> ∅)) |}.

Definition track_path : TrackProcessor.path :=
  {| TrackProcessor.id := 11;
     TrackProcessor.points := [1; 2]%positive;
     TrackProcessor.rawPoints := [1; 2]%positive;
     TrackProcessor.type := TrackProcessor.Track;
     TrackProcessor.widthValue := 12 |}.

Definition pit_path : TrackProcessor.path :=
  {| TrackProcessor.id := 10;
     TrackProcessor.points := [3]%positive;
     TrackProcessor.rawPoints := [3]%positive;
     TrackProcessor.type := TrackProcessor.Pit;
     TrackProcessor.widthValue := 5 |}.

Definition small_track : TrackProcessor.track_data :=
  {| TrackProcessor.paths := [track_path; pit_path];
     TrackProcessor.center := node1 |}.

(** The track path with its coordinates read out of the heap. *)
Definition track_segment : TrackProcessor.segment :=
  {| TrackProcessor.seg_points :=
       [ {| TrackProcessor.px := 0; TrackProcessor.py := 0 |};
         {| TrackProcessor.px := 1; TrackProcessor.py := 0 |} ];
     TrackProcessor.seg_rawPoints := [(1%positive, node1); (2%positive, node2)];
     TrackProcessor.seg_width := 12;
     TrackProcessor.seg_id := 11 |}.

(** The same heap after a survey gave the pit point an elevation of 3 m,
    and two spline points at 10 m and 12 m. *)
Definition surveyed_heap : TrackProcessor.heap :=
  TrackProcessor.write_point_z track_heap 3%positive 3.

Definition hill : list TrackProcessor.spline_point :=
  [ TrackProcessor.set_z (on_axis 0 0) 10; TrackProcessor.set_z (on_axis 1 1) 12 ].

(** An elevation provider that reports 7 m everywhere, a [round] that
    changes nothing and a smoothing filter that changes nothing. *)
Definition seven_metres : TrackProcessor.fetcher := fun locations key => Some 7.
Definition exact_round (v : R) : R := v.
Definition no_smoothing (values : list R) : list R := values.

(** An optimal-line object that shares its dictionaries with the caller:
    the centerline frame at 1, the vehicle at 2, the weather at 3. *)
Definition caller_heap : OptimalLine.heap :=
  <[1%positive := OptimalLine.OFrame
                    [ {| OptimalLine.row_x := 0; OptimalLine.row_y := 0;
                         OptimalLine.row_distance := 0 |} ]]>
    (<[2%positive := OptimalLine.ODict Grip.get_default_vehicle_config]>
       (<[3%positive := OptimalLine.ODict Grip.get_default_weather_config]> ∅)).

Definition line_object : OptimalLine.generator :=
  {| OptimalLine.centerline := 1%positive;
     OptimalLine.track_width := 10;
     OptimalLine.vehicle := 2%positive;
     OptimalLine.weather := 3%positive;
     OptimalLine.center_xy := [(0, 0)];
     OptimalLine.distance := [0];
     OptimalLine.track_length := 0;
     OptimalLine.effective_grip := 1.40%Q |}.

Definition heavy_rain : Grip.config := {[ "rainfall"%string := 15%Q ]}.

End Examples.

(* ===================================================================== *)
(** ** Map and elevation services: [TrackFetcher] *)
(* ===================================================================== *)

Module TrackFetcher.
Import Py TrackProcessor.
Local Open Scope R_scope.

(** [elevation_map[key] = v] *)
Definition set_elevation (m : elevation_map) (key : R * R) (v : R) : elevation_map :=
  fun k => if decide (k = key) then Some v else m k.

Section Elevation.

(** [round(v, 6)], and the elevation service: what the body of the [try]
    block gets for the posted coordinates.  [None] stands for any
    exception (request, status check or decoding); [Some None] for a
    reply without ['results']; otherwise the ['elevation'] entry of each
    result, [None] where a result has none. *)
Variable round6 : R -> R.
Variable post : list (R * R) -> option (option (list (option R))).

Definition fetch_elevation (locations : list geo) : elevation_map :=
  match locations with
  | [] => no_elevations
  | _ :: _ =>
      match post (map (fun loc => (lat loc, lon loc)) locations) with
      | Some data =>
          match data with
          | Some results =>
              foldl (fun m '(loc, result) =>
                       set_elevation m (node_key round6 loc) (default 0 result))
                    no_elevations (zip locations results)
          | None => no_elevations
          end
      | None =>
          foldl (fun m loc => set_elevation m (node_key round6 loc) 0)
                no_elevations locations
      end
  end.

End Elevation.

(** *** [_execute_query] *)

Definition overpass_urls : list string :=
  [ "https://overpass-api.de/api/interpreter";
    "https://overpass.kumi.systems/api/interpreter" ]%string.

(** What one request can do: a decoded reply ([None] when the reply is
    falsy or has no ['elements'], else its element list), a
    [requests.exceptions.Timeout], or any other exception. *)
Inductive outcome :=
  | Replied (elements : option (list element))
  | TimedOut
  | Failed.

(** What the function does to the outside world, in order. *)
Inductive event :=
  | Request (url : string)
  | Sleep.

(** The URLs requested, in order, and how often the call slept. *)
Definition request_urls (log : list event) : list string :=
  omap (fun e => match e with Request url => Some url | Sleep => None end) log.

Definition requests_in (log : list event) : nat := length (request_urls log).

(** How many of the requests went to [url]. *)
Definition requests_to (url : string) (log : list event) : nat :=
  length (filter (fun u => u = url) (request_urls log)).

Definition sleeps_in (log : list event) : nat :=
  length (omap (fun e => match e with Sleep => Some tt | Request _ => None end) log).

(** A reply that the call returns: one with a non-empty ['elements']. *)
Definition usable (o : outcome) : Prop :=
  exists e els, o = Replied (Some (e :: els)).

Section Query.

(** The Overpass mirrors: the outcome of the [n]-th request of this call
    (counted from 0) when it is sent to [url] with the query. *)
Variable query : Type.
Variable server : query -> nat -> string -> outcome.

(** The inner loop [for attempt in range(max_retries)] with [remaining]
    iterations to go.  [Some data] is [return data]; [None] is the end of
    the loop or [break]. *)
Fixpoint try_url (q : query) (url : string) (max_retries remaining : nat)
    (log : list event) : list event * option (list element) :=
  match remaining with
  | O => (log, None)
  | S remaining' =>
      let attempt := (max_retries - remaining)%nat in
      let log1 := log ++ [Request url] in
      match server q (requests_in log) url with
      | Replied (Some (e :: els)) => (log1, Some (e :: els))
      | Replied _ => try_url q url max_retries remaining' log1
      | TimedOut =>
          try_url q url max_retries remaining'
                  (if (attempt <? max_retries - 1)%nat then log1 ++ [Sleep] else log1)
      | Failed => (log1, None)
      end
  end.

Fixpoint query_from (q : query) (urls : list string) (max_retries : nat)
    (log : list event) : list event * option (list element) :=
  match urls with
  | [] => (log, None)
  | url :: urls' =>
      match try_url q url max_retries max_retries log with
      | (log', Some data) => (log', Some data)
      | (log', None) => query_from q urls' max_retries log'
      end
  end.

(** [_execute_query(query, max_retries)]: the events it causes and the
    data it returns ([None] for [return None]). *)
Definition execute_query (q : query) (max_retries : nat)
  : list event * option (list element) :=
  query_from q overpass_urls max_retries [].

(** No request recorded in [log] got a usable reply. *)
Definition fruitless (q : query) (log : list event) : Prop :=
  forall i url, request_urls log !! i = Some url -> ~ usable (server q i url).

End Query.

End TrackFetcher.

Module Conditions.
Import Py.

(** The vehicle limits that enter a square root are not negative, so
    that no speed is undefined. *)
Definition physical (vehicle : Grip.config) (effective_grip : Q) : Prop :=
  (0 <= effective_grip)%Q
  /\ forall key v,
       key ∈ [ "corner_speed_factor"; "top_speed_ms";
               "max_accel_g"; "max_brake_g" ]%string ->
       vehicle !! key = Some v -> (0 <= v)%Q.

(** scipy returns arrays as long as the parameter array it is given. *)
Definition length_preserving {tck : Type}
    (splev : list R -> tck -> nat -> list R * list R)
    (gaussian_filter1d : list R -> R -> list R) : Prop :=
  (forall u t der, length (splev u t der).1 = length u
                   /\ length (splev u t der).2 = length u)
  /\ forall values sigma, length (gaussian_filter1d values sigma) = length values.

End Conditions.

Module Geometry.
Import Py TrackProcessor.
Local Open Scope R_scope.

(** The distance that the pit-lane search measures for a way: from the
    anchor to the way's first node, when the way has one that is known. *)
Definition anchor_distance (nodes : gmap Z geo) (pit_anchor : geo) (w : way)
  : option R :=
  match way_nodes w with
  | Some (n0 :: _) =>
      (fun first_node =>
         sqrt (((lat pit_anchor - lat first_node) * 111000) ^ 2
               + ((lon pit_anchor - lon first_node) * 111000) ^ 2))
      <$> nodes !! n0
  | _ => None
  end.

(** A projected point lies inside the bounds. *)
Definition inside (b : bounds) (m : xy) : Prop :=
  exists x0 x1 y0 y1,
    minX b = Some x0 /\ maxX b = Some x1 /\ minY b = Some y0 /\ maxY b = Some y1
    /\ x0 <= px m <= x1 /\ y0 <= py m <= y1.

(** The state of the search: either nothing was found yet, or the
    running minimum belongs to a way seen so far and is a lower bound on
    all of them. *)
Definition pit_invariant (nodes : gmap Z geo) (a : geo) (seen : list way)
    (st : option R * option Z) : Prop :=
  match st with
  | (None, pid) =>
      pid = None /\ forall w, w ∈ seen -> anchor_distance nodes a w = None
  | (Some d, pid) =>
      (exists w, w ∈ seen /\ pid = Some (way_id w)
                 /\ anchor_distance nodes a w = Some d)
      /\ forall w d', w ∈ seen -> anchor_distance nodes a w = Some d' -> d <= d'
  end.

End Geometry.

Module Survey.
Import Py TrackProcessor.
Local Open Scope R_scope.

(** [P] relates every two consecutive points. *)
Fixpoint chained (P : spline_point -> spline_point -> Prop)
    (pts : list spline_point) : Prop :=
  match pts with
  | a :: ((b :: _) as rest) => P a b /\ chained P rest
  | _ => True
  end.

(** From [a] to [b] the cumulative distance grows by the length of the
    straight line between them. *)
Definition arc_step (a b : spline_point) : Prop :=
  dist b = dist a + get_distance_meters (sp_xy a) (sp_xy b).

(** [a] and [b] are at most one metre apart. *)
Definition fine_step (a b : spline_point) : Prop :=
  get_distance_meters (sp_xy a) (sp_xy b) <= 1.

(** What the resampling loop keeps true of its state
    [(spline_points, total_distance)], beyond [Spec.measured]: the total
    is 0 before the first point, the first point sits at 0, the last at
    the running total, and consecutive points are at most one metre apart
    with ['dist'] growing by their distance. *)
Definition plotted (st : list spline_point * R) : Prop :=
  (st.1 = [] -> st.2 = 0)
  /\ (forall p, last st.1 = Some p -> dist p = st.2)
  /\ (forall p, head st.1 = Some p -> dist p = 0)
  /\ chained arc_step st.1
  /\ chained fine_step st.1.

(** The cumulative distances measure the polyline: the first point sits
    at 0 and ['dist'] grows from point to point by their distance. *)
Definition arc_measured (pts : list spline_point) : Prop :=
  (forall p, head pts = Some p -> dist p = 0) /\ chained arc_step pts.

End Survey.

Module Placement.
Import Py TrackProcessor.
Local Open Scope R_scope.

(** The state [(min_sf_dist, sf_index)] of the start/finish search after
    the points [seen]: nothing seen yet, or the index of the first point
    of [seen] that is nearest [sf]. *)
Definition nearest_so_far (sf : xy) (seen : list spline_point)
    (st : option R * nat) : Prop :=
  match st.1 with
  | None => seen = []
  | Some m =>
      exists p,
        seen !! st.2 = Some p
        /\ get_distance_meters (sp_xy p) sf = m
        /\ (forall j q, seen !! j = Some q -> m <= get_distance_meters (sp_xy q) sf)
        /\ (forall j q, (j < st.2)%nat -> seen !! j = Some q ->
              m < get_distance_meters (sp_xy q) sf)
  end.

End Placement.

Module Flat.
Import Py TrackProcessor.
Local Open Scope R_scope.

(** No point dictionary of the heap stores an elevation other than 0
    (as after [process_osm_data], which stores none). *)
Definition level (h : heap) : Prop :=
  (forall l q, h_points h !! l = Some q -> default 0 (pt_z q) = 0)
  /\ (forall l q, h_raw h !! l = Some q -> default 0 (raw_z q) = 0).

(** The smoothing filter returns zeros for zeros. *)
Definition keeps_zero (smooth : list R -> list R) : Prop :=
  forall n, smooth (repeat 0 n) = repeat 0 n.

(** Every spline point and every pit point of the result has ['z'] 0. *)
Definition flat_track (out : finalized) : Prop :=
  Forall (fun p => z p = 0) (splinePoints out)
  /\ Forall (fun pv => Forall (fun t : R * R * R => t.2 = 0) (pvis_points pv))
            (pitPaths out).

End Flat.

(** ** Further example data *)

Module MoreExamples.
Import TrackProcessor TrackFetcher.

(** The default weather with a 30 m/s wind. *)
Definition windy : Grip.config :=
  <["wind_speed"%string := 30%Q]> Grip.get_default_weather_config.

(** A cold, wet day. *)
Definition cold_rain : Grip.config := Grip.weather_with 5 15.

(** A way element without the ['nodes'] key, alone and after the raceway. *)
Definition broken_way : way :=
  {| way_id := 12; way_nodes := None; way_tags := None |}.

Definition with_broken_way : list element :=
  [ ENode 1 Examples.node1; ENode 2 Examples.node2;
    EWay Examples.raceway; EWay broken_way ].

(** Track data that only has a pit path. *)
Definition pit_only : track_data :=
  {| paths := [Examples.pit_path]; center := Examples.node1 |}.

(** An elevation service that cannot be reached, and one that answers
    12 m for the first location and gives no ['elevation'] for the
    second. *)
Definition unreachable (coords : list (R * R))
  : option (option (list (option R))) := None.

Definition answering (coords : list (R * R))
  : option (option (list (option R))) := Some (Some [Some 12%R; None]).

(** Overpass mirrors that always time out, that always fail otherwise,
    and that answer the second request with the example map data. *)
Definition always_timeout (q : unit) (n : nat) (url : string) : outcome := TimedOut.

Definition always_failing (q : unit) (n : nat) (url : string) : outcome := Failed.

Definition first_mirror : string := "https://overpass-api.de/api/interpreter".
Definition second_mirror : string := "https://overpass.kumi.systems/api/interpreter".

Definition second_time_lucky (q : unit) (n : nat) (url : string) : outcome :=
  match n with
  | 1%nat => Replied (Some Examples.service_only)
  | _ => TimedOut
  end.

End MoreExamples.

(* ===================================================================== *)
(** * Properties *)
(* ===================================================================== *)

(** ** Grip model *)

Module GripProps.
Import Py Grip.
Local Open Scope Q_scope.

(** [lra] does not divide: turn the divisions by constants of the grip
    model into multiplications. *)
Ltac qconst :=
  unfold Qdiv in *;
  change (/ 100.0) with (10 # 1000) in *;
  change (/ 100) with (1 # 100) in *.

Lemma temp_factor_spec (track_temp optimal_temp : Q) :
  temp_factor track_temp optimal_temp == spec_temp_factor track_temp optimal_temp.
Proof.
  unfold temp_factor, spec_temp_factor, spec_clamp, qmax, qmin.
  set (d := Qabs (track_temp - optimal_temp)).
  repeat destruct Qlt_le_dec; qconst; lra.
Qed.

Lemma temp_factor_bounds (track_temp optimal_temp : Q) :
  0.4 <= temp_factor track_temp optimal_temp <= 1.
Proof.
  unfold temp_factor, qmax, qmin.
  repeat destruct Qlt_le_dec; qconst; lra.
Qed.

(** The factor only depends on, and decreases with, the distance of the
    track temperature from the optimum. *)
Lemma temp_factor_antitone (t1 t2 optimal_temp : Q) :
  Qabs (t1 - optimal_temp) <= Qabs (t2 - optimal_temp) ->
  temp_factor t2 optimal_temp <= temp_factor t1 optimal_temp.
Proof.
  unfold temp_factor, qmax, qmin.
  set (d1 := Qabs (t1 - optimal_temp)). set (d2 := Qabs (t2 - optimal_temp)).
  intros Hd.
  repeat destruct Qlt_le_dec; qconst; lra.
Qed.

Lemma temp_factor_at_optimum (t optimal_temp : Q) :
  t == optimal_temp -> temp_factor t optimal_temp == 1.
Proof.
  intros Ht. unfold temp_factor, qmax, qmin.
  assert (E : Qabs (t - optimal_temp) == 0).
  { assert (E0 : t - optimal_temp == 0) by lra. rewrite E0. reflexivity. }
  repeat destruct Qlt_le_dec; qconst; rewrite ?E in *; lra.
Qed.

Lemma calculate_tire_grip_unfold (vehicle weather : config) (dry track_temp : Q) :
  vehicle !! "tire_friction_dry"%string = Some dry ->
  weather !! "track_temp"%string = Some track_temp ->
  calculate_tire_grip vehicle weather
  = Ok ((if Qlt_le_dec 10.0 (get weather "rainfall" 0)
         then get vehicle "tire_friction_wet" 0.70
         else if Qlt_le_dec 2.0 (get weather "rainfall" 0)
         then get vehicle "tire_friction_intermediate" 1.00
         else if Qlt_le_dec 0.1 (get weather "rainfall" 0)
         then dry * 0.85 else dry)
        * temp_factor track_temp (get vehicle "optimal_tire_temp" 85)).
Proof.
  intros Hd Ht. unfold calculate_tire_grip, getitem.
  rewrite Hd, Ht. reflexivity.
Qed.

(** C3.  The grip the code computes is the specification's
    [selectedFriction * tempFactor], with [tempFactor] the clamp of
    [1 - |trackTemp - optimalTemp| / 100 * 0.3] to [0.4, 1.0] and the
    friction selected by the rainfall bands [> 10], [> 2], [> 0.1]; and
    with rainfall 15, dry friction 1.40, wet friction 0.70 and the track
    at the optimal temperature the grip is 0.70. *)
Theorem effective_grip_is_friction_times_temp_factor
    (vehicle weather : config) (dry track_temp : Q) :
  vehicle !! "tire_friction_dry"%string = Some dry ->
  weather !! "track_temp"%string = Some track_temp ->
  exists grip,
    calculate_tire_grip vehicle weather = Ok grip
    /\ grip == spec_effective_grip dry
                 (get vehicle "tire_friction_wet" 0.70)
                 (get vehicle "tire_friction_intermediate" 1.00)
                 (get vehicle "optimal_tire_temp" 85)
                 track_temp
                 (get weather "rainfall" 0)
    /\ (dry == 1.40 ->
        get vehicle "tire_friction_wet" 0.70 == 0.70 ->
        get weather "rainfall" 0 == 15 ->
        track_temp == get vehicle "optimal_tire_temp" 85 ->
        grip == 0.70).
Proof.
  intros Hd Ht. eexists. split; [apply (calculate_tire_grip_unfold _ _ _ _ Hd Ht)|].
  split.
  - unfold spec_effective_grip, spec_selected_friction.
    rewrite temp_factor_spec.
    repeat destruct Qlt_le_dec; try reflexivity; lra.
  - intros _ Hwet Hrain Htemp.
    rewrite (temp_factor_at_optimum _ _ Htemp).
    destruct Qlt_le_dec as [_ | Hle]; [lra | rewrite Hrain in Hle; lra].
Qed.

Lemma effective_grip_is_friction_times_temp_factor_witness :
  exists grip,
    calculate_tire_grip get_default_vehicle_config (weather_with 85 15) = Ok grip
    /\ grip == 0.70.
Proof.
  destruct (effective_grip_is_friction_times_temp_factor
              get_default_vehicle_config (weather_with 85 15) 1.40 85
              eq_refl eq_refl) as (grip & Hrun & _ & Hd).
  exists grip. split; [exact Hrun|].
  apply Hd; reflexivity.
Defined.

(** The grip of the default car in closed form. *)
Lemma default_vehicle_grip (track_temp rainfall : Q) :
  calculate_tire_grip get_default_vehicle_config (weather_with track_temp rainfall)
  = Ok ((if Qlt_le_dec 10.0 rainfall then 0.70
         else if Qlt_le_dec 2.0 rainfall then 1.00
         else if Qlt_le_dec 0.1 rainfall then 1.40 * 0.85 else 1.40)
        * temp_factor track_temp 85).
Proof.
  assert (Hr : get (weather_with track_temp rainfall) "rainfall" 0 = rainfall).
  { unfold get, weather_with. rewrite lookup_insert_eq. reflexivity. }
  assert (Ht : weather_with track_temp rainfall !! "track_temp"%string
               = Some track_temp).
  { unfold weather_with.
    rewrite lookup_insert_ne by discriminate. apply lookup_insert_eq. }
  assert (Hd : get_default_vehicle_config !! "tire_friction_dry"%string = Some 1.40)
    by reflexivity.
  rewrite (calculate_tire_grip_unfold _ _ 1.40 track_temp Hd Ht), Hr.
  reflexivity.
Qed.

(** C4.  For the default car at a fixed track temperature the grip
    strictly decreases from the dry band (rainfall at most 0.1) to the
    damp band (at most 2), the intermediate band (at most 10) and the wet
    band (above 10, such as 15 mm/hr); and at a fixed rainfall a track
    temperature farther from the optimum (85) never gives more grip. *)
Theorem grip_monotone
    (track_temp r_dry r_damp r_int r_wet rainfall t1 t2 : Q) :
  0 <= r_dry <= 0.1 ->
  0.1 < r_damp <= 2 ->
  2 < r_int <= 10 ->
  10 < r_wet <= 15 ->
  Qabs (t1 - 85) <= Qabs (t2 - 85) ->
  (exists g_dry g_damp g_int g_wet,
     calculate_tire_grip get_default_vehicle_config
                         (weather_with track_temp r_dry) = Ok g_dry
     /\ calculate_tire_grip get_default_vehicle_config
                            (weather_with track_temp r_damp) = Ok g_damp
     /\ calculate_tire_grip get_default_vehicle_config
                            (weather_with track_temp r_int) = Ok g_int
     /\ calculate_tire_grip get_default_vehicle_config
                            (weather_with track_temp r_wet) = Ok g_wet
     /\ g_wet < g_int /\ g_int < g_damp /\ g_damp < g_dry)
  /\ (exists g1 g2,
        calculate_tire_grip get_default_vehicle_config
                            (weather_with t1 rainfall) = Ok g1
        /\ calculate_tire_grip get_default_vehicle_config
                               (weather_with t2 rainfall) = Ok g2
        /\ g2 <= g1).
Proof.
  intros Hdry Hdamp Hint Hwet Htemp. split.
  - do 4 eexists. rewrite !default_vehicle_grip.
    repeat (split; [reflexivity|]).
    pose proof (temp_factor_bounds track_temp 85) as Hb.
    set (f := temp_factor track_temp 85) in *.
    repeat destruct Qlt_le_dec; try lra; nra.
  - do 2 eexists. rewrite !default_vehicle_grip.
    repeat (split; [reflexivity|]).
    pose proof (temp_factor_antitone t1 t2 85 Htemp) as Hm.
    set (f1 := temp_factor t1 85) in *. set (f2 := temp_factor t2 85) in *.
    repeat destruct Qlt_le_dec; nra.
Qed.

Lemma grip_monotone_witness :
  exists g_dry g_damp g_int g_wet,
    calculate_tire_grip get_default_vehicle_config (weather_with 85 0) = Ok g_dry
    /\ calculate_tire_grip get_default_vehicle_config (weather_with 85 1) = Ok g_damp
    /\ calculate_tire_grip get_default_vehicle_config (weather_with 85 5) = Ok g_int
    /\ calculate_tire_grip get_default_vehicle_config (weather_with 85 15) = Ok g_wet
    /\ g_wet < g_int /\ g_int < g_damp /\ g_damp < g_dry.
Proof.
  refine (proj1 (grip_monotone 85 0 1 5 15 0 85 100 _ _ _ _ _)).
  all: try (split; [vm_compute | vm_compute]; congruence).
  vm_compute; congruence.
Defined.

End GripProps.

(** ** The speed solver *)

Module OptimalLineProps.
Import Py OptimalLine Spec.
Local Open Scope R_scope.

(** Arithmetic over the reals in this module. *)
Ltac lra := Lra.lra.
Ltac nra := Lra.nra.

Lemma rmin_le_l (a b : R) : rmin a b <= a.
Proof. unfold rmin. destruct (Rlt_dec b a); lra. Qed.

Lemma rmin_le_r (a b : R) : rmin a b <= b.
Proof. unfold rmin. destruct (Rlt_dec b a); lra. Qed.

Lemma rmin_cases (a b : R) : rmin a b = a \/ (rmin a b = b /\ b < a).
Proof. unfold rmin. destruct (Rlt_dec b a); auto. Qed.

Lemma g_pos : 0 < g.
Proof. unfold g. lra. Qed.

Lemma link_lookup (P : R -> R -> R -> R -> Prop) (values distance : list R)
    (i : nat) (v0 v1 d0 d1 : R) :
  link P values distance ->
  values !! i = Some v0 -> values !! S i = Some v1 ->
  distance !! i = Some d0 -> distance !! S i = Some d1 ->
  P v0 d0 v1 d1.
Proof.
  revert values distance.
  induction i as [|i IH]; intros [|a [|b values]] [|c [|e distance]];
    simpl; intros HL H0 H1 H2 H3; try discriminate.
  - injection H0 as <-. injection H1 as <-. injection H2 as <-. injection H3 as <-.
    tauto.
  - destruct HL as [_ HL]. exact (IH (b :: values) (e :: distance) HL H0 H1 H2 H3).
Qed.

Lemma ascending_lookup (l : list R) (i : nat) (a b : R) :
  ascending l -> l !! i = Some a -> l !! S i = Some b -> a <= b.
Proof.
  revert l. induction i as [|i IH]; intros [|u [|v l]]; simpl;
    intros HA H0 H1; try discriminate.
  - injection H0 as <-. injection H1 as <-. tauto.
  - destruct HA as [_ HA]. exact (IH (v :: l) HA H0 H1).
Qed.

(** The distance array never decreases. *)
Lemma distance_from_ascending (pts : list (R * R)) (prev : R * R) (acc : R) :
  ascending (acc :: distance_from prev acc pts).
Proof.
  revert prev acc. induction pts as [|p pts IH]; intros prev acc; simpl; [exact I|].
  split; [|apply IH].
  match goal with |- _ <= _ + sqrt ?t => pose proof (sqrt_pos t) end. lra.
Qed.

Lemma distance_array_ascending (pts : list (R * R)) :
  ascending (distance_array pts).
Proof.
  destruct pts as [|p0 pts]; simpl; [exact I|].
  apply (distance_from_ascending pts p0 0).
Qed.

(** *** Forward pass *)

Lemma forward_from_accel_ok (accel_g : R) (vs ds : list R) (pv pd : R) :
  link (accel_ok accel_g) (pv :: forward_from accel_g pv pd vs ds) (pd :: ds).
Proof.
  revert ds pv pd. induction vs as [|v vs IH]; intros [|d ds] pv pd; simpl; auto.
  split; [|apply IH]. unfold accel_ok. apply rmin_le_r.
Qed.

Lemma forward_pass_accel_ok (accel_g : R) (max_speed_lateral distance : list R) :
  link (accel_ok accel_g) (forward_pass accel_g max_speed_lateral distance) distance.
Proof.
  destruct max_speed_lateral as [|v0 vs], distance as [|d0 ds]; simpl; auto.
  apply forward_from_accel_ok.
Qed.

Lemma forward_from_bounded (accel_g top : R) (vs ds : list R) (pv pd : R) :
  Forall (fun v => v <= top) vs ->
  Forall (fun v => v <= top) (forward_from accel_g pv pd vs ds).
Proof.
  intros H. revert ds pv pd.
  induction H as [|v vs Hv _ IH]; intros [|d ds] pv pd; simpl; auto.
  constructor; [|apply IH].
  eapply Rle_trans; [apply rmin_le_l | exact Hv].
Qed.

Lemma forward_pass_bounded (accel_g top : R) (max_speed_lateral distance : list R) :
  Forall (fun v => v <= top) max_speed_lateral ->
  Forall (fun v => v <= top) (forward_pass accel_g max_speed_lateral distance).
Proof.
  intros H. destruct H as [|v0 vs H0 H], distance as [|d0 ds]; simpl; auto.
  constructor; [exact H0 | by apply forward_from_bounded].
Qed.

(** *** Backward pass *)

Lemma backward_pass_cons (brake_g s d : R) (speeds distance : list R) :
  backward_pass brake_g (s :: speeds) (d :: distance)
  = match backward_pass brake_g speeds distance, distance with
    | s1 :: rest, d1 :: _ =>
        rmin s (sqrt (s1 ^ 2 + 2 * brake_g * g * (d1 - d))) :: s1 :: rest
    | _, _ => [s]
    end.
Proof. reflexivity. Qed.

(** The backward pass only lowers speeds. *)
Lemma backward_pass_lowers (brake_g : R) (speeds distance : list R) (i : nat) (v : R) :
  backward_pass brake_g speeds distance !! i = Some v ->
  exists s, speeds !! i = Some s /\ v <= s.
Proof.
  revert distance i v.
  induction speeds as [|s speeds IH]; intros [|d distance] i v; try discriminate.
  rewrite backward_pass_cons.
  destruct (backward_pass brake_g speeds distance) as [|s1 rest] eqn:E.
  - destruct i; [|discriminate]. simpl. intros [= <-]. exists s. split; [done | lra].
  - destruct distance as [|d1 distance].
    + destruct i; [|discriminate]. simpl. intros [= <-]. exists s. split; [done | lra].
    + destruct i as [|i]; simpl.
      * intros [= <-]. exists s. split; [done | apply rmin_le_l].
      * intros Hi. apply (IH (d1 :: distance) i v). rewrite E. exact Hi.
Qed.

Lemma backward_pass_bounded (brake_g top : R) (speeds distance : list R) :
  Forall (fun v => v <= top) speeds ->
  Forall (fun v => v <= top) (backward_pass brake_g speeds distance).
Proof.
  intros H. apply Forall_lookup. intros i v Hv.
  destruct (backward_pass_lowers _ _ _ _ _ Hv) as (s & Hs & Hle).
  pose proof (proj1 (Forall_lookup _ _) H i s Hs) as Hb. simpl in Hb. lra.
Qed.

Lemma backward_pass_brake_ok (brake_g : R) (speeds distance : list R) :
  link (brake_ok brake_g) (backward_pass brake_g speeds distance) distance.
Proof.
  revert distance.
  induction speeds as [|s speeds IH]; intros [|d distance]; try exact I.
  rewrite backward_pass_cons. specialize (IH distance).
  destruct (backward_pass brake_g speeds distance) as [|s1 rest]; [exact I|].
  destruct distance as [|d1 distance]; [exact I|].
  split; [|exact IH]. unfold brake_ok. apply rmin_le_r.
Qed.

(** Braking to a speed and accelerating again over the same stretch gets
    back at least to that speed. *)
Lemma brake_then_accel (accel_g brake_g s1 ds : R) :
  0 <= accel_g -> 0 <= brake_g -> 0 <= ds ->
  s1 <= sqrt (sqrt (s1 ^ 2 + 2 * brake_g * g * ds) ^ 2 + 2 * accel_g * g * ds).
Proof.
  intros Ha Hb Hd. pose proof g_pos as Hg.
  assert (0 <= 2 * brake_g * g * ds) by (apply Rmult_le_pos; nra).
  assert (0 <= 2 * accel_g * g * ds) by (apply Rmult_le_pos; nra).
  assert (0 <= s1 ^ 2) by nra.
  rewrite pow2_sqrt by lra.
  destruct (Rle_dec s1 0) as [Hneg | Hpos].
  - eapply Rle_trans; [exact Hneg | apply sqrt_pos].
  - rewrite <- (sqrt_pow2 s1) at 1 by lra.
    apply sqrt_le_1_alt. lra.
Qed.

(** Lowering speeds in the backward pass keeps the acceleration
    constraint that the forward pass established. *)
Lemma backward_pass_accel_ok (accel_g brake_g : R) (speeds distance : list R) :
  0 <= accel_g -> 0 <= brake_g ->
  ascending distance ->
  link (accel_ok accel_g) speeds distance ->
  link (accel_ok accel_g) (backward_pass brake_g speeds distance) distance.
Proof.
  intros Ha Hb. revert distance.
  induction speeds as [|s speeds IH]; intros [|d distance] Hasc Hlink; try exact I.
  rewrite backward_pass_cons.
  destruct (backward_pass brake_g speeds distance) as [|s1' rest] eqn:E; [exact I|].
  destruct distance as [|d1 distance]; [exact I|].
  destruct (backward_pass_lowers brake_g speeds (d1 :: distance) 0 s1')
    as (s1 & Hs1 & Hle); [by rewrite E|].
  destruct speeds as [|s1_ speeds]; [discriminate|].
  simpl in Hs1. injection Hs1 as ->.
  destruct Hlink as [Hacc Hlink]. destruct Hasc as [Hd Hasc].
  split.
  - unfold accel_ok in *.
    destruct (rmin_cases s (sqrt (s1' ^ 2 + 2 * brake_g * g * (d1 - d))))
      as [-> | [-> _]].
    + lra.
    + apply brake_then_accel; lra.
  - rewrite <- E. apply IH; assumption.
Qed.

(** The two passes together. *)
Lemma two_pass_feasible (accel_g brake_g : R) (max_speed_lateral distance : list R) :
  0 <= accel_g -> 0 <= brake_g -> ascending distance ->
  let speeds :=
    backward_pass brake_g (forward_pass accel_g max_speed_lateral distance) distance in
  link (accel_ok accel_g) speeds distance /\ link (brake_ok brake_g) speeds distance.
Proof.
  intros Ha Hb Hasc. split.
  - apply backward_pass_accel_ok; auto. apply forward_pass_accel_ok.
  - apply backward_pass_brake_ok.
Qed.

(** *** The generator *)

Lemma tbind_lift_ok {A B} (a : A) (k : A -> traced B) : tbind (lift (Ok a)) k = k a.
Proof. unfold tbind, lift. destruct (k a). reflexivity. Qed.

Section GeneratorProps.

Variable tck : Type.
Variable splprep : list R -> list R -> R -> option tck.
Variable splev : list R -> tck -> nat -> list R * list R.
Variable gaussian_filter1d : list R -> R -> list R.

Let generate := generate_optimal_line tck splprep splev gaussian_filter1d.

(** What a returned line is made of: the speeds are the two passes run on
    a lateral limit that is capped at the top speed, over the distance
    array of the resampled centerline. *)
Lemma generate_returns (center : list (R * R)) (track_width : R)
    (vehicle : Grip.config) (effective_grip : Q) (n_points : nat)
    (log : list fit_call) (out : optimal_line) :
  generate center track_width vehicle effective_grip n_points = (log, Ok out) ->
  exists (pts : list (R * R)) (limit : list R) (accel brake top : Q),
    vehicle !! "max_accel_g"%string = Some accel
    /\ vehicle !! "max_brake_g"%string = Some brake
    /\ vehicle !! "top_speed_ms"%string = Some top
    /\ ol_distance out = distance_array pts
    /\ Forall (fun v => v <= Q2R top) limit
    /\ ol_speed out
       = backward_pass (Q2R brake)
           (forward_pass (Q2R accel) limit (distance_array pts))
           (distance_array pts).
Proof.
  unfold generate, generate_optimal_line, tbind, lift.
  destruct (clean_points center) as [cleaned|]; [|discriminate].
  destruct (length cleaned <? 4)%nat; [discriminate|].
  destruct (fit_centerline tck splprep cleaned) as [log0 [t|]]; [|discriminate].
  unfold line_from_fit, tbind, lift, Grip.getitem.
  destruct (vehicle !! "tire_friction_dry"%string) as [dry|]; [|discriminate].
  match goal with
  | |- context [call_splprep _ _ ?xs ?ys ?s] =>
      destruct (call_splprep tck splprep xs ys s) as [log1 [race_tck|]]; [|discriminate]
  end.
  destruct (vehicle !! "corner_speed_factor"%string) as [factor|]; [|discriminate].
  destruct (vehicle !! "top_speed_ms"%string) as [top|] eqn:Htop; [|discriminate].
  match goal with
  | |- context [match ?l with [] => _ | _ :: _ => _ end] =>
      set (limit := l); assert (Hlim : Forall (fun v => v <= Q2R top) limit)
  end.
  { subst limit. apply Forall_map, Forall_true. intros k. simpl. apply Rmin_r. }
  destruct limit as [|v0 limit]; [discriminate|].
  destruct (vehicle !! "max_accel_g"%string) as [accel|]; [|discriminate].
  destruct (vehicle !! "max_brake_g"%string) as [brake|]; [|discriminate].
  intros [= _ <-]. simpl.
  eexists _, (v0 :: limit), accel, brake, top.
  repeat split; auto.
Qed.

(** C1.  In a returned line every adjacent pair of points satisfies both
    the acceleration constraint
    [speed[i+1] <= sqrt(speed[i]^2 + 2*maxAccelG*g*dd)] and the braking
    constraint [speed[i] <= sqrt(speed[i+1]^2 + 2*maxBrakeG*g*dd)], with
    [dd = distance[i+1] - distance[i]] (for g-limits that are not
    negative). *)
Theorem speed_profile_feasible (center : list (R * R)) (track_width : R)
    (vehicle : Grip.config) (effective_grip : Q) (n_points : nat)
    (log : list fit_call) (out : optimal_line) (accel brake : Q)
    (i : nat) (v0 v1 d0 d1 : R) :
  generate center track_width vehicle effective_grip n_points = (log, Ok out) ->
  vehicle !! "max_accel_g"%string = Some accel ->
  vehicle !! "max_brake_g"%string = Some brake ->
  (0 <= accel)%Q -> (0 <= brake)%Q ->
  ol_speed out !! i = Some v0 -> ol_speed out !! S i = Some v1 ->
  ol_distance out !! i = Some d0 -> ol_distance out !! S i = Some d1 ->
  v1 <= sqrt (v0 ^ 2 + 2 * Q2R accel * g * (d1 - d0))
  /\ v0 <= sqrt (v1 ^ 2 + 2 * Q2R brake * g * (d1 - d0)).
Proof.
  intros Hrun Ha Hb Hna Hnb Hv0 Hv1 Hd0 Hd1.
  destruct (generate_returns _ _ _ _ _ _ _ Hrun)
    as (pts & limit & accel' & brake' & top & Ha' & Hb' & _ & Hdist & _ & Hspeed).
  rewrite Ha in Ha'. injection Ha' as <-. rewrite Hb in Hb'. injection Hb' as <-.
  assert (0 <= Q2R accel) by (rewrite <- RMicromega.Q2R_0; by apply Qle_Rle).
  assert (0 <= Q2R brake) by (rewrite <- RMicromega.Q2R_0; by apply Qle_Rle).
  destruct (two_pass_feasible (Q2R accel) (Q2R brake) limit (distance_array pts))
    as [Hacc Hbrk]; auto using distance_array_ascending.
  rewrite <- Hspeed, <- Hdist in Hacc, Hbrk.
  split.
  - exact (link_lookup _ _ _ i v0 v1 d0 d1 Hacc Hv0 Hv1 Hd0 Hd1).
  - exact (link_lookup _ _ _ i v0 v1 d0 d1 Hbrk Hv0 Hv1 Hd0 Hd1).
Qed.

(** C10.  Every speed of a returned line is at most the vehicle's
    [top_speed_ms]. *)
Theorem speed_at_most_top_speed (center : list (R * R)) (track_width : R)
    (vehicle : Grip.config) (effective_grip : Q) (n_points : nat)
    (log : list fit_call) (out : optimal_line) (top : Q) (i : nat) (v : R) :
  generate center track_width vehicle effective_grip n_points = (log, Ok out) ->
  vehicle !! "top_speed_ms"%string = Some top ->
  ol_speed out !! i = Some v ->
  v <= Q2R top.
Proof.
  intros Hrun Htop Hv.
  destruct (generate_returns _ _ _ _ _ _ _ Hrun)
    as (pts & limit & accel & brake & top' & _ & _ & Htop' & _ & Hlim & Hspeed).
  rewrite Htop in Htop'. injection Htop' as <-.
  assert (Hall : Forall (fun v => v <= Q2R top) (ol_speed out)).
  { rewrite Hspeed. by apply backward_pass_bounded, forward_pass_bounded. }
  exact (proj1 (Forall_lookup _ _) Hall i v Hv).
Qed.

(** C8.  With fewer than four points left after the 0.1 m de-duplication
    the call raises the too-few-points error before any curve fit, so
    nothing is returned; and when the exact fit ([s = 0]) fails the fit is
    asked for once more, with [s = 10], and the run continues with that
    result or raises its error. *)
Theorem too_few_points_or_one_retry (center cleaned : list (R * R))
    (track_width : R) (vehicle : Grip.config) (effective_grip : Q)
    (n_points : nat) :
  clean_points center = Ok cleaned ->
  ((length cleaned < 4)%nat ->
   generate center track_width vehicle effective_grip n_points
   = ([], Raise (too_few_points (length cleaned))))
  /\ ((4 <= length cleaned)%nat ->
      splprep cleaned.*1 cleaned.*2 0 = None ->
      let exact := {| fit_xs := cleaned.*1; fit_ys := cleaned.*2; fit_s := 0 |} in
      let retry := {| fit_xs := cleaned.*1; fit_ys := cleaned.*2; fit_s := 10 |} in
      fit_centerline tck splprep cleaned
      = ([exact; retry],
         match splprep cleaned.*1 cleaned.*2 10 with
         | Some t => Ok t
         | None => Raise FitError
         end)
      /\ generate center track_width vehicle effective_grip n_points
         = tbind (fit_centerline tck splprep cleaned)
                 (line_from_fit tck splprep splev gaussian_filter1d
                                track_width vehicle effective_grip n_points)
      /\ (splprep cleaned.*1 cleaned.*2 10 = None ->
          generate center track_width vehicle effective_grip n_points
          = ([exact; retry], Raise FitError))).
Proof.
  intros Hclean. unfold generate, generate_optimal_line.
  rewrite Hclean, tbind_lift_ok.
  split.
  - intros Hlen. apply Nat.ltb_lt in Hlen. rewrite Hlen. reflexivity.
  - intros Hlen Hexact. apply Nat.ltb_ge in Hlen. rewrite Hlen.
    assert (Hfit : fit_centerline tck splprep cleaned
                   = ([ {| fit_xs := cleaned.*1; fit_ys := cleaned.*2; fit_s := 0 |};
                        {| fit_xs := cleaned.*1; fit_ys := cleaned.*2; fit_s := 10 |} ],
                      match splprep cleaned.*1 cleaned.*2 10 with
                      | Some t => Ok t
                      | None => Raise FitError
                      end)).
    { unfold fit_centerline, call_splprep. rewrite Hexact. reflexivity. }
    split; [exact Hfit|]. split; [reflexivity|].
    intros Hretry. rewrite Hfit, Hretry. reflexivity.
Qed.

End GeneratorProps.

(** *** A run on the square track *)

Lemma le_sqrt_of_square (a t : R) : 0 <= a -> a * a <= t -> a <= sqrt t.
Proof.
  intros Ha Hat. rewrite <- (sqrt_square a Ha). by apply sqrt_le_1_alt.
Qed.

Lemma clean_square : clean_points Examples.square = Ok Examples.square.
Proof.
  unfold clean_points, Examples.square. simpl.
  repeat (destruct Rle_dec as [_ | Hn];
          [| exfalso; apply Hn, le_sqrt_of_square; unfold min_spacing; lra]).
  reflexivity.
Qed.

Lemma default_vehicle_items :
  Grip.getitem Grip.get_default_vehicle_config "tire_friction_dry" = Ok 1.40%Q
  /\ Grip.getitem Grip.get_default_vehicle_config "corner_speed_factor" = Ok 0.92%Q
  /\ Grip.getitem Grip.get_default_vehicle_config "top_speed_ms" = Ok 67.0%Q
  /\ Grip.getitem Grip.get_default_vehicle_config "max_accel_g" = Ok 0.85%Q
  /\ Grip.getitem Grip.get_default_vehicle_config "max_brake_g" = Ok 1.50%Q.
Proof. repeat split; reflexivity. Qed.

(** Two output points on the square track, default car, dry grip: the
    call returns, with two speeds over the distances [0] and [d1]. *)
Lemma square_run :
  exists log xs ys curvature v0 v1 d1 lap_time,
    generate_optimal_line unit Examples.always_fits Examples.diagonal_splev
        Examples.no_filter Examples.square 10 Grip.get_default_vehicle_config
        1.40%Q 2
    = (log, Ok {| ol_x := xs; ol_y := ys; ol_distance := [0; d1];
                  ol_speed := [v0; v1]; ol_curvature := curvature;
                  ol_grip_coefficient := Q2R 1.40; ol_lap_time := lap_time |}).
Proof.
  destruct default_vehicle_items as (Hdry & Hf & Ht & Ha & Hb).
  do 8 eexists.
  unfold generate_optimal_line. rewrite clean_square, tbind_lift_ok.
  change (length Examples.square <? 4)%nat with false. cbv iota.
  unfold fit_centerline, call_splprep, Examples.always_fits.
  unfold tbind at 1. unfold line_from_fit.
  rewrite Hdry, tbind_lift_ok.
  unfold call_splprep, Examples.always_fits. unfold tbind at 1.
  rewrite Hf, tbind_lift_ok, Ht, tbind_lift_ok.
  unfold linspace01, Examples.diagonal_splev, Examples.no_filter.
  cbn [seq map fst snd zip zip_with curvature_of fmap list_fmap
       distance_array distance_from].
  rewrite Ha, tbind_lift_ok, Hb, tbind_lift_ok.
  cbn [forward_pass forward_from backward_pass lap_time_of lift].
  reflexivity.
Qed.

Lemma speed_profile_feasible_witness :
  exists log out v0 v1 d0 d1,
    generate_optimal_line unit Examples.always_fits Examples.diagonal_splev
        Examples.no_filter Examples.square 10 Grip.get_default_vehicle_config
        1.40%Q 2 = (log, Ok out)
    /\ ol_speed out !! 0%nat = Some v0 /\ ol_speed out !! 1%nat = Some v1
    /\ ol_distance out !! 0%nat = Some d0 /\ ol_distance out !! 1%nat = Some d1
    /\ v1 <= sqrt (v0 ^ 2 + 2 * Q2R 0.85 * g * (d1 - d0))
    /\ v0 <= sqrt (v1 ^ 2 + 2 * Q2R 1.50 * g * (d1 - d0)).
Proof.
  destruct square_run as (log & xs & ys & curvature & v0 & v1 & d1 & lap & Hrun).
  eexists log, _, v0, v1, 0, d1.
  split; [exact Hrun|]. do 4 (split; [reflexivity|]).
  apply (speed_profile_feasible unit Examples.always_fits Examples.diagonal_splev
           Examples.no_filter Examples.square 10 Grip.get_default_vehicle_config
           1.40%Q 2%nat log _ 0.85%Q 1.50%Q 0%nat v0 v1 0 d1 Hrun).
  - reflexivity.
  - reflexivity.
  - unfold Qle; simpl; lia.
  - unfold Qle; simpl; lia.
  - reflexivity.
  - reflexivity.
  - reflexivity.
  - reflexivity.
Defined.

Lemma speed_at_most_top_speed_witness :
  exists log out v,
    generate_optimal_line unit Examples.always_fits Examples.diagonal_splev
        Examples.no_filter Examples.square 10 Grip.get_default_vehicle_config
        1.40%Q 2 = (log, Ok out)
    /\ ol_speed out !! 1%nat = Some v
    /\ v <= Q2R 67.0.
Proof.
  destruct square_run as (log & xs & ys & curvature & v0 & v1 & d1 & lap & Hrun).
  eexists log, _, v1.
  split; [exact Hrun|]. split; [reflexivity|].
  apply (speed_at_most_top_speed unit Examples.always_fits Examples.diagonal_splev
           Examples.no_filter Examples.square 10 Grip.get_default_vehicle_config
           1.40%Q 2%nat log _ 67.0%Q 1%nat v1 Hrun).
  - reflexivity.
  - reflexivity.
Defined.

Lemma too_few_points_or_one_retry_witness :
  generate_optimal_line unit Examples.always_fits Examples.diagonal_splev
      Examples.no_filter [(0, 0)] 10 Grip.get_default_vehicle_config 1.40%Q 2
  = ([], Raise (ValueError "Track has too few unique points (1 < 4 required)"))
  /\ fit_centerline unit Examples.fits_when_smoothed Examples.square
     = ([ {| fit_xs := Examples.square.*1; fit_ys := Examples.square.*2; fit_s := 0 |};
          {| fit_xs := Examples.square.*1; fit_ys := Examples.square.*2; fit_s := 10 |} ],
        Ok tt).
Proof.
  split.
  - apply (too_few_points_or_one_retry unit Examples.always_fits
             Examples.diagonal_splev Examples.no_filter [(0, 0)] [(0, 0)] 10
             Grip.get_default_vehicle_config 1.40%Q 2%nat eq_refl).
    simpl. lia.
  - destruct (too_few_points_or_one_retry unit Examples.fits_when_smoothed
                Examples.diagonal_splev Examples.no_filter
                Examples.square Examples.square 10
                Grip.get_default_vehicle_config 1.40%Q 2%nat clean_square)
      as [_ Hretry].
    destruct Hretry as (Hfit & _ & _).
    + simpl. lia.
    + unfold Examples.fits_when_smoothed.
      rewrite bool_decide_eq_true_2 by reflexivity. reflexivity.
    + rewrite Hfit. unfold Examples.fits_when_smoothed.
      rewrite bool_decide_eq_false_2 by lra. reflexivity.
Defined.

End OptimalLineProps.

(** ** Track assembly: [process_osm_data] *)

Module AssemblerProps.
Import Py TrackProcessor Spec.
Local Open Scope R_scope.

Ltac lra := Lra.lra.
Ltac nra := Lra.nra.

(** Way ids are unique after parsing. *)
Lemma parse_element_unique (st : parsed) (el : element) :
  (NoDup (map way_id (p_ways st))
   /\ forall i, i ∈ p_seen st <-> i ∈ map way_id (p_ways st)) ->
  NoDup (map way_id (p_ways (parse_element st el)))
  /\ forall i, i ∈ p_seen (parse_element st el)
               <-> i ∈ map way_id (p_ways (parse_element st el)).
Proof.
  intros [Hnd Hseen]. destruct el as [nid pos | w |]; simpl; auto.
  destruct (decide (way_id w ∈ p_seen st)) as [Hin | Hout]; simpl; auto.
  rewrite map_app. simpl. split.
  - apply NoDup_app. split; [exact Hnd|]. split.
    + intros i Hi Hi'. apply list_elem_of_singleton in Hi'. subst i.
      apply Hout, Hseen, Hi.
    + apply NoDup_singleton.
  - intros i. rewrite elem_of_union, elem_of_singleton, elem_of_app,
      list_elem_of_singleton, Hseen. tauto.
Qed.

Lemma parse_fold_unique (els : list element) (st : parsed) :
  (NoDup (map way_id (p_ways st))
   /\ forall i, i ∈ p_seen st <-> i ∈ map way_id (p_ways st)) ->
  NoDup (map way_id (p_ways (foldl parse_element st els))).
Proof.
  revert st. induction els as [|el els IH]; intros st Hst; simpl.
  - apply Hst.
  - apply IH, parse_element_unique, Hst.
Qed.

Lemma parse_elements_unique (els : list element) :
  NoDup (map way_id (p_ways (parse_elements els))).
Proof.
  apply parse_fold_unique. simpl. split; [constructor|].
  intros i. rewrite elem_of_nil. set_solver.
Qed.

Lemma same_id_same_way (ways : list way) (w w' : way) :
  NoDup (map way_id ways) -> w ∈ ways -> w' ∈ ways ->
  way_id w = way_id w' -> w = w'.
Proof.
  induction ways as [|u ways IH]; simpl; intros Hnd Hw Hw' Hid.
  - by apply elem_of_nil in Hw.
  - apply NoDup_cons in Hnd as [Hu Hnd].
    apply elem_of_cons in Hw as [-> | Hw]; apply elem_of_cons in Hw' as [-> | Hw'];
      auto.
    + exfalso. apply Hu. rewrite Hid. by apply list_elem_of_fmap_2.
    + exfalso. apply Hu. rewrite <- Hid. by apply list_elem_of_fmap_2.
Qed.

Section ProcessProps.

Variable parse_width : string -> option R.

Lemma process_way_id (nodes : gmap Z geo) (c : R * R) (pid : option Z)
    (w : way) (p : path_value) :
  process_way parse_width nodes c pid w = Some p -> pv_id p = way_id w.
Proof.
  unfold process_way. destruct (way_nodes w); [|discriminate].
  repeat match goal with
         | |- context [if ?b then _ else _] => destruct b; try discriminate
         end.
  all: intros [= <-]; reflexivity.
Qed.

(** With a pit lane selected, a service way other than the pit lane is
    skipped. *)
Lemma process_way_service (nodes : gmap Z geo) (c : R * R) (pid : Z)
    (w : way) (t : tags) :
  pid <> 0%Z -> way_id w <> pid ->
  way_tags w = Some t -> t !! "highway"%string = Some "service"%string ->
  process_way parse_width nodes c (Some pid) w = None.
Proof.
  intros Hpid Hne Ht Hs. unfold process_way.
  destruct (way_nodes w) as [ids|]; [|reflexivity].
  destruct (length ids <? 2)%nat; [reflexivity|].
  destruct (length (resolve nodes ids) <? 2)%nat; [reflexivity|].
  rewrite Ht. simpl.
  assert (E1 : (pid =? 0)%Z = false) by by apply Z.eqb_neq.
  assert (E2 : bool_decide (Some (way_id w) = Some pid) = false).
  { apply bool_decide_eq_false_2. congruence. }
  assert (E3 : tag_is t "highway" "service" = true).
  { unfold tag_is. by apply bool_decide_eq_true_2. }
  rewrite E1, E2, E3. reflexivity.
Qed.

(** Without a pit lane the ['highway'] tag is never looked at. *)
Lemma process_way_ignores_highway (nodes : gmap Z geo) (c : R * R) (w : way) :
  process_way parse_width nodes c None w
  = process_way parse_width nodes c None (without_highway w).
Proof.
  unfold process_way, without_highway. simpl.
  destruct (way_nodes w) as [ids|]; [|reflexivity].
  destruct (length ids <? 2)%nat; [reflexivity|].
  destruct (length (resolve nodes ids) <? 2)%nat; [reflexivity|].
  destruct (way_tags w) as [t|]; [|reflexivity]. simpl.
  unfold tag_truthy, tag_is.
  rewrite !lookup_delete_ne by discriminate. reflexivity.
Qed.

(** When some way was parsed and the pit-lane search returns, the call
    returns the ways that [process_way] keeps. *)
Lemma process_osm_data_returns (els : list element) (name : string)
    (pit_anchor : option geo) (pit_lane_id : option Z) :
  p_ways (parse_elements els) <> [] ->
  find_pit_lane (p_nodes (parse_elements els)) (p_ways (parse_elements els))
                pit_anchor = Ok pit_lane_id ->
  exists c tv,
    process_osm_data parse_width (Some els) name pit_anchor = Ok (Some tv)
    /\ tv_paths tv
       = omap (process_way parse_width (p_nodes (parse_elements els)) c pit_lane_id)
              (p_ways (parse_elements els)).
Proof.
  intros Hways Hpit. unfold process_osm_data.
  destruct (p_ways (parse_elements els)) as [|w ways] eqn:E; [done|].
  rewrite Hpit. simpl. eexists _, _. split; reflexivity.
Qed.

Lemma process_osm_data_paths (els : list element) (name : string)
    (pit_anchor : option geo) (tv : track_value) :
  process_osm_data parse_width (Some els) name pit_anchor = Ok (Some tv) ->
  exists c pit_lane_id,
    find_pit_lane (p_nodes (parse_elements els)) (p_ways (parse_elements els))
                  pit_anchor = Ok pit_lane_id
    /\ tv_paths tv
       = omap (process_way parse_width (p_nodes (parse_elements els)) c pit_lane_id)
              (p_ways (parse_elements els)).
Proof.
  unfold process_osm_data.
  destruct (p_ways (parse_elements els)) as [|w ways] eqn:E; [discriminate|].
  destruct (find_pit_lane _ _ pit_anchor) as [pid|]; [|discriminate].
  simpl. intros [= <-]. eexists _, _. split; reflexivity.
Qed.

Lemma resolve_length (nodes : gmap Z geo) (ids : list Z) :
  (length (resolve nodes ids) <= length ids)%nat.
Proof.
  unfold resolve. induction ids as [|i ids IH]; [reflexivity|].
  cbn [omap list_omap length]. destruct (nodes !! i); cbn [length]; lia.
Qed.

(** Without a pit lane, a way with two resolvable nodes and no barrier,
    wall or building tag becomes a path, whatever its ['highway'] tag. *)
Lemma process_way_kept (nodes : gmap Z geo) (c : R * R) (w : way)
    (ids : list Z) (t : tags) :
  way_nodes w = Some ids ->
  (2 <= length (resolve nodes ids))%nat ->
  way_tags w = Some t ->
  tag_truthy t "barrier" = false -> tag_truthy t "wall" = false ->
  tag_truthy t "building" = false ->
  exists p,
    process_way parse_width nodes c None w = Some p
    /\ pv_id p = way_id w
    /\ pv_rawPoints p = resolve nodes ids
    /\ pv_type p
       = if tag_is t "service" "pit_lane"
            || contains "pit" (lower (default ""%string (t !! "name"%string)))
         then Pit else Track.
Proof.
  intros Hids Hlen Ht Hb Hw Hbd. unfold process_way. rewrite Hids.
  pose proof (resolve_length nodes ids) as Hle.
  assert (E1 : (length ids <? 2)%nat = false) by (apply Nat.ltb_ge; lia).
  assert (E2 : (length (resolve nodes ids) <? 2)%nat = false)
    by (apply Nat.ltb_ge; lia).
  rewrite E1, E2, Ht. cbn [default from_option Datatypes.id id_truthy andb].
  rewrite Hb, Hw, Hbd. cbn [orb].
  rewrite (bool_decide_eq_false_2 (Some (way_id w) = None)) by discriminate.
  cbn [orb]. eexists. split; [reflexivity|]. cbn [pv_id pv_rawPoints pv_type].
  split; [reflexivity|]. split; reflexivity.
Qed.

(** C2, as the code has it.  When the pit anchor selects a pit lane
    (with a non-zero id), no returned path comes from a way tagged
    [highway=service] other than that pit lane.  Without a pit anchor the
    ['highway'] tag has no effect at all: the returned paths are those of
    the same ways with the tag erased, and a way tagged [highway=service]
    that has two resolvable nodes and no barrier, wall or building tag is
    returned as a path, of type track unless its [service=pit_lane] tag
    or its name makes it a pit path. *)
Theorem service_ways_discarded_when_pit_lane_selected
    (els : list element) (name : string) :
  (forall (pit_anchor : geo) (tv : track_value) (pit_lane_id : Z)
          (w : way) (t : tags) (p : path_value),
     process_osm_data parse_width (Some els) name (Some pit_anchor) = Ok (Some tv) ->
     find_pit_lane (p_nodes (parse_elements els)) (p_ways (parse_elements els))
                   (Some pit_anchor) = Ok (Some pit_lane_id) ->
     pit_lane_id <> 0%Z ->
     w ∈ p_ways (parse_elements els) ->
     way_tags w = Some t ->
     t !! "highway"%string = Some "service"%string ->
     way_id w <> pit_lane_id ->
     p ∈ tv_paths tv ->
     pv_id p <> way_id w)
  /\ (forall (tv0 : track_value),
        process_osm_data parse_width (Some els) name None = Ok (Some tv0) ->
        (exists c,
           tv_paths tv0
           = omap (fun w' => process_way parse_width (p_nodes (parse_elements els))
                                         c None (without_highway w'))
                  (p_ways (parse_elements els)))
        /\ forall (w : way) (ids : list Z) (t : tags),
             w ∈ p_ways (parse_elements els) ->
             way_nodes w = Some ids ->
             (2 <= length (resolve (p_nodes (parse_elements els)) ids))%nat ->
             way_tags w = Some t ->
             t !! "highway"%string = Some "service"%string ->
             tag_truthy t "barrier" = false -> tag_truthy t "wall" = false ->
             tag_truthy t "building" = false ->
             exists p,
               p ∈ tv_paths tv0
               /\ pv_id p = way_id w
               /\ pv_rawPoints p = resolve (p_nodes (parse_elements els)) ids
               /\ pv_type p
                  = if tag_is t "service" "pit_lane"
                       || contains "pit"
                            (lower (default ""%string (t !! "name"%string)))
                    then Pit else Track).
Proof.
  split.
  - intros pit_anchor tv pit_lane_id w t p Hrun Hpit Hpid Hw Ht Hs Hne Hp.
    destruct (process_osm_data_paths _ _ _ _ Hrun) as (c & pid & Hpit' & Hpaths).
    rewrite Hpit in Hpit'. injection Hpit' as <-.
    rewrite Hpaths in Hp. apply list_elem_of_omap in Hp as (w' & Hw' & Hkeep).
    rewrite (process_way_id _ _ _ _ _ Hkeep). intros Hid.
    assert (w' = w) as ->.
    { apply (same_id_same_way (p_ways (parse_elements els))); auto.
      apply parse_elements_unique. }
    rewrite (process_way_service _ c pit_lane_id w t) in Hkeep by done.
    discriminate.
  - intros tv0 Hrun0.
    destruct (process_osm_data_paths _ _ _ _ Hrun0) as (c & pid & Hpit' & Hpaths).
    simpl in Hpit'. injection Hpit' as <-. split.
    + exists c. rewrite Hpaths. apply list_omap_ext.
      apply Forall2_same_length_lookup_2; [done|].
      intros i x y Hx Hy. rewrite Hx in Hy. injection Hy as <-.
      apply process_way_ignores_highway.
    + intros w ids t Hw Hids Hlen Ht _ Hb Hwall Hbd.
      destruct (process_way_kept (p_nodes (parse_elements els)) c w ids t
                  Hids Hlen Ht Hb Hwall Hbd) as (p & Hp & Hid & Hraw & Hty).
      exists p. split; [|auto].
      rewrite Hpaths. apply list_elem_of_omap. exists w. auto.
Qed.
End ProcessProps.

(** *** The example map data *)

Lemma parse_service_only :
  p_ways (parse_elements Examples.service_only) = [Examples.service_way]
  /\ p_nodes (parse_elements Examples.service_only)
     = <[2%Z:=Examples.node2]> (<[1%Z:=Examples.node1]> ∅).
Proof.
  unfold parse_elements, Examples.service_only. simpl.
  rewrite decide_False by (intros H0; by apply elem_of_empty in H0).
  split; reflexivity.
Qed.

Lemma parse_raceway_and_service :
  p_ways (parse_elements Examples.raceway_and_service)
  = [Examples.raceway; Examples.service_way]
  /\ p_nodes (parse_elements Examples.raceway_and_service)
     = <[2%Z:=Examples.node2]> (<[1%Z:=Examples.node1]> ∅).
Proof.
  unfold parse_elements, Examples.raceway_and_service. simpl.
  rewrite (decide_False (P := 11%Z ∈ (∅ : gset Z)))
    by (intros H0; by apply elem_of_empty in H0).
  simpl.
  rewrite decide_False; [split; reflexivity|].
  intros [H0 | H0]%elem_of_union.
  - by apply elem_of_singleton in H0.
  - by apply elem_of_empty in H0.
Qed.

Lemma resolve_both (nodes : gmap Z geo) :
  resolve (<[2%Z:=Examples.node2]> (<[1%Z:=Examples.node1]> nodes)) [1%Z; 2%Z]
  = [Examples.node1; Examples.node2].
Proof.
  unfold resolve. simpl.
  rewrite lookup_insert_ne by done. rewrite !lookup_insert_eq. reflexivity.
Qed.

(** Without a pit lane the service way of the example becomes a track
    path, whatever the projection centre. *)
Lemma service_way_processed (c : R * R) :
  exists p,
    process_way Examples.no_width
      (<[2%Z:=Examples.node2]> (<[1%Z:=Examples.node1]> ∅)) c None
      Examples.service_way = Some p
    /\ pv_id p = 10%Z /\ pv_type p = Track.
Proof.
  unfold process_way.
  cbn [way_nodes Examples.service_way length Nat.ltb Nat.leb].
  rewrite resolve_both.
  cbn [length Nat.ltb Nat.leb way_tags default id_truthy andb].
  eexists. split; [reflexivity|]. split; reflexivity.
Qed.

(** C2 as stated fails: with no pit anchor a way tagged
    [highway=service] is returned, as a track path. *)
Lemma service_way_kept_without_pit_anchor :
  exists tv p,
    process_osm_data Examples.no_width (Some Examples.service_only) "track" None
    = Ok (Some tv)
    /\ p ∈ tv_paths tv
    /\ pv_id p = way_id Examples.service_way
    /\ pv_type p = Track.
Proof.
  destruct parse_service_only as [Hways Hnodes].
  destruct (process_osm_data_returns Examples.no_width Examples.service_only
              "track" None None) as (c & tv & Hrun & Hpaths).
  { rewrite Hways. discriminate. }
  { reflexivity. }
  rewrite Hways, Hnodes in Hpaths.
  destruct (service_way_processed c) as (p & Hp & Hid & Hty).
  exists tv, p. split; [exact Hrun|]. split; [|split; assumption].
  rewrite Hpaths. simpl. rewrite Hp. apply list_elem_of_here.
Qed.

(** Anchored at the first node, the search selects the first way. *)
Lemma find_pit_lane_raceway :
  find_pit_lane (<[2%Z:=Examples.node2]> (<[1%Z:=Examples.node1]> ∅))
                [Examples.raceway; Examples.service_way] (Some Examples.node1)
  = Ok (Some 11%Z).
Proof.
  unfold find_pit_lane. cbn [foldl]. unfold pit_step.
  cbn [mbind result_bind bind Examples.raceway Examples.service_way way_nodes way_id].
  rewrite lookup_insert_ne by done. rewrite lookup_insert_eq.
  cbn [lt_running mbind result_bind bind].
  rewrite bool_decide_eq_false_2 by apply Rlt_irrefl.
  reflexivity.
Qed.

Lemma raceway_processed (c : R * R) :
  exists p,
    process_way Examples.no_width
      (<[2%Z:=Examples.node2]> (<[1%Z:=Examples.node1]> ∅)) c (Some 11%Z)
      Examples.raceway = Some p
    /\ pv_id p = 11%Z.
Proof.
  unfold process_way.
  cbn [way_nodes Examples.raceway length Nat.ltb Nat.leb].
  rewrite resolve_both.
  cbn [length Nat.ltb Nat.leb way_tags default id_truthy andb].
  eexists. split; reflexivity.
Qed.

Lemma service_ways_discarded_when_pit_lane_selected_witness :
  (exists tv p,
     process_osm_data Examples.no_width (Some Examples.raceway_and_service)
                      "track" (Some Examples.node1) = Ok (Some tv)
     /\ p ∈ tv_paths tv
     /\ pv_id p <> way_id Examples.service_way)
  /\ (exists tv0 p,
        process_osm_data Examples.no_width (Some Examples.service_only) "track" None
        = Ok (Some tv0)
        /\ p ∈ tv_paths tv0
        /\ pv_id p = way_id Examples.service_way
        /\ pv_rawPoints p = [Examples.node1; Examples.node2]
        /\ pv_type p = Track).
Proof.
  split.
  - destruct parse_raceway_and_service as [Hways Hnodes].
    destruct (process_osm_data_returns Examples.no_width Examples.raceway_and_service
                "track" (Some Examples.node1) (Some 11%Z)) as (c & tv & Hrun & Hpaths).
    { rewrite Hways. discriminate. }
    { rewrite Hways, Hnodes. apply find_pit_lane_raceway. }
    destruct (raceway_processed c) as (p & Hp & Hid).
    assert (Hin : p ∈ tv_paths tv).
    { rewrite Hpaths, Hways, Hnodes. cbn [omap list_omap]. rewrite Hp.
      apply list_elem_of_here. }
    exists tv, p. split; [exact Hrun|]. split; [exact Hin|].
    refine (proj1 (service_ways_discarded_when_pit_lane_selected
                     Examples.no_width Examples.raceway_and_service "track")
                  Examples.node1 tv 11%Z Examples.service_way
                  {[ "highway"%string := "service"%string ]} p
                  Hrun _ _ _ _ _ _ Hin).
    + rewrite Hways, Hnodes. apply find_pit_lane_raceway.
    + discriminate.
    + rewrite Hways. set_solver.
    + reflexivity.
    + reflexivity.
    + discriminate.
  - destruct parse_service_only as [Hways Hnodes].
    destruct (process_osm_data_returns Examples.no_width Examples.service_only
                "track" None None) as (c & tv0 & Hrun & _).
    { rewrite Hways. discriminate. }
    { reflexivity. }
    destruct (proj2 (service_ways_discarded_when_pit_lane_selected
                       Examples.no_width Examples.service_only "track")
                    tv0 Hrun) as [_ Hkept].
    destruct (Hkept Examples.service_way [1%Z; 2%Z]
                {[ "highway"%string := "service"%string ]})
      as (p & Hin & Hid & Hraw & Hty).
    + rewrite Hways. apply list_elem_of_here.
    + reflexivity.
    + rewrite Hnodes, resolve_both. cbn [length]. lia.
    + reflexivity.
    + reflexivity.
    + reflexivity.
    + reflexivity.
    + reflexivity.
    + exists tv0, p. split; [exact Hrun|]. split; [exact Hin|].
      split; [exact Hid|]. split; [|exact Hty].
      rewrite Hraw, Hnodes. apply resolve_both.
Defined.

End AssemblerProps.

(** ** Track finalisation: [finalize_track] *)

Module FinalizeProps.
Import Py TrackProcessor Spec.
Local Open Scope R_scope.

Ltac lra := Lra.lra.
Ltac nra := Lra.nra.

(** *** Sector indices *)

(** Decide the comparisons of concrete reals that a goal branches on. *)
Ltac rdecide :=
  repeat match goal with
         | |- context [bool_decide ?P] =>
             first [ rewrite (bool_decide_eq_true_2 P) by (simpl; lra)
                   | rewrite (bool_decide_eq_false_2 P) by (simpl; lra) ]
         end.

Lemma first_reaching_cases (target : R) (pts : list spline_point) (i : nat) :
  (first_reaching target i pts = (-1)%Z
   /\ Forall (fun p => dist p < target) pts)
  \/ (exists k p,
        first_reaching target i pts = Z.of_nat (i + k)
        /\ pts !! k = Some p
        /\ dist p >= target
        /\ forall j q, (j < k)%nat -> pts !! j = Some q -> dist q < target).
Proof.
  revert i. induction pts as [|p pts IH]; intros i; simpl.
  - left. split; [reflexivity | constructor].
  - destruct (bool_decide (dist p >= target)) eqn:E.
    + apply bool_decide_eq_true_1 in E. right. exists 0%nat, p.
      rewrite Nat.add_0_r. repeat split; auto. intros j q Hj. lia.
    + apply bool_decide_eq_false_1 in E.
      destruct (IH (S i)) as [[Hm Hall] | (k & q & Hk & Hq & Hge & Hmin)].
      * left. split; [exact Hm|]. constructor; [lra | exact Hall].
      * right. exists (S k), q. rewrite Hk.
        split; [lia|]. split; [exact Hq|]. split; [exact Hge|].
        intros [|j] r Hj Hr; simpl in Hr.
        -- injection Hr as <-. lra.
        -- apply (Hmin j r); [lia | exact Hr].
Qed.

Lemma first_reaching_found (target : R) (pts : list spline_point) (idx : Z) :
  first_reaching target 0 pts = idx -> idx <> (-1)%Z -> first_at target pts idx.
Proof.
  intros H Hne.
  destruct (first_reaching_cases target pts 0) as [[Hm _] | (k & p & Hk & Hp & Hge & Hmin)].
  - congruence.
  - exists k, p. rewrite <- H, Hk. auto.
Qed.

Lemma first_at_bounds (target : R) (pts : list spline_point) (idx : Z) :
  first_at target pts idx -> (0 <= idx < Z.of_nat (length pts))%Z.
Proof.
  intros (k & p & -> & Hp & _). apply lookup_lt_Some in Hp. lia.
Qed.

Lemma ascending_below_last (l : list R) (a b : R) :
  ascending l -> a ∈ l -> last l = Some b -> a <= b.
Proof.
  revert a. induction l as [|u l IH]; intros a Hasc Ha Hb.
  - by apply elem_of_nil in Ha.
  - destruct l as [|v l].
    + apply list_elem_of_singleton in Ha. injection Hb as <-. lra.
    + destruct Hasc as [Huv Hasc].
      apply elem_of_cons in Ha as [-> | Ha].
      * assert (v <= b); [|lra]. apply IH; auto. apply list_elem_of_here.
      * apply IH; auto.
Qed.

Lemma none_reaching_iff (target : R) (pts : list spline_point) :
  pts <> [] ->
  ascending (map dist pts) ->
  (first_reaching target 0 pts = (-1)%Z <-> length_of pts < target).
Proof.
  intros Hne Hasc. unfold length_of.
  destruct (last pts) as [pl|] eqn:El; [|by apply last_None in El].
  simpl. split.
  - destruct (first_reaching_cases target pts 0) as [[_ Hall] | (k & p & Hk & _)].
    + intros _. apply (proj1 (Forall_forall _ _) Hall pl).
      apply last_Some in El as (l' & ->). set_solver.
    + rewrite Hk. lia.
  - intros Hlt.
    destruct (first_reaching_cases target pts 0)
      as [[Hm _] | (k & p & _ & Hp & Hge & _)]; [exact Hm|].
    exfalso. assert (dist p <= dist pl); [|lra].
    apply (ascending_below_last (map dist pts)); auto.
    + apply list_elem_of_fmap_2. by eapply list_elem_of_lookup_2.
    + rewrite fmap_last, El. reflexivity.
Qed.

(** The sector indices of a non-empty point sequence whose cumulative
    distance never decreases: if both sector lengths are positive and
    their sum is at most the track length, the two indices are in order
    and are the first indices that reach their cumulative targets; and
    an index is [-1] exactly when its sector length is not positive or
    the track is shorter than its cumulative target. *)
Lemma sector_indices_ordered (pts : list spline_point)
    (sector1_inches sector2_inches : option R) (s1_idx s2_idx : Z) :
  sector_indices pts sector1_inches sector2_inches = (s1_idx, s2_idx) ->
  pts <> [] ->
  ascending (map dist pts) ->
  let s1m := sector_meters sector1_inches in
  let s2m := sector_meters sector2_inches in
  (0 < s1m -> 0 < s2m -> s1m + s2m <= length_of pts ->
   (0 <= s1_idx <= s2_idx)%Z /\ (s2_idx < Z.of_nat (length pts))%Z
   /\ first_at s1m pts s1_idx /\ first_at (s1m + s2m) pts s2_idx)
  /\ (s1_idx = (-1)%Z <-> s1m <= 0 \/ length_of pts < s1m)
  /\ (s2_idx = (-1)%Z <-> s2m <= 0 \/ length_of pts < s1m + s2m).
Proof.
  intros Hidx Hne Hasc s1m s2m. unfold sector_indices in Hidx.
  fold s1m s2m in Hidx. injection Hidx as H1 H2.
  split; [|split].
  - intros Hs1 Hs2 Hsum.
    rewrite bool_decide_eq_true_2 in H1 by lra.
    rewrite bool_decide_eq_true_2 in H2 by lra.
    assert (Hf1 : first_at s1m pts s1_idx).
    { apply first_reaching_found; [exact H1|]. intros ->.
      apply (none_reaching_iff _ _ Hne Hasc) in H1. lra. }
    assert (Hf2 : first_at (s1m + s2m) pts s2_idx).
    { apply first_reaching_found; [exact H2|]. intros ->.
      apply (none_reaching_iff _ _ Hne Hasc) in H2. lra. }
    pose proof (first_at_bounds _ _ _ Hf1) as Hb1.
    pose proof (first_at_bounds _ _ _ Hf2) as Hb2.
    repeat split; try lia; auto.
    destruct Hf1 as (k1 & p1 & -> & Hp1 & Hge1 & Hmin1).
    destruct Hf2 as (k2 & p2 & -> & Hp2 & Hge2 & Hmin2).
    destruct (decide (k2 < k1)%nat) as [Hlt | Hge]; [|lia].
    pose proof (Hmin1 k2 p2 Hlt Hp2). lra.
  - destruct (bool_decide (s1m > 0)) eqn:E.
    + apply bool_decide_eq_true_1 in E. rewrite <- H1.
      rewrite (none_reaching_iff _ _ Hne Hasc). split; [by right|].
      intros [Hle | Hlt]; [lra | exact Hlt].
    + apply bool_decide_eq_false_1 in E. split; [intros _; left; lra | auto].
  - destruct (bool_decide (s2m > 0)) eqn:E.
    + apply bool_decide_eq_true_1 in E. rewrite <- H2.
      rewrite (none_reaching_iff _ _ Hne Hasc). split; [by right|].
      intros [Hle | Hlt]; [lra | exact Hlt].
    + apply bool_decide_eq_false_1 in E. split; [intros _; left; lra | auto].
Qed.

Lemma straight_ascending : ascending (map dist Examples.straight).
Proof. simpl. repeat split; lra. Qed.

(** On the 2 m straight, sectors of 50 inches (1.27 m) each are positive
    and shorter than the track, yet the sector-2 end index is [-1], below
    the sector-1 end index [2]. *)
Lemma straight_sector_order :
  0 < sector_meters (Some 50) < length_of Examples.straight
  /\ sector_indices Examples.straight (Some 50) (Some 50) = (2%Z, (-1)%Z).
Proof.
  unfold sector_indices, sector_meters, METERS_PER_INCH, length_of. simpl.
  split; [lra|]. rdecide. reflexivity.
Qed.

Lemma sector_indices_ordered_example :
  ((0 <= 1 <= 2)%Z /\ (2 < Z.of_nat (length Examples.straight))%Z
   /\ first_at (sector_meters (Some 20)) Examples.straight 1
   /\ first_at (sector_meters (Some 20) + sector_meters (Some 50))
               Examples.straight 2).
Proof.
  refine (proj1 (sector_indices_ordered Examples.straight (Some 20) (Some 50)
                   1%Z 2%Z _ _ straight_ascending) _ _ _).
  - unfold sector_indices, sector_meters, METERS_PER_INCH. simpl.
    rdecide. reflexivity.
  - discriminate.
  - unfold sector_meters, METERS_PER_INCH. simpl. lra.
  - unfold sector_meters, METERS_PER_INCH. simpl. lra.
  - unfold sector_meters, METERS_PER_INCH, length_of. simpl. lra.
Defined.

(** *** Scaling and rotation *)

Lemma distance_same_y (p q : xy) :
  py p = py q -> get_distance_meters p q = Rabs (px q - px p).
Proof.
  intros Hy. unfold get_distance_meters. rewrite Hy.
  replace ((px q - px p) ^ 2 + (py q - py q) ^ 2) with (Rsqr (px q - px p))
    by (unfold Rsqr; ring).
  apply sqrt_Rsqr_abs.
Qed.

Lemma scale_track_miles (pts : list spline_point) (total miles : R) :
  miles > 0 -> total <> 0 ->
  scale_track pts total (Some miles)
  = Ok (map (scale_point (miles * METERS_PER_MILE / total)) pts,
        miles * METERS_PER_MILE,
        miles * METERS_PER_MILE / total).
Proof.
  intros Hm Ht. unfold scale_track.
  rewrite bool_decide_eq_true_2 by exact Hm.
  rewrite bool_decide_eq_false_2 by exact Ht.
  do 3 f_equal. field. exact Ht.
Qed.

Lemma rabs_value (v a : R) : (0 <= v -> a = v \/ a = - v -> Rabs a = v).
Proof.
  intros Hv [-> | ->].
  - by apply Rabs_right, Rle_ge.
  - rewrite Rabs_Ropp. by apply Rabs_right, Rle_ge.
Qed.

Lemma straight_sf_index :
  find_sf_index (map (scale_point Examples.half_mile) Examples.straight)
                {| px := 1 * Examples.half_mile; py := 0 * Examples.half_mile |} = 1%nat.
Proof.
  unfold find_sf_index, Examples.straight. cbn [map take sf_search].
  rewrite !distance_same_y by reflexivity.
  cbn [sp_xy scale_point Examples.on_axis px py x y lt_running fst snd].
  rewrite (rabs_value (80467 / 100) (1 * Examples.half_mile - 0 * Examples.half_mile))
    by (unfold Examples.half_mile, METERS_PER_MILE; lra).
  rewrite (rabs_value 0 (1 * Examples.half_mile - 1 * Examples.half_mile))
    by (unfold Examples.half_mile, METERS_PER_MILE; lra).
  rewrite (rabs_value (80467 / 100) (1 * Examples.half_mile - 2 * Examples.half_mile))
    by (unfold Examples.half_mile, METERS_PER_MILE; lra).
  rdecide. cbn [lt_running fst snd]. rdecide. reflexivity.
Qed.

(** C5 as stated fails: the 2 m straight scaled to one mile, with the
    start/finish point at its middle, is rotated to index 1 and ends with
    a total of 2414.01 m, half a mile more than the target. *)
Lemma rotated_length_misses_target :
  exists pl,
    scale_and_rotate Examples.straight 2 (Some 1) {| px := 1; py := 0 |} = Ok pl
    /\ pl_sf_index pl = 1%nat
    /\ pl_total_distance pl = 241401 / 100
    /\ Rabs (pl_total_distance pl - 1 * METERS_PER_MILE) / (1 * METERS_PER_MILE)
       > 1 / 1000.
Proof.
  unfold scale_and_rotate.
  rewrite (scale_track_miles _ 2 1) by lra. cbn [mbind result_bind bind px py].
  fold Examples.half_mile. rewrite straight_sf_index.
  unfold rotate_to_sf, Examples.straight.
  cbn [map take drop app recompute_dist recompute_from].
  rewrite !distance_same_y by reflexivity.
  cbn [sp_xy scale_point Examples.on_axis px py x y set_dist].
  rewrite (rabs_value (80467 / 100) (2 * Examples.half_mile - 1 * Examples.half_mile))
    by (unfold Examples.half_mile, METERS_PER_MILE; lra).
  rewrite (rabs_value (160934 / 100) (0 * Examples.half_mile - 2 * Examples.half_mile))
    by (unfold Examples.half_mile, METERS_PER_MILE; lra).
  eexists. split; [reflexivity|]. cbn [pl_sf_index pl_total_distance].
  split; [reflexivity|]. split; [lra|].
  replace (0 + 80467 / 100 + 160934 / 100 - 1 * METERS_PER_MILE) with (80467 / 100)
    by (unfold METERS_PER_MILE; lra).
  rewrite Rabs_right by lra. unfold METERS_PER_MILE. lra.
Qed.

(** *** Elevation normalisation *)

Lemma rmin_le_both (a b : R) : rmin a b <= a /\ rmin a b <= b.
Proof. unfold rmin. destruct (Rlt_dec b a); lra. Qed.

Lemma rmin_either (a b : R) : rmin a b = a \/ rmin a b = b.
Proof. unfold rmin. destruct (Rlt_dec b a); auto. Qed.

(** [min] returns a member that is below every member. *)
Lemma foldl_rmin_spec (l : list R) (a : R) :
  foldl rmin a l ∈ a :: l /\ Forall (fun v => foldl rmin a l <= v) (a :: l).
Proof.
  revert a. induction l as [|b l IH]; intros a; simpl.
  - split; [apply list_elem_of_here | constructor; [lra | constructor]].
  - destruct (IH (rmin a b)) as [Hin Hall].
    apply Forall_cons in Hall as [Hm Hall].
    destruct (rmin_le_both a b) as [Ha Hb].
    split.
    + apply elem_of_cons in Hin as [-> | Hin].
      * destruct (rmin_either a b) as [-> | ->].
        -- apply list_elem_of_here.
        -- apply list_elem_of_further, list_elem_of_here.
      * by do 2 apply list_elem_of_further.
    + constructor; [lra|]. constructor; [lra | exact Hall].
Qed.

Lemma py_min_list_spec (l : list R) (m : R) :
  py_min_list l = Some m -> m ∈ l /\ Forall (fun v => m <= v) l.
Proof.
  destruct l as [|a l]; [discriminate|]. simpl. intros [= <-].
  apply foldl_rmin_spec.
Qed.

Lemma py_min_list_zero (l : list R) :
  0 ∈ l -> Forall (fun v => 0 <= v) l -> py_min_list l = Some 0.
Proof.
  intros H0 Hall. destruct l as [|a l]; [by apply elem_of_nil in H0|].
  simpl. f_equal.
  destruct (foldl_rmin_spec l a) as [Hin Hmin].
  pose proof (proj1 (Forall_forall _ _) Hall _ Hin) as Hge. simpl in Hge.
  pose proof (proj1 (Forall_forall _ _) Hmin _ H0) as Hle. simpl in Hle.
  lra.
Qed.

(** Normalising one pit point lowers its ['z'] if it has one. *)
Lemma lower_pit_z_points (min_z : R) (h : heap) (l : loc) :
  h_points (lower_pit_z min_z h l) = alter (lower_point min_z) l (h_points h)
  /\ h_raw (lower_pit_z min_z h l) = h_raw h.
Proof.
  unfold lower_pit_z.
  destruct (h_points h !! l) as [q|] eqn:E; simpl.
  - destruct q as [qxy [v|]]; simpl.
    + split; [|reflexivity]. apply map_eq. intros i.
      rewrite !lookup_alter. destruct (decide (l = i)) as [->|]; [|reflexivity].
      rewrite E. reflexivity.
    + split; [|reflexivity]. apply map_eq. intros i.
      rewrite lookup_alter. destruct (decide (l = i)) as [->|]; [|reflexivity].
      rewrite E. reflexivity.
  - split; [|reflexivity]. apply map_eq. intros i.
    rewrite lookup_alter. destruct (decide (l = i)) as [->|]; [|reflexivity].
    rewrite E. reflexivity.
Qed.

Lemma lower_all_lookup (min_z : R) (refs : list loc) (h : heap) (r : loc) :
  NoDup refs ->
  h_points (foldl (lower_pit_z min_z) h refs) !! r
  = if decide (r ∈ refs) then lower_point min_z <$> h_points h !! r
    else h_points h !! r.
Proof.
  revert h. induction refs as [|l refs IH]; intros h Hnd.
  - destruct (decide (r ∈ [])) as [Hin|]; [by apply elem_of_nil in Hin | done].
  - apply NoDup_cons in Hnd as [Hl Hnd]. cbn [foldl]. rewrite (IH _ Hnd).
    rewrite (proj1 (lower_pit_z_points min_z h l)), lookup_alter.
    destruct (decide (l = r)) as [-> | Hne].
    + rewrite (decide_True (P := r ∈ r :: refs)) by apply list_elem_of_here.
      by rewrite (decide_False (P := r ∈ refs)).
    + destruct (decide (r ∈ refs)) as [Hin | Hout].
      * rewrite decide_True by (by apply list_elem_of_further). reflexivity.
      * rewrite decide_False; [reflexivity|].
        intros [? | ?]%elem_of_cons; [congruence | done].
Qed.


(** The elevation of a pit point after the pit points [refs] were
    lowered. *)
Lemma lowered_point_z (min_z : R) (refs : list loc) (h : heap) (r : loc) :
  NoDup refs -> r ∈ refs ->
  point_z_or_0 (foldl (lower_pit_z min_z) h refs) r
  = match h_points h !! r ≫= pt_z with
    | Some v => v - min_z
    | None => 0
    end.
Proof.
  intros Hnd Hin. unfold point_z_or_0.
  rewrite (lower_all_lookup _ _ _ _ Hnd), decide_True by exact Hin.
  destruct (h_points h !! r) as [[qxy [v|]]|]; reflexivity.
Qed.

(** C6.  After the normalisation block the elevations of all spline
    points and all pit points ([0] for a pit point without ['z']) have
    minimum exactly [0], and none is negative. *)
Theorem normalized_elevation_min_zero (h h' : heap)
    (spline_points spline_points' : list spline_point) (pit_segs : list path) :
  spline_points <> [] ->
  NoDup (pit_point_refs pit_segs) ->
  normalize_elevation h spline_points pit_segs = (h', spline_points') ->
  py_min_list (all_elevations h' spline_points' pit_segs) = Some 0
  /\ Forall (fun e => 0 <= e) (all_elevations h' spline_points' pit_segs).
Proof.
  intros Hne Hnd Hnorm.
  set (refs := pit_point_refs pit_segs) in *.
  destruct (py_min_list (map z spline_points ++ pit_z_values h refs))
    as [min_z|] eqn:Emin.
  2: { destruct spline_points; [done | discriminate]. }
  assert (Hsplit : (h', spline_points')
                   = (foldl (lower_pit_z min_z) h refs,
                      map (fun p => set_z p (z p - min_z)) spline_points)).
  { rewrite <- Hnorm. unfold normalize_elevation. fold refs. rewrite Emin.
    by destruct spline_points. }
  injection Hsplit as -> ->. clear Hnorm. rename spline_points into sp.
  destruct (py_min_list_spec _ _ Emin) as [Hin Hall].
  assert (Hpos : Forall (fun e => 0 <= e)
                   (all_elevations (foldl (lower_pit_z min_z) h refs)
                      (map (fun p => set_z p (z p - min_z)) sp) pit_segs)).
  { unfold all_elevations. fold refs. apply Forall_app. split.
    - rewrite List.map_map. apply Forall_fmap, Forall_forall.
      intros p Hp. simpl.
      assert (min_z <= z p); [|lra].
      apply (proj1 (Forall_forall _ _) Hall). apply elem_of_app. left.
      by apply list_elem_of_fmap_2.
    - apply Forall_fmap, Forall_forall. intros r Hr. simpl.
      rewrite (lowered_point_z _ _ _ _ Hnd Hr).
      destruct (h_points h !! r ≫= pt_z) as [v|] eqn:Ev; [|lra].
      assert (min_z <= v); [|lra].
      apply (proj1 (Forall_forall _ _) Hall). apply elem_of_app. right.
      unfold pit_z_values. apply list_elem_of_omap. exists r. auto. }
  split; [|exact Hpos].
  apply py_min_list_zero; [|exact Hpos].
  unfold all_elevations. fold refs.
  apply elem_of_app in Hin as [Hin | Hin]; apply elem_of_app.
  - left. apply list_elem_of_fmap in Hin as (p & -> & Hp).
    rewrite List.map_map. apply list_elem_of_fmap.
    exists p. split; [simpl; lra | exact Hp].
  - right. unfold pit_z_values in Hin.
    apply list_elem_of_omap in Hin as (r & Hr & Hz).
    apply list_elem_of_fmap. exists r. split; [|exact Hr].
    rewrite (lowered_point_z _ _ _ _ Hnd Hr), Hz. lra.
Qed.

Lemma normalized_elevation_min_zero_witness :
  py_min_list
    (all_elevations
       (normalize_elevation Examples.surveyed_heap Examples.hill
                            [Examples.pit_path]).1
       (normalize_elevation Examples.surveyed_heap Examples.hill
                            [Examples.pit_path]).2
       [Examples.pit_path]) = Some 0
  /\ Forall (fun e => 0 <= e)
       (all_elevations
          (normalize_elevation Examples.surveyed_heap Examples.hill
                               [Examples.pit_path]).1
          (normalize_elevation Examples.surveyed_heap Examples.hill
                               [Examples.pit_path]).2
          [Examples.pit_path]).
Proof.
  apply (normalized_elevation_min_zero Examples.surveyed_heap _ Examples.hill _
           [Examples.pit_path]).
  - discriminate.
  - simpl. apply NoDup_singleton.
  - apply surjective_pairing.
Defined.

(** *** What [finalize_track] writes *)

Lemma heap_eq (h1 h2 : heap) :
  h_points h1 = h_points h2 -> h_raw h1 = h_raw h2 -> h1 = h2.
Proof. destruct h1, h2. simpl. by intros -> ->. Qed.




Section FinalizeFrame.

Variable round6 : R -> R.
Variable gaussian_filter1d : list R -> list R.









(** [resample] only raises when a segment has fewer raw points than
    points. *)
Lemma resample_points_returns (h : heap) (w : R) (pts : list xy)
    (raws : list (loc * geo)) (prev : option (geo * R))
    (st : list spline_point * R) :
  (length pts <= length raws)%nat ->
  exists st', resample_points h w prev pts raws st = Ok st'.
Proof.
  revert raws prev st. induction pts as [|p pts IH]; intros raws prev st Hlen.
  - by eexists.
  - destruct raws as [|r raws]; [simpl in Hlen; lia|].
    cbn [resample_points]. apply IH. simpl in Hlen. lia.
Qed.

Lemma resample_one_returns (h : heap) (seg : segment) :
  (length (seg_points seg) <= length (seg_rawPoints seg))%nat ->
  exists st, resample h [seg] ([], 0) = Ok st.
Proof.
  intros Hlen. cbn [resample].
  destruct (resample_points_returns h (seg_width seg) (seg_points seg)
              (seg_rawPoints seg) None ([], 0) Hlen) as [st ->].
  by eexists.
Qed.

End FinalizeFrame.

(** *** The example track *)

Lemma small_track_anchor :
  anchor Examples.track_heap Examples.small_track None None = Ok (Some Examples.node1).
Proof. reflexivity. Qed.

Lemma small_track_segments :
  mapM (read_segment Examples.track_heap)
       (filter (fun p => is_track p = true) (paths Examples.small_track))
  = Ok [Examples.track_segment].
Proof. reflexivity. Qed.

(** It has one track segment, so the chain is that segment, one way
    round or the other. *)
Lemma small_track_stitch :
  exists reverse,
    stitch Examples.track_heap Examples.small_track Examples.node1
    = Ok (Some [orient reverse Examples.track_segment]).
Proof.
  unfold stitch. rewrite small_track_segments. cbn [mbind result_bind bind].
  cbn [find_start ends Examples.track_segment seg_points head last
       mbind result_bind bind].
  unfold nearer. cbn [lt_running fmap option_fmap option_map fst].
  match goal with
  | |- context [bool_decide ?P] => destruct (bool_decide P)
  end.
  - exists true. cbn [length order_segments lookup list_lookup].
    cbn [orient seg_points Examples.track_segment rev app last].
    unfold find_next. rewrite decide_True; [reflexivity|].
    apply elem_of_union_l. by apply elem_of_singleton.
  - exists false. cbn [length order_segments lookup list_lookup].
    cbn [orient seg_points Examples.track_segment rev app last].
    unfold find_next. rewrite decide_True; [reflexivity|].
    apply elem_of_union_l. by apply elem_of_singleton.
Qed.


(** *** The cumulative distance of a finalized track *)

Lemma ascending_snoc (l : list R) (b : R) :
  ascending l -> Forall (fun a => a <= b) l -> ascending (l ++ [b]).
Proof.
  induction l as [|u l IH]; intros Hasc Hall; [exact I|].
  apply Forall_cons in Hall as [Hu Hall].
  destruct l as [|v l]; simpl.
  - split; [exact Hu | exact I].
  - destruct Hasc as [Huv Hasc]. split; [exact Huv|]. by apply IH.
Qed.

Lemma int_of_below (d : R) : 0 <= d -> INR (int_of d) <= d.
Proof.
  intros Hd. unfold int_of. rewrite INR_IZR_INZ, Z2Nat.id.
  - apply Zfloor_bound.
  - apply Zfloor_lub. simpl. exact Hd.
Qed.

Lemma get_distance_nonneg (p q : xy) : 0 <= get_distance_meters p q.
Proof. apply sqrt_pos. Qed.

Lemma length_of_snoc (pts : list spline_point) (p : spline_point) :
  length_of (pts ++ [p]) = dist p.
Proof. unfold length_of. by rewrite last_snoc. Qed.

(** The interpolated points sit at [total + 1, total + 2, ...]. *)
Lemma steps_ascend (t : R) (n : nat) (l : list R) :
  ascending l -> Forall (fun v => v <= t) l ->
  ascending (l ++ map (fun s => t + INR s) (seq 1 n))
  /\ Forall (fun v => v <= t + INR n) (l ++ map (fun s => t + INR s) (seq 1 n)).
Proof.
  intros Hasc Hall. induction n as [|n [IHa IHf]].
  - simpl. rewrite app_nil_r. split; [exact Hasc|].
    eapply Forall_impl; [exact Hall|]. intros v Hv. simpl in *. lra.
  - rewrite seq_S, map_app, app_assoc. cbn [map].
    change (1 + n)%nat with (S n).
    assert (Hstep : t + INR n <= t + INR (S n)).
    { rewrite S_INR. lra. }
    split.
    + apply ascending_snoc; [exact IHa|].
      eapply Forall_impl; [exact IHf|]. cbv beta. intros v Hv. lra.
    + apply Forall_app. split.
      * eapply Forall_impl; [exact IHf|]. cbv beta. intros v Hv. lra.
      * constructor; [|constructor]. lra.
Qed.

Lemma interpolated_dist (last_p : spline_point) (p : xy) (d : R)
    (last_raw raw_p : geo * R) (total w : R) :
  map dist (interpolated last_p p d last_raw raw_p total w)
  = map (fun s => total + INR s) (seq 1 (int_of d)).
Proof. unfold interpolated. rewrite List.map_map. reflexivity. Qed.

(** One iteration of the inner resampling loop. *)
Lemma resample_step_measured (h : heap) (w : R) (prev : option (geo * R))
    (p : xy) (r : loc * geo) (st : list spline_point * R) :
  measured st ->
  let raw_p := raw_view h r in
  let st1 :=
    match last st.1 with
    | None => st
    | Some last_p =>
        let last_raw := default raw_p prev in
        let d := get_distance_meters (sp_xy last_p) p in
        let added :=
          if bool_decide (d > 1)
          then interpolated last_p p d last_raw raw_p st.2 w
          else [] in
        (st.1 ++ added, st.2 + d)
    end in
  let vertex :=
    {| x := px p; y := py p; z := raw_p.2;
       sp_lat := lat raw_p.1; sp_lon := lon raw_p.1;
       dist := st1.2; width := w |} in
  measured (st1.1 ++ [vertex], st1.2).
Proof.
  intros (Hasc & Hall & Hpos & Hlast). cbv zeta.
  set (raw_p := raw_view h r).
  assert (Hst1 : exists pts' total',
            match last st.1 with
            | None => st
            | Some last_p =>
                (st.1 ++ (if bool_decide (get_distance_meters (sp_xy last_p) p > 1)
                          then interpolated last_p p
                                 (get_distance_meters (sp_xy last_p) p)
                                 (default raw_p prev) raw_p st.2 w
                          else []),
                 st.2 + get_distance_meters (sp_xy last_p) p)
            end = (pts', total')
            /\ ascending (map dist pts')
            /\ Forall (fun v => v <= total') (map dist pts')
            /\ 0 <= total').
  { destruct (last st.1) as [last_p|].
    - set (d := get_distance_meters (sp_xy last_p) p).
      pose proof (get_distance_nonneg (sp_xy last_p) p) as Hd. fold d in Hd.
      eexists _, _. split; [reflexivity|].
      destruct (bool_decide (d > 1)) eqn:E.
      + rewrite map_app, interpolated_dist.
        destruct (steps_ascend st.2 (int_of d) (map dist st.1) Hasc Hall)
          as [Ha Hf].
        split; [exact Ha|]. split; [|lra].
        eapply Forall_impl; [exact Hf|]. simpl. intros v Hv.
        pose proof (int_of_below d Hd). lra.
      + rewrite app_nil_r. split; [exact Hasc|]. split; [|lra].
        eapply Forall_impl; [exact Hall|]. simpl. intros v Hv. lra.
    - destruct st as [pts total]. eexists _, _. split; [reflexivity|]. auto. }
  destruct Hst1 as (pts' & total' & -> & Ha & Hf & Hp).
  unfold measured. cbn [fst snd].
  rewrite map_app. cbn [map dist].
  split; [by apply ascending_snoc|].
  split; [apply Forall_app; split; [exact Hf | constructor; [lra | constructor]]|].
  split; [exact Hp|]. right. apply length_of_snoc.
Qed.

Lemma resample_points_measured (h : heap) (w : R) (pts : list xy)
    (raws : list (loc * geo)) (prev : option (geo * R))
    (st st' : list spline_point * R) :
  measured st ->
  resample_points h w prev pts raws st = Ok st' ->
  measured st' /\ (pts <> [] \/ st.1 <> [] -> st'.1 <> []).
Proof.
  revert raws prev st. induction pts as [|p pts IH]; intros raws prev st Hm Hrun.
  - injection Hrun as <-. split; [exact Hm|]. intros [? | ?]; done.
  - destruct raws as [|r raws]; [discriminate|].
    cbn [resample_points] in Hrun.
    apply IH in Hrun as [Hm' Hne].
    + split; [exact Hm'|]. intros _. apply Hne. right.
      cbn [fst]. intros E. by apply app_nil in E as [_ ?].
    + apply resample_step_measured. exact Hm.
Qed.

Lemma resample_measured (h : heap) (segs : list segment)
    (st st' : list spline_point * R) :
  measured st ->
  resample h segs st = Ok st' ->
  measured st'
  /\ (st.1 <> [] \/ (exists seg rest, segs = seg :: rest /\ seg_points seg <> [])
      -> st'.1 <> []).
Proof.
  revert st. induction segs as [|seg segs IH]; intros st Hm Hrun.
  - injection Hrun as <-. split; [exact Hm|].
    intros [? | (seg & rest & ? & _)]; done.
  - cbn [resample] in Hrun.
    destruct (resample_points h (seg_width seg) None (seg_points seg)
                (seg_rawPoints seg) st) as [st1|] eqn:E; [|discriminate].
    cbn [mbind result_bind bind] in Hrun.
    destruct (resample_points_measured _ _ _ _ _ _ _ Hm E) as [Hm1 Hne1].
    destruct (IH _ Hm1 Hrun) as [Hm' Hne'].
    split; [exact Hm'|]. intros Hstart. apply Hne'. left. apply Hne1.
    destruct Hstart as [? | (seg' & rest & [= <- <-] & Hpts)]; auto.
Qed.

Lemma measured_start : measured ([], 0).
Proof. unfold measured. simpl. repeat split; auto; lra. Qed.

(** Stages that leave the ['dist'] entries alone. *)
Lemma measured_same_dist (pts pts' : list spline_point) (total : R) :
  map dist pts' = map dist pts -> measured (pts, total) -> measured (pts', total).
Proof.
  intros E (Hasc & Hall & Hpos & Hlast). unfold measured. cbn [fst snd] in *.
  rewrite E. repeat split; auto.
  destruct Hlast as [-> | Hlen].
  - left. by apply fmap_nil_inv in E.
  - right. unfold length_of in *. rewrite <- !fmap_last in *.
    change (dist <$> pts') with (map dist pts'). rewrite E. exact Hlen.
Qed.

Lemma imap_same_dist (f : nat -> spline_point -> spline_point)
    (pts : list spline_point) :
  (forall i p, dist (f i p) = dist p) -> map dist (imap f pts) = map dist pts.
Proof.
  revert f. induction pts as [|p pts IH]; intros f Hf; [reflexivity|].
  cbn [imap map]. rewrite Hf. f_equal. apply IH. intros i q. apply Hf.
Qed.

Lemma normalize_same_dist (h : heap) (pts : list spline_point) (pit_segs : list path) :
  map dist (normalize_elevation h pts pit_segs).2 = map dist pts.
Proof.
  unfold normalize_elevation. destruct pts as [|p pts]; [reflexivity|].
  destruct py_min_list; [|reflexivity]. cbn [snd].
  rewrite List.map_map. reflexivity.
Qed.

Lemma ascending_scaled (k : R) (l : list R) :
  0 <= k -> ascending l -> ascending (map (fun v => v * k) l).
Proof.
  intros Hk. induction l as [|a [|b l] IH]; intros Hasc; try exact I.
  destruct Hasc as [Hab Hasc]. split; [nra | by apply IH].
Qed.

Lemma measured_scaled (k : R) (pts : list spline_point) (total : R) :
  0 <= k -> measured (pts, total) ->
  measured (map (scale_point k) pts, total * k).
Proof.
  intros Hk (Hasc & Hall & Hpos & Hlast). unfold measured. cbn [fst snd] in *.
  assert (E : map dist (map (scale_point k) pts) = map (fun v => v * k) (map dist pts)).
  { rewrite !List.map_map. reflexivity. }
  rewrite E. split; [by apply ascending_scaled|]. split.
  - apply Forall_fmap. eapply Forall_impl; [exact Hall|].
    intros v Hv. simpl. nra.
  - split; [nra|]. destruct Hlast as [-> | Hlen]; [by left | right].
    unfold length_of in *. change (map (scale_point k) pts) with (scale_point k <$> pts).
    rewrite fmap_last.
    destruct (last pts) as [p|]; simpl in *; rewrite <- Hlen; [reflexivity | lra].
Qed.

Lemma recompute_from_measured (prev : spline_point) (total : R)
    (pts : list spline_point) :
  ascending (total :: map dist (recompute_from prev total pts).1)
  /\ last (total :: map dist (recompute_from prev total pts).1)
     = Some (recompute_from prev total pts).2.
Proof.
  revert prev total. induction pts as [|p pts IH]; intros prev total.
  - simpl. auto.
  - cbn [recompute_from].
    set (total' := total + get_distance_meters (sp_xy prev) (sp_xy p)).
    destruct (IH p total') as [Ha Hl].
    destruct (recompute_from p total' pts) as [rest final]. cbn [fst snd] in *.
    cbn [map dist set_dist]. split.
    + split; [|exact Ha].
      pose proof (get_distance_nonneg (sp_xy prev) (sp_xy p)). unfold total'. lra.
    + exact Hl.
Qed.

Lemma recompute_dist_measured (pts : list spline_point) :
  measured (recompute_dist pts)
  /\ (pts <> [] -> (recompute_dist pts).1 <> []).
Proof.
  destruct pts as [|p0 pts]; simpl.
  - split; [apply measured_start | done].
  - destruct (recompute_from_measured p0 0 pts) as [Ha Hl].
    destruct (recompute_from p0 0 pts) as [rest final]. cbn [fst snd] in *.
    split; [|done]. unfold measured. cbn [fst snd map dist set_dist].
    assert (Hall : Forall (fun v => v <= final) (0 :: map dist rest)).
    { apply Forall_forall. intros v Hv.
      by apply (ascending_below_last (0 :: map dist rest)). }
    split; [exact Ha|]. split; [exact Hall|].
    split; [by apply Forall_cons in Hall as [? _]|].
    right. unfold length_of. rewrite <- fmap_last.
    change (dist <$> set_dist p0 0 :: rest) with (0 :: map dist rest).
    by rewrite Hl.
Qed.

Lemma rotation_nonempty (i : nat) (pts : list spline_point) :
  pts <> [] -> drop i pts ++ take i pts <> [].
Proof.
  intros Hne E. apply app_nil in E as [E1 E2].
  rewrite <- (take_drop i pts), E1, E2 in Hne. done.
Qed.

(** Scaling and rotation keep the distances in order. *)
Lemma scale_and_rotate_measured (pts : list spline_point) (total : R)
    (miles : option R) (unscaled_sf : xy) (pl : placed) :
  measured (pts, total) -> pts <> [] ->
  scale_and_rotate pts total miles unscaled_sf = Ok pl ->
  measured (pl_points pl, pl_total_distance pl) /\ pl_points pl <> [].
Proof.
  intros Hm Hne Hrun. unfold scale_and_rotate in Hrun.
  assert (Hscaled : exists pts1 total1 k,
            scale_track pts total miles = Ok (pts1, total1, k)
            /\ measured (pts1, total1) /\ pts1 <> []).
  { unfold scale_track in *.
    destruct miles as [m|]; [|by eexists _, _, _].
    destruct (bool_decide (m > 0)) eqn:Em; [|by eexists _, _, _].
    apply bool_decide_eq_true_1 in Em.
    destruct (bool_decide (total = 0)) eqn:Et; [discriminate|].
    apply bool_decide_eq_false_1 in Et.
    eexists _, _, _. split; [reflexivity|].
    assert (0 < total) by (destruct Hm as (_ & _ & ? & _); simpl in *; lra).
    split.
    - apply measured_scaled; [|exact Hm].
      apply Rlt_le, Rdiv_lt_0_compat; [|assumption].
      unfold METERS_PER_MILE. lra.
    - intros E. by apply fmap_nil_inv in E. }
  destruct Hscaled as (pts1 & total1 & k & E & Hm1 & Hne1).
  rewrite E in Hrun. cbn [mbind result_bind bind] in Hrun.
  set (i := find_sf_index _ _) in Hrun.
  destruct (rotate_to_sf pts1 total1 i) as [pts2 total2] eqn:Er.
  injection Hrun as <-. cbn [pl_points pl_total_distance].
  unfold rotate_to_sf in Er. destruct i as [|i].
  - injection Er as <- <-. auto.
  - destruct (recompute_dist_measured (drop (S i) pts1 ++ take (S i) pts1))
      as [Hm2 Hne2].
    rewrite Er in Hm2, Hne2. split; [exact Hm2|].
    apply Hne2. by apply rotation_nonempty.
Qed.

(** The chain that [stitch] returns starts with a segment that has
    points. *)
Lemma nearer_index (t : xy) (i : nat) (hd tl : xy) (st : option (R * nat * bool))
    (d : R) (idx : nat) (rv : bool) :
  nearer t i hd tl st = Some (d, idx, rv) ->
  idx = i \/ exists d0 rv0, st = Some (d0, idx, rv0).
Proof.
  unfold nearer.
  repeat match goal with
         | |- context [if ?b then _ else _] => destruct b
         end; intros E; try (injection E as <- <- <-; by left);
    right; by eexists _, _.
Qed.

Lemma find_start_index (sf : xy) (segs : list segment) (i : nat)
    (st : option (R * nat * bool)) (d : R) (idx : nat) (rv : bool) :
  find_start sf i segs st = Ok (Some (d, idx, rv)) ->
  Forall (fun s => seg_points s <> []) segs
  /\ ((i <= idx < i + length segs)%nat \/ exists d0 rv0, st = Some (d0, idx, rv0)).
Proof.
  revert i st. induction segs as [|s segs IH]; intros i st Hrun.
  - injection Hrun as ->. split; [constructor|]. right. by eexists _, _.
  - cbn [find_start] in Hrun. unfold ends in Hrun.
    destruct (seg_points s) as [|p0 pts] eqn:Ep; [discriminate|].
    destruct (last (p0 :: pts)) as [tl|] eqn:El; [|discriminate].
    cbn [head mbind result_bind bind] in Hrun.
    apply IH in Hrun as [Hall Hidx].
    split; [constructor; [by rewrite Ep | exact Hall]|].
    destruct Hidx as [Hr | (d0 & rv0 & E)].
    + left. simpl. lia.
    + apply nearer_index in E as [-> | E]; [left; simpl; lia | by right].
Qed.

Lemma order_segments_first (segs : list segment) (fuel idx : nat)
    (used : gset nat) (rv : bool) (seg : segment) :
  segs !! idx = Some seg ->
  exists rest, order_segments (S fuel) segs used idx rv = orient rv seg :: rest.
Proof.
  intros Hseg. cbn [order_segments]. rewrite Hseg.
  destruct (last (seg_points (orient rv seg))); [|by eexists].
  destruct find_next as [[[gap next] nrv]|]; [|by eexists].
  destruct bool_decide; by eexists.
Qed.

Lemma stitch_first_segment (h : heap) (td : track_data) (sf : geo)
    (segs : list segment) :
  stitch h td sf = Ok (Some segs) ->
  exists seg rest, segs = seg :: rest /\ seg_points seg <> [].
Proof.
  unfold stitch.
  destruct (mapM (read_segment h) _) as [ts|]; [|discriminate].
  cbn [mbind result_bind bind].
  destruct ts as [|s0 ts']; [discriminate|].
  set (all := s0 :: ts').
  destruct (find_start _ 0 all None) as [[[[d idx] rv]|]|] eqn:Es;
    cbn [mbind result_bind bind]; try discriminate.
  apply find_start_index in Es as [Hall [Hidx | (d0 & rv0 & E)]]; [|discriminate].
  destruct (lookup_lt_is_Some_2 all idx) as [seg Hseg]; [lia|].
  change (length all) with (S (length ts')).
  destruct (order_segments_first all (length ts') idx ∅ rv seg Hseg) as [rest Hord].
  rewrite Hord. intros [= <-].
  exists (orient rv seg), rest. split; [reflexivity|].
  pose proof (proj1 (Forall_lookup _ _) Hall idx seg Hseg) as Hne.
  unfold orient. cbn [seg_points]. destruct rv; [|exact Hne].
  intros E. apply Hne. apply (f_equal length) in E. rewrite length_rev in E.
  destruct (seg_points seg); [reflexivity | discriminate].
Qed.

Section FinalizedDistances.

Variable round6 : R -> R.
Variable gaussian_filter1d : list R -> list R.

Lemma smooth_same_dist (pts : list spline_point) :
  map dist (smooth_elevation gaussian_filter1d pts) = map dist pts.
Proof.
  unfold smooth_elevation. destruct (10 <? length pts)%nat; [|reflexivity].
  apply imap_same_dist. reflexivity.
Qed.

Lemma same_dist_nonempty (pts pts' : list spline_point) :
  map dist pts' = map dist pts -> pts <> [] -> pts' <> [].
Proof. intros E Hne ->. apply Hne. symmetry in E. by apply fmap_nil_inv in E. Qed.

Lemma finish_measured (h h' : heap) (td : track_data) (sf : geo)
    (ordered_segments : list segment) (s1 s2 miles : option R)
    (fetch : option fetcher) (out : finalized) :
  (exists seg rest, ordered_segments = seg :: rest /\ seg_points seg <> []) ->
  finish round6 gaussian_filter1d h td sf ordered_segments s1 s2 miles fetch
  = (h', Ok (Some out)) ->
  splinePoints out <> []
  /\ measured (splinePoints out, totalLen out)
  /\ (s1EndIndex out, s2EndIndex out) = sector_indices (splinePoints out) s1 s2.
Proof.
  intros Hfirst. unfold finish.
  destruct (resample h ordered_segments ([], 0)) as [st0|]; [|discriminate].
  destruct (resample (elevate_track round6 fetch h ordered_segments) _ _)
    as [[sp total]|] eqn:Eres; [|discriminate].
  destruct (resample_measured _ _ _ _ measured_start Eres) as [Hm Hne].
  cbn [fst snd] in Hne. specialize (Hne (or_intror Hfirst)).
  pose proof (normalize_same_dist
                (elevate_pits round6 fetch
                   (elevate_track round6 fetch h ordered_segments)
                   (filter (fun p => is_pit p = true) (paths td)))
                (smooth_elevation gaussian_filter1d sp)
                (filter (fun p => is_pit p = true) (paths td))) as Hnorm.
  destruct (normalize_elevation _ _ _) as [h3 sp3]. cbn [snd] in Hnorm.
  rewrite smooth_same_dist in Hnorm.
  destruct (scale_and_rotate sp3 total miles _) as [pl|] eqn:Epl; [|discriminate].
  destruct (scale_and_rotate_measured sp3 total miles _ pl
              (measured_same_dist sp sp3 total Hnorm Hm)
              (same_dist_nonempty sp sp3 Hnorm Hne) Epl) as [Hm' Hne'].
  destruct (sector_indices (pl_points pl) s1 s2) as [i1 i2] eqn:Esec.
  intros [= _ <-]. cbn [splinePoints totalLen s1EndIndex s2EndIndex].
  auto.
Qed.

(** Every returned track has points, its cumulative distance never
    decreases and ends at the reported total length, and its sector
    indices are those of [sector_indices]. *)
Lemma finalize_track_measured (h h' : heap) (track : option track_data)
    (sf_lat sf_lon s1 s2 s3 miles : option R) (fetch : option fetcher)
    (out : finalized) :
  finalize_track round6 gaussian_filter1d h track sf_lat sf_lon s1 s2 s3 miles fetch
  = (h', Ok (Some out)) ->
  splinePoints out <> []
  /\ ascending (map dist (splinePoints out))
  /\ length_of (splinePoints out) = totalLen out
  /\ (s1EndIndex out, s2EndIndex out) = sector_indices (splinePoints out) s1 s2.
Proof.
  unfold finalize_track.
  destruct track as [td|]; [|discriminate].
  destruct (paths td); [discriminate|].
  destruct (anchor h td sf_lat sf_lon) as [[sf|]|]; try discriminate.
  destruct (stitch h td sf) as [[segs|]|] eqn:Es; try discriminate.
  intros Hrun.
  destruct (finish_measured _ _ _ _ _ _ _ _ _ _ (stitch_first_segment _ _ _ _ Es) Hrun)
    as (Hne & (Hasc & _ & _ & Hlast) & Hsec).
  repeat split; auto. by destruct Hlast.
Qed.

End FinalizedDistances.

(** *** Sector indices of a finalized track *)

Section FinalizedSectors.

Variable round6 : R -> R.
Variable gaussian_filter1d : list R -> list R.

(** C7, as the code has it.  For every returned track with [N] spline
    points: if both sector lengths are positive and their sum is at most
    the total track length, then [0 <= s1EndIndex <= s2EndIndex < N],
    with [s1EndIndex] the first index whose cumulative distance reaches
    the sector-1 length and [s2EndIndex] the first one that reaches the
    sum of both lengths; and an index is [-1] exactly when its sector
    length is not positive or the track is shorter than its cumulative
    target. *)
Theorem finalized_sector_indices_ordered (h h' : heap)
    (track : option track_data)
    (sf_lat sf_lon sector1_inches sector2_inches sector3_inches miles : option R)
    (fetch : option fetcher) (out : finalized) :
  finalize_track round6 gaussian_filter1d h track sf_lat sf_lon
                 sector1_inches sector2_inches sector3_inches miles fetch
  = (h', Ok (Some out)) ->
  let s1m := sector_meters sector1_inches in
  let s2m := sector_meters sector2_inches in
  (0 < s1m -> 0 < s2m -> s1m + s2m <= totalLen out ->
   (0 <= s1EndIndex out <= s2EndIndex out)%Z
   /\ (s2EndIndex out < Z.of_nat (length (splinePoints out)))%Z
   /\ first_at s1m (splinePoints out) (s1EndIndex out)
   /\ first_at (s1m + s2m) (splinePoints out) (s2EndIndex out))
  /\ (s1EndIndex out = (-1)%Z <-> s1m <= 0 \/ totalLen out < s1m)
  /\ (s2EndIndex out = (-1)%Z <-> s2m <= 0 \/ totalLen out < s1m + s2m).
Proof.
  intros Hrun.
  destruct (finalize_track_measured _ _ _ _ _ _ _ _ _ _ _ _ _ Hrun)
    as (Hne & Hasc & Hlen & Hsec).
  rewrite <- Hlen.
  apply (sector_indices_ordered (splinePoints out) sector1_inches sector2_inches);
    auto.
Qed.

(** A track whose single track segment has as many raw points as points
    is returned when no target length is asked for. *)
Lemma finish_returns_unscaled (h : heap) (td : track_data) (sf : geo)
    (seg : segment) (s1 s2 : option R) :
  (length (seg_points seg) <= length (seg_rawPoints seg))%nat ->
  exists h' out,
    finish round6 gaussian_filter1d h td sf [seg] s1 s2 None None
    = (h', Ok (Some out)).
Proof.
  intros Hlen. unfold finish.
  destruct (resample_one_returns h seg Hlen) as [[sp total] Hres].
  cbn [elevate_track]. rewrite Hres.
  cbn [elevate_pits].
  destruct (normalize_elevation _ _ _) as [h3 sp3].
  unfold scale_and_rotate, scale_track. cbn [mbind result_bind bind].
  destruct (rotate_to_sf _ _ _) as [pts' total'].
  destruct (sector_indices _ _ _) as [i1 i2].
  eexists _, _. reflexivity.
Qed.

End FinalizedSectors.

Lemma small_track_finalized (s1 s2 : option R) :
  exists h' out,
    finalize_track Examples.exact_round Examples.no_smoothing Examples.track_heap
      (Some Examples.small_track) None None s1 s2 None None None
    = (h', Ok (Some out)).
Proof.
  unfold finalize_track. cbn [paths Examples.small_track].
  rewrite small_track_anchor.
  destruct small_track_stitch as [reverse ->].
  apply finish_returns_unscaled. destruct reverse; simpl; lia.
Qed.

Lemma finalized_sector_indices_ordered_witness :
  exists h' out,
    finalize_track Examples.exact_round Examples.no_smoothing Examples.track_heap
      (Some Examples.small_track) None None (Some 20) (Some 10) None None None
    = (h', Ok (Some out))
    /\ (0 < sector_meters (Some 20) -> 0 < sector_meters (Some 10) ->
        sector_meters (Some 20) + sector_meters (Some 10) <= totalLen out ->
        (0 <= s1EndIndex out <= s2EndIndex out)%Z
        /\ (s2EndIndex out < Z.of_nat (length (splinePoints out)))%Z
        /\ first_at (sector_meters (Some 20)) (splinePoints out) (s1EndIndex out)
        /\ first_at (sector_meters (Some 20) + sector_meters (Some 10))
                    (splinePoints out) (s2EndIndex out))
    /\ (s1EndIndex out = (-1)%Z
        <-> sector_meters (Some 20) <= 0 \/ totalLen out < sector_meters (Some 20))
    /\ (s2EndIndex out = (-1)%Z
        <-> sector_meters (Some 10) <= 0
            \/ totalLen out < sector_meters (Some 20) + sector_meters (Some 10)).
Proof.
  destruct (small_track_finalized (Some 20) (Some 10)) as (h' & out & Hrun).
  exists h', out. split; [exact Hrun|].
  exact (finalized_sector_indices_ordered Examples.exact_round Examples.no_smoothing
           Examples.track_heap h' (Some Examples.small_track) None None
           (Some 20) (Some 10) None None None out Hrun).
Defined.

Lemma unit_step_a : get_distance_meters {| px := 0; py := 0 |} {| px := 1; py := 0 |} = 1.
Proof. rewrite distance_same_y by reflexivity. simpl. apply rabs_value; lra. Qed.

Lemma unit_step_b : get_distance_meters {| px := 1; py := 0 |} {| px := 0; py := 0 |} = 1.
Proof. rewrite distance_same_y by reflexivity. simpl. apply rabs_value; lra. Qed.

(** The resampled example track: its two vertices, one metre apart. *)
Lemma small_track_resampled (h : heap) (reverse : bool) :
  exists v0 v1,
    resample h [orient reverse Examples.track_segment] ([], 0) = Ok ([v0; v1], 0 + 1)
    /\ get_distance_meters (sp_xy v0) (sp_xy v1) = 1
    /\ get_distance_meters (sp_xy v1) (sp_xy v0) = 1.
Proof.
  destruct reverse.
  - cbn [resample orient Examples.track_segment seg_points seg_rawPoints seg_width
         rev app resample_points last fst snd mbind result_bind bind].
    unfold sp_xy. cbn [x y px py].
    rewrite unit_step_b. rdecide. cbn [app].
    eexists _, _. split; [reflexivity|].
    unfold sp_xy. cbn [x y px py]. split; [apply unit_step_b | apply unit_step_a].
  - cbn [resample orient Examples.track_segment seg_points seg_rawPoints seg_width
         rev app resample_points last fst snd mbind result_bind bind].
    unfold sp_xy. cbn [x y px py].
    rewrite unit_step_a. rdecide. cbn [app].
    eexists _, _. split; [reflexivity|].
    unfold sp_xy. cbn [x y px py]. split; [apply unit_step_a | apply unit_step_b].
Qed.

Lemma normalize_same_xy (h : heap) (pts : list spline_point) (pit_segs : list path) :
  map sp_xy (normalize_elevation h pts pit_segs).2 = map sp_xy pts.
Proof.
  unfold normalize_elevation. destruct pts as [|p pts]; [reflexivity|].
  destruct py_min_list; [|reflexivity]. cbn [snd].
  rewrite List.map_map. reflexivity.
Qed.

(** Whatever the orientation and the start/finish index, the example
    track is 1 m long. *)
Lemma small_track_length (h' : heap) (out : finalized) (s1 s2 : option R) :
  finalize_track Examples.exact_round Examples.no_smoothing Examples.track_heap
    (Some Examples.small_track) None None s1 s2 None None None
  = (h', Ok (Some out)) ->
  totalLen out = 1.
Proof.
  unfold finalize_track. cbn [paths Examples.small_track].
  rewrite small_track_anchor.
  destruct small_track_stitch as [reverse ->].
  unfold finish.
  destruct (small_track_resampled Examples.track_heap reverse)
    as (v0 & v1 & Hres & Hd01 & Hd10).
  cbn [elevate_track elevate_pits]. rewrite Hres.
  unfold smooth_elevation. cbn [length Nat.ltb Nat.leb].
  pose proof (normalize_same_xy Examples.track_heap [v0; v1]
                (filter (fun p => is_pit p = true)
                        (paths {| paths := [Examples.track_path; Examples.pit_path];
                                  center := Examples.node1 |}))) as Hxy.
  destruct (normalize_elevation _ _ _) as [h3 sp3]. cbn [snd map] in Hxy.
  destruct sp3 as [|w0 [|w1 [|w2 sp3]]]; try discriminate.
  cbn [map] in Hxy.
  assert (Hw0 : sp_xy w0 = sp_xy v0) by congruence.
  assert (Hw1 : sp_xy w1 = sp_xy v1) by congruence.
  clear Hxy.
  unfold scale_and_rotate, scale_track. cbn [mbind result_bind bind].
  destruct (find_sf_index _ _) as [|[|k]].
  - cbn [rotate_to_sf]. destruct (sector_indices _ _ _).
    intros [= _ <-]. cbn [totalLen pl_total_distance]. lra.
  - cbn [rotate_to_sf drop take app recompute_dist recompute_from].
    destruct (sector_indices _ _ _).
    intros [= _ <-]. cbn [totalLen pl_total_distance].
    rewrite Hw0, Hw1, Hd10. lra.
  - cbn [rotate_to_sf drop take]. rewrite drop_nil, take_nil.
    cbn [app recompute_dist recompute_from].
    destruct (sector_indices _ _ _).
    intros [= _ <-]. cbn [totalLen pl_total_distance].
    rewrite Hw0, Hw1, Hd01. lra.
Qed.

(** C7 as stated fails: on the 1 m example track, sectors of 20 and 30
    inches (0.508 m and 0.762 m) are positive and shorter than the track,
    yet the sector-2 end index is [-1], below the sector-1 end index. *)
Lemma sector_order_fails_when_sum_exceeds_length :
  exists h' out,
    finalize_track Examples.exact_round Examples.no_smoothing Examples.track_heap
      (Some Examples.small_track) None None (Some 20) (Some 30) None None None
    = (h', Ok (Some out))
    /\ 0 < sector_meters (Some 20) < totalLen out
    /\ 0 < sector_meters (Some 30) < totalLen out
    /\ (0 <= s1EndIndex out)%Z
    /\ s2EndIndex out = (-1)%Z.
Proof.
  destruct (small_track_finalized (Some 20) (Some 30)) as (h' & out & Hrun).
  exists h', out. split; [exact Hrun|].
  pose proof (small_track_length _ _ _ _ Hrun) as Hlen.
  destruct (finalize_track_measured _ _ _ _ _ _ _ _ _ _ _ _ _ Hrun)
    as (Hne & Hasc & Hlast & Hsec).
  rewrite Hlen in *.
  assert (H20 : sector_meters (Some 20) = 508 / 1000).
  { unfold sector_meters, METERS_PER_INCH. simpl. lra. }
  assert (H30 : sector_meters (Some 30) = 762 / 1000).
  { unfold sector_meters, METERS_PER_INCH. simpl. lra. }
  split; [lra|]. split; [lra|].
  unfold sector_indices in Hsec. rewrite H20, H30 in Hsec.
  rewrite !bool_decide_eq_true_2 in Hsec by lra.
  injection Hsec as H1 H2. split.
  - assert (Hf : first_at (508 / 1000) (splinePoints out) (s1EndIndex out)).
    { apply first_reaching_found; [by rewrite H1|].
      rewrite H1. intros E.
      apply (none_reaching_iff _ _ Hne Hasc) in E. lra. }
    apply first_at_bounds in Hf. lia.
  - rewrite H2. apply (none_reaching_iff _ _ Hne Hasc). lra.
Qed.

End FinalizeProps.

(** ** Which inputs are written to *)

Module FrameProps.
Import Py TrackProcessor Spec FinalizeProps.
Local Open Scope R_scope.

(** *** What the optimal-line object writes *)




Section Frame.

Variable round6 : R -> R.
Variable smooth : list R -> list R.
Variable tck : Type.
Variable splprep : list R -> list R -> R -> option tck.
Variable splev : list R -> tck -> nat -> list R * list R.
Variable gaussian_filter1d : list R -> R -> list R.


End Frame.



End FrameProps.

(* ===================================================================== *)
(** * Further properties of the code *)
(* ===================================================================== *)

Module GripChecks.
Import Py Grip.
Local Open Scope Q_scope.

Lemma find_missing_key (vehicle : config) (keys : list string) :
  List.find (fun k => bool_decide (vehicle !! k = None)) keys = None
  <-> forall k, k ∈ keys -> is_Some (vehicle !! k).
Proof.
  split.
  - intros Hfind k Hk. apply list_elem_of_In in Hk.
    pose proof (List.find_none _ _ Hfind k Hk) as Hb. cbn beta in Hb.
    apply bool_decide_eq_false_1 in Hb.
    destruct (vehicle !! k); [by eexists | done].
  - intros Hall. destruct (List.find _ keys) as [k|] eqn:E; [|reflexivity].
    apply List.find_some in E as [Hin Hb]. cbn beta in Hb.
    apply bool_decide_eq_true_1 in Hb.
    destruct (Hall k) as [v Hv]; [by apply list_elem_of_In | congruence].
Qed.





Lemma validated_lookups (vehicle weather : config) :
  validate_configs vehicle weather = Ok tt ->
  (exists dry, vehicle !! "tire_friction_dry"%string = Some dry)
  /\ exists track_temp, weather !! "track_temp"%string = Some track_temp.
Proof.
  unfold validate_configs.
  pose proof (find_missing_key vehicle required_vehicle_keys) as Hfind.
  destruct (List.find _ required_vehicle_keys) as [k|]; [discriminate|].
  destruct (weather !! "track_temp"%string) as [t|]; [|discriminate].
  intros _. split; [|by eexists].
  apply Hfind; [reflexivity|]. unfold required_vehicle_keys. apply list_elem_of_here.
Qed.

(** X2.  Once [_validate_inputs] has accepted the configurations,
    [_calculate_tire_grip] returns a grip: the constructor never fails
    with a [KeyError] from the grip model. *)
Theorem grip_defined_after_validation (vehicle weather : config) :
  validate_configs vehicle weather = Ok tt ->
  exists grip, calculate_tire_grip vehicle weather = Ok grip.
Proof.
  intros Hv. destruct (validated_lookups _ _ Hv) as [[dry Hd] [t Ht]].
  rewrite (GripProps.calculate_tire_grip_unfold _ _ dry t Hd Ht). by eexists.
Qed.

Lemma grip_defined_after_validation_witness :
  validate_configs get_default_vehicle_config get_default_weather_config = Ok tt
  /\ exists grip,
       calculate_tire_grip get_default_vehicle_config get_default_weather_config
       = Ok grip.
Proof.
  split; [reflexivity|].
  apply (grip_defined_after_validation
           get_default_vehicle_config get_default_weather_config).
  reflexivity.
Defined.

(** X3.  The grip only reads ['track_temp'] and ['rainfall'] of the
    weather: two weather records that agree on these two entries give the
    same result, whatever their wind, humidity or air temperature. *)
Theorem grip_reads_only_track_temp_and_rainfall (vehicle w1 w2 : config) :
  w1 !! "track_temp"%string = w2 !! "track_temp"%string ->
  w1 !! "rainfall"%string = w2 !! "rainfall"%string ->
  calculate_tire_grip vehicle w1 = calculate_tire_grip vehicle w2.
Proof.
  intros Ht Hr. unfold calculate_tire_grip, getitem, get.
  rewrite Ht, Hr. reflexivity.
Qed.

Lemma grip_reads_only_track_temp_and_rainfall_witness :
  MoreExamples.windy <> get_default_weather_config
  /\ calculate_tire_grip get_default_vehicle_config get_default_weather_config
     = calculate_tire_grip get_default_vehicle_config MoreExamples.windy.
Proof.
  split.
  - intros E. apply (f_equal (fun m => m !! "wind_speed"%string)) in E.
    vm_compute in E. discriminate.
  - apply (grip_reads_only_track_temp_and_rainfall
             get_default_vehicle_config get_default_weather_config
             MoreExamples.windy); reflexivity.
Defined.

Lemma get_after_track_temp (weather : config) (t dflt : Q) :
  get (<["track_temp"%string := t]> weather) "rainfall" dflt
  = get weather "rainfall" dflt.
Proof. unfold get. by rewrite lookup_insert_ne. Qed.

(** X4.  With non-negative friction values, the track temperature can
    only cost grip, and at most 60% of it: the grip lies between 0.4
    times and 1 times the grip of the same car in the same rain with the
    track at the optimal tire temperature. *)
Theorem grip_within_temperature_band (vehicle weather : config) (dry : Q) :
  vehicle !! "tire_friction_dry"%string = Some dry ->
  is_Some (weather !! "track_temp"%string) ->
  0 <= dry ->
  0 <= get vehicle "tire_friction_wet" 0.70 ->
  0 <= get vehicle "tire_friction_intermediate" 1.00 ->
  exists grip best,
    calculate_tire_grip vehicle weather = Ok grip
    /\ calculate_tire_grip vehicle
         (<["track_temp"%string := get vehicle "optimal_tire_temp" 85]> weather)
       = Ok best
    /\ 0.4 * best <= grip <= best.
Proof.
  intros Hd [t Ht] Hdry Hwet Hint.
  rewrite (GripProps.calculate_tire_grip_unfold _ _ dry t Hd Ht).
  rewrite (GripProps.calculate_tire_grip_unfold _ _ dry
             (get vehicle "optimal_tire_temp" 85) Hd (lookup_insert_eq _ _ _)).
  rewrite get_after_track_temp.
  eexists _, _. split; [reflexivity|]. split; [reflexivity|].
  pose proof (GripProps.temp_factor_bounds t (get vehicle "optimal_tire_temp" 85))
    as [Hlo Hhi].
  rewrite (GripProps.temp_factor_at_optimum
             (get vehicle "optimal_tire_temp" 85)
             (get vehicle "optimal_tire_temp" 85)) by reflexivity.
  set (tf := temp_factor t _) in *.
  set (wet := get vehicle "tire_friction_wet" 0.70) in *.
  set (inter := get vehicle "tire_friction_intermediate" 1.00) in *.
  repeat destruct Qlt_le_dec; nra.
Qed.

Lemma grip_within_temperature_band_witness :
  exists grip best,
    calculate_tire_grip get_default_vehicle_config MoreExamples.cold_rain = Ok grip
    /\ calculate_tire_grip get_default_vehicle_config
         (<["track_temp"%string := get get_default_vehicle_config "optimal_tire_temp" 85]>
            MoreExamples.cold_rain)
       = Ok best
    /\ 0.4 * best <= grip <= best.
Proof.
  apply (grip_within_temperature_band
           get_default_vehicle_config MoreExamples.cold_rain 1.40).
  - reflexivity.
  - by eexists.
  - vm_compute. discriminate.
  - vm_compute. discriminate.
  - vm_compute. discriminate.
Defined.

End GripChecks.

Module WeatherChecks.
Import Py OptimalLine.

Lemma read_after_write (h : heap) (l : loc) (d : Grip.config) :
  read_dict (<[l := ODict d]> h) l = Ok d.
Proof. unfold read_dict. by rewrite lookup_insert_eq. Qed.

(** X5.  [update_weather] is idempotent: applying the same update a
    second time changes neither the weather dictionary nor the grip. *)
Theorem update_weather_idempotent (h h1 : heap) (self self1 : generator)
    (new_weather : Grip.config) :
  update_weather h self new_weather = (h1, Ok self1) ->
  update_weather h1 self1 new_weather = (h1, Ok self1).
Proof.
  unfold update_weather.
  destruct (read_dict h (weather self)) as [wd|] eqn:Ew; [|discriminate].
  set (h' := <[weather self := ODict (new_weather ∪ wd)]> h).
  intros [= <- Hself].
  destruct (read_dict h' (vehicle self)) as [vd|] eqn:Ev; [|discriminate].
  cbn in Hself.
  destruct (read_dict h' (weather self)) as [wd'|] eqn:Ew'; [|discriminate].
  cbn in Hself.
  destruct (Grip.calculate_tire_grip vd wd') as [grip|] eqn:Eg; [|discriminate].
  cbn in Hself. injection Hself as <-.
  cbn [vehicle weather centerline track_width center_xy distance track_length].
  assert (Hwd : wd' = new_weather ∪ wd).
  { unfold h' in Ew'. rewrite read_after_write in Ew'. congruence. }
  rewrite Ew'.
  assert (Hh : <[weather self := ODict (new_weather ∪ wd')]> h' = h').
  { rewrite Hwd. unfold h'. rewrite insert_insert_eq.
    by rewrite (assoc_L (∪)), (idemp_L (∪)). }
  rewrite Hh, Ev, Ew'. cbn. rewrite Eg. reflexivity.
Qed.

Lemma update_weather_idempotent_witness :
  exists h1 self1,
    update_weather Examples.caller_heap Examples.line_object Examples.heavy_rain
    = (h1, Ok self1)
    /\ update_weather h1 self1 Examples.heavy_rain = (h1, Ok self1).
Proof.
  assert (Hrun : exists h1 self1,
            update_weather Examples.caller_heap Examples.line_object
                           Examples.heavy_rain = (h1, Ok self1)).
  { unfold update_weather.
    assert (Hread : read_dict Examples.caller_heap (weather Examples.line_object)
                    = Ok Grip.get_default_weather_config) by reflexivity.
    rewrite Hread.
    cbn [weather vehicle Examples.line_object].
    rewrite read_after_write.
    assert (Hv : read_dict
                   (<[3%positive := ODict (Examples.heavy_rain
                                           ∪ Grip.get_default_weather_config)]>
                      Examples.caller_heap) 2%positive
                 = Ok Grip.get_default_vehicle_config) by reflexivity.
    rewrite Hv. cbn [mbind result_bind bind].
    assert (Hg : exists grip,
               Grip.calculate_tire_grip Grip.get_default_vehicle_config
                 (Examples.heavy_rain ∪ Grip.get_default_weather_config) = Ok grip).
    { eexists. apply (GripProps.calculate_tire_grip_unfold _ _ 1.40%Q 85.0%Q);
      reflexivity. }
    destruct Hg as [grip ->]. by eexists _, _. }
  destruct Hrun as (h1 & self1 & Hrun).
  exists h1, self1. split; [exact Hrun|].
  exact (update_weather_idempotent _ _ _ _ _ Hrun).
Defined.

End WeatherChecks.

Module LineChecks.
Import Py OptimalLine Spec Conditions.
Local Open Scope R_scope.

Ltac lra := Lra.lra.
Ltac nra := Lra.nra.

(** *** De-duplication *)

Lemma clean_from_spaced (rest : list (R * R)) (p0 : R * R) (i : nat) (p q : R * R) :
  (p0 :: clean_from p0 rest) !! i = Some p ->
  (p0 :: clean_from p0 rest) !! S i = Some q ->
  min_spacing <= sqrt ((q.1 - p.1) * (q.1 - p.1) + (q.2 - p.2) * (q.2 - p.2)).
Proof.
  revert p0 i. induction rest as [|r rest IH]; intros p0 i; cbn [clean_from].
  - destruct i; discriminate.
  - destruct Rle_dec as [Hfar|Hnear]; [|apply IH].
    destruct i as [|i].
    + intros [= <-] [= <-]. exact Hfar.
    + intros Hp Hq. exact (IH r i Hp Hq).
Qed.

Lemma clean_from_sublist (rest : list (R * R)) (p0 : R * R) :
  sublist (clean_from p0 rest) rest.
Proof.
  revert p0. induction rest as [|r rest IH]; intros p0; cbn [clean_from].
  - constructor.
  - destruct Rle_dec; [apply sublist_skip | apply sublist_cons]; apply IH.
Qed.

Lemma clean_from_idempotent (rest : list (R * R)) (p0 : R * R) :
  clean_from p0 (clean_from p0 rest) = clean_from p0 rest.
Proof.
  revert p0. induction rest as [|r rest IH]; intros p0; cbn [clean_from].
  - reflexivity.
  - destruct Rle_dec as [Hfar|Hnear]; [|apply IH].
    cbn [clean_from]. destruct Rle_dec; [|contradiction].
    by rewrite IH.
Qed.

(** X6.  The de-duplication step keeps the first point, only removes
    points (the kept ones stay in their order), and leaves every two
    consecutive kept points at least 0.1 m apart. *)
Theorem cleaned_points_are_spaced (center cleaned : list (R * R)) :
  clean_points center = Ok cleaned ->
  head cleaned = head center
  /\ sublist cleaned center
  /\ forall i p q,
       cleaned !! i = Some p -> cleaned !! S i = Some q ->
       1 / 10 <= sqrt ((q.1 - p.1) * (q.1 - p.1) + (q.2 - p.2) * (q.2 - p.2)).
Proof.
  unfold clean_points. destruct center as [|p0 rest]; [discriminate|].
  intros [= <-]. split; [reflexivity|]. split.
  - apply sublist_skip, clean_from_sublist.
  - intros i p q Hp Hq. exact (clean_from_spaced rest p0 i p q Hp Hq).
Qed.

Lemma cleaned_points_are_spaced_witness :
  head Examples.square = head Examples.square
  /\ sublist Examples.square Examples.square
  /\ forall i p q,
       Examples.square !! i = Some p -> Examples.square !! S i = Some q ->
       1 / 10 <= sqrt ((q.1 - p.1) * (q.1 - p.1) + (q.2 - p.2) * (q.2 - p.2)).
Proof.
  exact (cleaned_points_are_spaced Examples.square Examples.square
           OptimalLineProps.clean_square).
Defined.

(** X7.  De-duplication is idempotent: cleaning an already cleaned
    centerline returns it unchanged. *)
Theorem clean_points_idempotent (center cleaned : list (R * R)) :
  clean_points center = Ok cleaned -> clean_points cleaned = Ok cleaned.
Proof.
  unfold clean_points. destruct center as [|p0 rest]; [discriminate|].
  intros [= <-]. by rewrite clean_from_idempotent.
Qed.

Lemma clean_points_idempotent_witness :
  clean_points Examples.square = Ok Examples.square.
Proof.
  exact (clean_points_idempotent Examples.square Examples.square
           OptimalLineProps.clean_square).
Defined.

(** *** The two passes, point by point *)

Lemma forward_from_below_limit (accel_g : R) (vs ds : list R) (pv pd : R)
    (i : nat) (v : R) :
  forward_from accel_g pv pd vs ds !! i = Some v ->
  exists l, vs !! i = Some l /\ v <= l.
Proof.
  revert ds pv pd i. induction vs as [|l vs IH]; intros [|d ds] pv pd i;
    cbn [forward_from]; try discriminate.
  destruct i as [|i].
  - intros [= <-]. exists l. split; [reflexivity|].
    apply OptimalLineProps.rmin_le_l.
  - intros Hv. exact (IH ds _ _ i Hv).
Qed.

Lemma forward_pass_below_limit (accel_g : R) (limit distance : list R)
    (i : nat) (v : R) :
  forward_pass accel_g limit distance !! i = Some v ->
  exists l, limit !! i = Some l /\ v <= l.
Proof.
  unfold forward_pass. destruct limit as [|l0 limit]; [discriminate|].
  destruct distance as [|d0 distance]; [discriminate|].
  destruct i as [|i].
  - intros [= <-]. exists l0. split; [reflexivity | lra].
  - intros Hv. exact (forward_from_below_limit _ _ _ _ _ i v Hv).
Qed.

Lemma rmin_nonneg (a b : R) : 0 <= a -> 0 <= b -> 0 <= rmin a b.
Proof. intros Ha Hb. unfold rmin. destruct Rlt_dec; assumption. Qed.

Lemma forward_from_nonneg (accel_g : R) (vs ds : list R) (pv pd : R) :
  Forall (fun v => 0 <= v) vs ->
  Forall (fun v => 0 <= v) (forward_from accel_g pv pd vs ds).
Proof.
  intros Hvs. revert ds pv pd.
  induction Hvs as [|l vs Hl Hvs IH]; intros [|d ds] pv pd; cbn [forward_from];
    try constructor.
  - apply rmin_nonneg; [exact Hl | apply sqrt_pos].
  - apply IH.
Qed.

Lemma forward_pass_nonneg (accel_g : R) (limit distance : list R) :
  Forall (fun v => 0 <= v) limit ->
  Forall (fun v => 0 <= v) (forward_pass accel_g limit distance).
Proof.
  unfold forward_pass. intros Hl.
  destruct Hl as [|l0 limit H0 Hl]; [constructor|].
  destruct distance as [|d0 distance]; constructor; [exact H0|].
  by apply forward_from_nonneg.
Qed.

Lemma backward_pass_nonneg (brake_g : R) (speeds distance : list R) :
  Forall (fun v => 0 <= v) speeds ->
  Forall (fun v => 0 <= v) (backward_pass brake_g speeds distance).
Proof.
  revert distance. induction speeds as [|s speeds IH]; intros distance Hs.
  - constructor.
  - destruct distance as [|d distance]; [constructor|].
    apply Forall_cons in Hs as [H0 Hs].
    rewrite OptimalLineProps.backward_pass_cons.
    specialize (IH distance Hs).
    destruct (backward_pass brake_g speeds distance) as [|s1 rest].
    { cbn. constructor; [exact H0 | constructor]. }
    destruct distance as [|d1 distance].
    { cbn. constructor; [exact H0 | constructor]. }
    constructor; [|exact IH].
    apply rmin_nonneg; [exact H0 | apply sqrt_pos].
Qed.

Lemma forward_from_length (accel_g : R) (vs ds : list R) (pv pd : R) :
  length (forward_from accel_g pv pd vs ds) = Nat.min (length vs) (length ds).
Proof.
  revert ds pv pd. induction vs as [|l vs IH]; intros [|d ds] pv pd;
    cbn [forward_from length Nat.min]; try reflexivity.
  by rewrite IH.
Qed.

Lemma forward_pass_length (accel_g : R) (limit distance : list R) :
  length (forward_pass accel_g limit distance)
  = Nat.min (length limit) (length distance).
Proof.
  unfold forward_pass. destruct limit as [|l0 limit]; [reflexivity|].
  destruct distance as [|d0 distance]; [reflexivity|].
  cbn [length Nat.min]. by rewrite forward_from_length.
Qed.

Lemma backward_pass_length (brake_g : R) (speeds distance : list R) :
  length (backward_pass brake_g speeds distance)
  = Nat.min (length speeds) (length distance).
Proof.
  revert distance. induction speeds as [|s speeds IH]; intros [|d distance];
    try reflexivity.
  rewrite OptimalLineProps.backward_pass_cons.
  specialize (IH distance).
  destruct (backward_pass brake_g speeds distance) as [|s1 rest].
  - destruct speeds, distance; cbn in *; try discriminate; reflexivity.
  - destruct distance as [|d1 distance].
    + destruct speeds; cbn in IH; discriminate.
    + cbn [length Nat.min] in *. by rewrite <- IH.
Qed.

Lemma distance_from_length (pts : list (R * R)) (prev : R * R) (acc : R) :
  length (distance_from prev acc pts) = length pts.
Proof.
  revert prev acc. induction pts as [|p pts IH]; intros prev acc;
    cbn [distance_from length]; [reflexivity | by rewrite IH].
Qed.

Lemma distance_array_length (pts : list (R * R)) :
  length (distance_array pts) = length pts.
Proof.
  destruct pts as [|p pts]; [reflexivity|].
  cbn [distance_array length]. by rewrite distance_from_length.
Qed.

(** *** Lap time *)

Lemma rmax_ge_r (a b : R) : b <= rmax a b.
Proof. unfold rmax. destruct Rlt_dec; lra. Qed.

Lemma rmax_le (a b c : R) : a <= c -> b <= c -> rmax a b <= c.
Proof. unfold rmax. destruct Rlt_dec; lra. Qed.

Lemma div_by_at_least_one (a m : R) : 0 <= a -> 1 <= m -> 0 <= a / m <= a.
Proof.
  intros Ha Hm.
  assert (0 < / m) by (apply Rinv_0_lt_compat; lra).
  assert (/ m <= 1).
  { rewrite <- Rinv_1. apply Rinv_le_contravar; lra. }
  unfold Rdiv. split; nra.
Qed.

Lemma lap_time_step (d0 d1 s s1 : R) (distance speeds : list R) :
  lap_time_of (d0 :: d1 :: distance) (s :: s1 :: speeds)
  = (d1 - d0) / rmax ((s + s1) / 2) 1 + lap_time_of (d1 :: distance) (s1 :: speeds).
Proof. reflexivity. Qed.

Lemma lap_time_bounds (distance speeds : list R) (d0 : R) :
  ascending (d0 :: distance) ->
  0 <= lap_time_of (d0 :: distance) speeds
       <= default d0 (last distance) - d0.
Proof.
  revert d0 speeds. induction distance as [|d1 distance IH]; intros d0 speeds Hasc.
  - destruct speeds; cbn; lra.
  - destruct speeds as [|s [|s1 speeds]];
      [change (lap_time_of (d0 :: d1 :: distance) []) with 0
      |change (lap_time_of (d0 :: d1 :: distance) [s]) with 0
      |rewrite lap_time_step].
    + destruct Hasc as [H01 Hasc].
      assert (d1 <= default d1 (last distance)).
      { destruct (last distance) as [dl|] eqn:El; [|cbn; lra].
        apply (FinalizeProps.ascending_below_last (d1 :: distance) d1 dl Hasc);
          [apply list_elem_of_here|].
        by rewrite last_cons, El. }
      rewrite last_cons. destruct (last distance); cbn in *; lra.
    + destruct Hasc as [H01 Hasc].
      assert (d1 <= default d1 (last distance)).
      { destruct (last distance) as [dl|] eqn:El; [|cbn; lra].
        apply (FinalizeProps.ascending_below_last (d1 :: distance) d1 dl Hasc);
          [apply list_elem_of_here|].
        by rewrite last_cons, El. }
      rewrite last_cons. destruct (last distance); cbn in *; lra.
    + destruct Hasc as [H01 Hasc].
      specialize (IH d1 (s1 :: speeds) Hasc).
      pose proof (rmax_ge_r ((s + s1) / 2) 1) as Hmax.
      assert (Hseg : 0 <= (d1 - d0) / rmax ((s + s1) / 2) 1 <= d1 - d0).
      { apply div_by_at_least_one; lra. }
      rewrite last_cons.
      destruct (last distance) as [dl|]; cbn [from_option Datatypes.id] in *; lra.
Qed.

Lemma lap_time_at_least (distance speeds : list R) (d0 top : R) :
  ascending (d0 :: distance) ->
  length speeds = S (length distance) ->
  Forall (fun v => v <= top) speeds ->
  (default d0 (last distance) - d0) / rmax top 1
  <= lap_time_of (d0 :: distance) speeds.
Proof.
  revert d0 speeds. induction distance as [|d1 distance IH];
    intros d0 speeds Hasc Hlen Htop.
  - destruct speeds as [|s [|? ?]]; try discriminate. cbn.
    unfold Rdiv. rewrite Rminus_diag. lra.
  - destruct speeds as [|s [|s1 speeds]]; try discriminate.
    rewrite lap_time_step. destruct Hasc as [H01 Hasc].
    injection Hlen as Hlen.
    apply Forall_cons in Htop as [Hs Htop].
    specialize (IH d1 (s1 :: speeds) Hasc (f_equal S Hlen) Htop).
    apply Forall_cons in Htop as [Hs1 _].
    pose proof (rmax_ge_r top 1) as Hm1.
    pose proof (rmax_ge_r ((s + s1) / 2) 1) as Hm2.
    assert (Hle : rmax ((s + s1) / 2) 1 <= rmax top 1).
    { apply rmax_le; [|exact Hm1].
      unfold rmax at 1. destruct Rlt_dec; lra. }
    assert (Hseg : (d1 - d0) / rmax top 1 <= (d1 - d0) / rmax ((s + s1) / 2) 1).
    { unfold Rdiv. apply Rmult_le_compat_l; [lra|].
      apply Rinv_le_contravar; lra. }
    rewrite last_cons.
    destruct (last distance) as [dl|]; cbn [from_option Datatypes.id] in *.
    + replace ((dl - d0) / rmax top 1)
        with ((dl - d1) / rmax top 1 + (d1 - d0) / rmax top 1) by (field; lra).
      lra.
    + replace ((d1 - d1) / rmax top 1) with 0 in IH by (field; lra). lra.
Qed.

Section GeneratorChecks.

Variable tck : Type.
Variable splprep : list R -> list R -> R -> option tck.
Variable splev : list R -> tck -> nat -> list R * list R.
Variable gaussian_filter1d : list R -> R -> list R.

Let generate := generate_optimal_line tck splprep splev gaussian_filter1d.

(** What a returned line is made of, in full. *)
Lemma generate_shape (center : list (R * R)) (track_width : R)
    (vehicle : Grip.config) (effective_grip : Q) (n_points : nat)
    (log : list fit_call) (out : optimal_line) :
  generate center track_width vehicle effective_grip n_points = (log, Ok out) ->
  exists (t : tck) (accel brake top factor : Q),
    vehicle !! "max_accel_g"%string = Some accel
    /\ vehicle !! "max_brake_g"%string = Some brake
    /\ vehicle !! "top_speed_ms"%string = Some top
    /\ vehicle !! "corner_speed_factor"%string = Some factor
    /\ ol_distance out
       = distance_array (zip (splev (linspace01 n_points) t 0).1
                             (splev (linspace01 n_points) t 0).2)
    /\ Forall (fun k => 1 / 1000000 <= k) (ol_curvature out)
    /\ ol_curvature out <> []
    /\ ol_speed out
       = backward_pass (Q2R brake)
           (forward_pass (Q2R accel)
              (map (fun k => Rmin (sqrt (Q2R effective_grip * g * (1 / k) * Q2R factor))
                                  (Q2R top))
                   (ol_curvature out))
              (ol_distance out))
           (ol_distance out)
    /\ ol_lap_time out = lap_time_of (ol_distance out) (ol_speed out)
    /\ ol_grip_coefficient out = Q2R effective_grip
    /\ exists (race_tck : tck) (offsets : list R),
         ol_curvature out
         = map (fun k => Rmax k (1 / 1000000))
               (gaussian_filter1d
                  (curvature_of (splev (linspace01 n_points) race_tck 1)
                                (splev (linspace01 n_points) race_tck 2)) 10)
         /\ length offsets
            = length (gaussian_filter1d
                        (curvature_of (splev (linspace01 n_points) t 1)
                                      (splev (linspace01 n_points) t 2)) 15)
         /\ ol_x out
            = zip_with (fun c '(o, n) => c + o * n)
                (splev (linspace01 n_points) t 0).1
                (zip (gaussian_filter1d offsets 20)
                     (zip_with (fun dx dy => (- (dy / hypot dx dy), dx / hypot dx dy))
                        (splev (linspace01 n_points) t 1).1
                        (splev (linspace01 n_points) t 1).2).*1)
         /\ ol_y out
            = zip_with (fun c '(o, n) => c + o * n)
                (splev (linspace01 n_points) t 0).2
                (zip (gaussian_filter1d offsets 20)
                     (zip_with (fun dx dy => (- (dy / hypot dx dy), dx / hypot dx dy))
                        (splev (linspace01 n_points) t 1).1
                        (splev (linspace01 n_points) t 1).2).*2).
Proof.
  unfold generate, generate_optimal_line, tbind, lift.
  destruct (clean_points center) as [cleaned|]; [|discriminate].
  destruct (length cleaned <? 4)%nat; [discriminate|].
  destruct (fit_centerline tck splprep cleaned) as [log0 [t|]]; [|discriminate].
  unfold line_from_fit, tbind, lift, Grip.getitem.
  destruct (vehicle !! "tire_friction_dry"%string) as [dry|]; [|discriminate].
  match goal with
  | |- context [call_splprep _ _ ?xs ?ys ?s] =>
      destruct (call_splprep tck splprep xs ys s) as [log1 [race_tck|]]; [|discriminate]
  end.
  destruct (vehicle !! "corner_speed_factor"%string) as [factor|]; [|discriminate].
  destruct (vehicle !! "top_speed_ms"%string) as [top|] eqn:Htop; [|discriminate].
  match goal with
  | |- context [match map ?f ?l with [] => _ | _ :: _ => _ end] =>
      set (curv := l); destruct (map f curv) as [|v0 limit] eqn:Elim; [discriminate|]
  end.
  destruct (vehicle !! "max_accel_g"%string) as [accel|]; [|discriminate].
  destruct (vehicle !! "max_brake_g"%string) as [brake|]; [|discriminate].
  intros [= _ <-]. cbn [ol_x ol_y ol_distance ol_speed ol_curvature
                        ol_grip_coefficient ol_lap_time].
  exists t, accel, brake, top, factor.
  do 5 (split; [reflexivity|]).
  split.
  { subst curv. apply Forall_map, Forall_true. intros k. cbn. apply Rmax_r. }
  split.
  { intros E. rewrite E in Elim. discriminate. }
  split; [by rewrite Elim|].
  split; [reflexivity|]. split; [reflexivity|].
  eexists race_tck, _. split; [reflexivity|].
  split; [|split; reflexivity].
  by rewrite length_map.
Qed.

(** X8.  With non-negative vehicle limits and grip, no speed of a
    returned line exceeds the cornering limit of its point,
    [sqrt(grip * g * (1 / curvature) * corner_speed_factor)]. *)
Theorem speed_at_most_cornering_limit (center : list (R * R)) (track_width : R)
    (vehicle : Grip.config) (effective_grip : Q) (n_points : nat)
    (log : list fit_call) (out : optimal_line) (factor : Q)
    (i : nat) (v k : R) :
  generate center track_width vehicle effective_grip n_points = (log, Ok out) ->
  physical vehicle effective_grip ->
  vehicle !! "corner_speed_factor"%string = Some factor ->
  ol_speed out !! i = Some v ->
  ol_curvature out !! i = Some k ->
  v <= sqrt (Q2R effective_grip * g * (1 / k) * Q2R factor).
Proof.
  intros Hrun _ Hf Hv Hk.
  destruct (generate_shape _ _ _ _ _ _ _ Hrun)
    as (t & accel & brake & top & factor' & _ & _ & _ & Hf' & _ & _ & _ & Hspeed & _).
  rewrite Hf in Hf'. injection Hf' as <-.
  rewrite Hspeed in Hv.
  apply OptimalLineProps.backward_pass_lowers in Hv as (s & Hs & Hvs).
  apply forward_pass_below_limit in Hs as (l & Hl & Hsl).
  rewrite list_lookup_fmap, Hk in Hl. injection Hl as <-.
  pose proof (Rmin_l (sqrt (Q2R effective_grip * g * (1 / k) * Q2R factor)) (Q2R top)).
  lra.
Qed.

(** X9.  With non-negative vehicle limits and grip, no speed of a
    returned line is negative. *)
Theorem speeds_not_negative (center : list (R * R)) (track_width : R)
    (vehicle : Grip.config) (effective_grip : Q) (n_points : nat)
    (log : list fit_call) (out : optimal_line) (i : nat) (v : R) :
  generate center track_width vehicle effective_grip n_points = (log, Ok out) ->
  physical vehicle effective_grip ->
  ol_speed out !! i = Some v ->
  0 <= v.
Proof.
  intros Hrun [_ Hphys] Hv.
  destruct (generate_shape _ _ _ _ _ _ _ Hrun)
    as (t & accel & brake & top & factor & _ & _ & Htop & _ & _ & _ & _ & Hspeed & _).
  assert (0 <= Q2R top).
  { rewrite <- RMicromega.Q2R_0. apply Qle_Rle.
    apply (Hphys "top_speed_ms"%string); [|exact Htop].
    do 1 apply list_elem_of_further. apply list_elem_of_here. }
  assert (Hall : Forall (fun v => 0 <= v) (ol_speed out)).
  { rewrite Hspeed. apply backward_pass_nonneg, forward_pass_nonneg.
    apply Forall_map, Forall_true. intros k. cbn.
    apply Rmin_glb; [apply sqrt_pos | assumption]. }
  exact (proj1 (Forall_lookup _ _) Hall i v Hv).
Qed.

(** X10.  The distance column of a returned line starts at 0 and never
    decreases. *)
Theorem distance_column_ascends_from_zero (center : list (R * R)) (track_width : R)
    (vehicle : Grip.config) (effective_grip : Q) (n_points : nat)
    (log : list fit_call) (out : optimal_line) :
  generate center track_width vehicle effective_grip n_points = (log, Ok out) ->
  ascending (ol_distance out)
  /\ forall d, head (ol_distance out) = Some d -> d = 0.
Proof.
  intros Hrun.
  destruct (generate_shape _ _ _ _ _ _ _ Hrun)
    as (t & accel & brake & top & factor & _ & _ & _ & _ & Hdist & _).
  rewrite Hdist. split; [apply OptimalLineProps.distance_array_ascending|].
  destruct (zip _ _); [discriminate|]. by intros d [= <-].
Qed.

(** X11.  The lap time of a returned line is not negative and, because
    every segment is timed at 1 m/s or faster, at most the length of the
    line in metres. *)
Theorem lap_time_at_most_length (center : list (R * R)) (track_width : R)
    (vehicle : Grip.config) (effective_grip : Q) (n_points : nat)
    (log : list fit_call) (out : optimal_line) :
  generate center track_width vehicle effective_grip n_points = (log, Ok out) ->
  physical vehicle effective_grip ->
  0 <= ol_lap_time out <= default 0 (last (ol_distance out)).
Proof.
  intros Hrun _.
  destruct (generate_shape _ _ _ _ _ _ _ Hrun)
    as (t & accel & brake & top & factor & _ & _ & _ & _ & Hdist & _ & _ & _ & Hlap & _).
  rewrite Hlap.
  pose proof (OptimalLineProps.distance_array_ascending
                (zip (splev (linspace01 n_points) t 0).1
                     (splev (linspace01 n_points) t 0).2)) as Hasc.
  rewrite <- Hdist in Hasc.
  assert (Hhead : forall d, head (ol_distance out) = Some d -> d = 0).
  { rewrite Hdist. destruct (zip _ _); [discriminate|]. by intros d [= <-]. }
  destruct (ol_distance out) as [|d0 distance].
  { cbn. lra. }
  rewrite (Hhead d0 eq_refl) in *.
  pose proof (lap_time_bounds distance (ol_speed out) 0 Hasc) as Hb.
  rewrite last_cons.
  destruct (last distance); cbn [from_option Datatypes.id] in *; lra.
Qed.

(** X12.  When scipy returns arrays as long as the parameter array it is
    given, the five columns of a returned line all have [n_points]
    entries. *)
Theorem columns_have_n_points (center : list (R * R)) (track_width : R)
    (vehicle : Grip.config) (effective_grip : Q) (n_points : nat)
    (log : list fit_call) (out : optimal_line) :
  generate center track_width vehicle effective_grip n_points = (log, Ok out) ->
  length_preserving splev gaussian_filter1d ->
  length (ol_x out) = n_points
  /\ length (ol_y out) = n_points
  /\ length (ol_distance out) = n_points
  /\ length (ol_speed out) = n_points
  /\ length (ol_curvature out) = n_points.
Proof.
  intros Hrun [Hsplev Hfilter].
  destruct (generate_shape _ _ _ _ _ _ _ Hrun)
    as (t & accel & brake & top & factor & _ & _ & _ & _ & Hdist & _ & _
        & Hspeed & _ & _ & race_tck & offsets & Hcurv & Hoff & Hx & Hy).
  assert (Hu : length (linspace01 n_points) = n_points).
  { unfold linspace01. by rewrite length_map, length_seq. }
  assert (Hcurvlen : forall t0,
            length (curvature_of (splev (linspace01 n_points) t0 1)
                                 (splev (linspace01 n_points) t0 2)) = n_points).
  { intros t0. unfold curvature_of.
    rewrite length_zip_with, !length_zip.
    destruct (Hsplev (linspace01 n_points) t0 1%nat) as [-> ->].
    destruct (Hsplev (linspace01 n_points) t0 2%nat) as [-> ->]. lia. }
  assert (Hd : length (ol_distance out) = n_points).
  { rewrite Hdist, distance_array_length, length_zip.
    destruct (Hsplev (linspace01 n_points) t 0%nat) as [-> ->]. lia. }
  assert (Hc : length (ol_curvature out) = n_points).
  { by rewrite Hcurv, length_map, Hfilter, Hcurvlen. }
  assert (Hn : length
                 (zip_with (fun dx dy => (- (dy / hypot dx dy), dx / hypot dx dy))
                    (splev (linspace01 n_points) t 1).1
                    (splev (linspace01 n_points) t 1).2) = n_points).
  { rewrite length_zip_with.
    destruct (Hsplev (linspace01 n_points) t 1%nat) as [-> ->]. lia. }
  repeat split.
  - rewrite Hx, length_zip_with, length_zip, length_fmap, Hfilter, Hoff, Hfilter, Hcurvlen, Hn.
    destruct (Hsplev (linspace01 n_points) t 0%nat) as [-> _]. lia.
  - rewrite Hy, length_zip_with, length_zip, length_fmap, Hfilter, Hoff, Hfilter, Hcurvlen, Hn.
    destruct (Hsplev (linspace01 n_points) t 0%nat) as [_ ->]. lia.
  - exact Hd.
  - rewrite Hspeed, backward_pass_length, forward_pass_length, length_map, Hc, Hd. lia.
  - exact Hc.
Qed.

(** X13.  When scipy returns arrays as long as the parameter array it is
    given and the vehicle limits are not negative, the lap time of a
    returned line is at least its length divided by the top speed (or by
    1 m/s if the top speed is lower). *)
Theorem lap_time_at_least_length_over_top_speed
    (center : list (R * R)) (track_width : R)
    (vehicle : Grip.config) (effective_grip : Q) (n_points : nat)
    (log : list fit_call) (out : optimal_line) (top : Q) :
  generate center track_width vehicle effective_grip n_points = (log, Ok out) ->
  length_preserving splev gaussian_filter1d ->
  physical vehicle effective_grip ->
  vehicle !! "top_speed_ms"%string = Some top ->
  default 0 (last (ol_distance out)) / rmax (Q2R top) 1 <= ol_lap_time out.
Proof.
  intros Hrun [Hsplev Hfilter] _ Htop.
  destruct (OptimalLineProps.generate_returns _ _ _ _ _ _ _ _ _ _ _ Hrun)
    as (pts & limit & accel & brake & top' & _ & _ & Htop' & Hdist0 & Hlim & Hspeed0).
  rewrite Htop in Htop'. injection Htop' as <-.
  assert (Hbound : Forall (fun v => v <= Q2R top) (ol_speed out)).
  { rewrite Hspeed0.
    by apply OptimalLineProps.backward_pass_bounded,
             OptimalLineProps.forward_pass_bounded. }
  destruct (generate_shape _ _ _ _ _ _ _ Hrun)
    as (t & accel1 & brake1 & top1 & factor & _ & _ & _ & _ & Hdist & _ & _
        & Hspeed & Hlap & _ & race_tck & offsets & Hcurv & _).
  assert (Hu : length (linspace01 n_points) = n_points).
  { unfold linspace01. by rewrite length_map, length_seq. }
  assert (Hd : length (ol_distance out) = n_points).
  { rewrite Hdist, distance_array_length, length_zip.
    destruct (Hsplev (linspace01 n_points) t 0%nat) as [-> ->]. lia. }
  assert (Hc : length (ol_curvature out) = n_points).
  { rewrite Hcurv, length_map, Hfilter. unfold curvature_of.
    rewrite length_zip_with, !length_zip.
    destruct (Hsplev (linspace01 n_points) race_tck 1%nat) as [-> ->].
    destruct (Hsplev (linspace01 n_points) race_tck 2%nat) as [-> ->]. lia. }
  assert (Hs : length (ol_speed out) = length (ol_distance out)).
  { rewrite Hspeed at 1.
    rewrite backward_pass_length, forward_pass_length, length_map, Hc, Hd. lia. }
  pose proof (OptimalLineProps.distance_array_ascending
                (zip (splev (linspace01 n_points) t 0).1
                     (splev (linspace01 n_points) t 0).2)) as Hasc.
  rewrite <- Hdist in Hasc.
  assert (Hhead : forall d, head (ol_distance out) = Some d -> d = 0).
  { rewrite Hdist. destruct (zip _ _); [discriminate|]. by intros d [= <-]. }
  rewrite Hlap.
  destruct (ol_distance out) as [|d0 distance].
  { cbn. unfold Rdiv. rewrite Rmult_0_l. lra. }
  rewrite (Hhead d0 eq_refl) in *.
  pose proof (lap_time_at_least distance (ol_speed out) 0 (Q2R top) Hasc Hs Hbound)
    as Hb.
  rewrite last_cons.
  destruct (last distance); cbn [from_option Datatypes.id] in *; lra.
Qed.

End GeneratorChecks.

(** *** The same run on the square track *)

Lemma default_vehicle_physical :
  physical Grip.get_default_vehicle_config 1.40%Q.
Proof.
  split; [unfold Qle; simpl; lia|].
  intros key v Hkey Hv.
  repeat (apply elem_of_cons in Hkey as [-> | Hkey]);
    [..| by apply elem_of_nil in Hkey];
    vm_compute in Hv; injection Hv as <-; unfold Qle; simpl; lia.
Qed.

Lemma stand_ins_length_preserving :
  length_preserving Examples.diagonal_splev Examples.no_filter.
Proof. split; [intros u t der; split; reflexivity | reflexivity]. Qed.

Lemma speed_at_most_cornering_limit_witness :
  exists log out v k,
    generate_optimal_line unit Examples.always_fits Examples.diagonal_splev
        Examples.no_filter Examples.square 10 Grip.get_default_vehicle_config
        1.40%Q 2 = (log, Ok out)
    /\ ol_speed out !! 0%nat = Some v
    /\ ol_curvature out !! 0%nat = Some k
    /\ v <= sqrt (Q2R 1.40 * g * (1 / k) * Q2R 0.92).
Proof.
  destruct OptimalLineProps.square_run
    as (log & xs & ys & curvature & v0 & v1 & d1 & lap & Hrun).
  destruct (generate_shape _ _ _ _ _ _ _ _ _ _ _ Hrun)
    as (_ & _ & _ & _ & _ & _ & _ & _ & _ & _ & _ & Hne & _).
  cbn [ol_curvature] in Hne. destruct curvature as [|k curvature]; [done|].
  eexists log, _, v0, k.
  split; [exact Hrun|]. split; [reflexivity|]. split; [reflexivity|].
  apply (speed_at_most_cornering_limit unit Examples.always_fits
           Examples.diagonal_splev Examples.no_filter Examples.square 10
           Grip.get_default_vehicle_config 1.40%Q 2%nat log _ 0.92%Q 0%nat v0 k Hrun).
  - exact default_vehicle_physical.
  - reflexivity.
  - reflexivity.
  - reflexivity.
Defined.

Lemma speeds_not_negative_witness :
  exists log out v,
    generate_optimal_line unit Examples.always_fits Examples.diagonal_splev
        Examples.no_filter Examples.square 10 Grip.get_default_vehicle_config
        1.40%Q 2 = (log, Ok out)
    /\ ol_speed out !! 1%nat = Some v
    /\ 0 <= v.
Proof.
  destruct OptimalLineProps.square_run
    as (log & xs & ys & curvature & v0 & v1 & d1 & lap & Hrun).
  eexists log, _, v1.
  split; [exact Hrun|]. split; [reflexivity|].
  apply (speeds_not_negative unit Examples.always_fits
           Examples.diagonal_splev Examples.no_filter Examples.square 10
           Grip.get_default_vehicle_config 1.40%Q 2%nat log _ 1%nat v1 Hrun).
  - exact default_vehicle_physical.
  - reflexivity.
Defined.

Lemma distance_column_ascends_from_zero_witness :
  exists log out,
    generate_optimal_line unit Examples.always_fits Examples.diagonal_splev
        Examples.no_filter Examples.square 10 Grip.get_default_vehicle_config
        1.40%Q 2 = (log, Ok out)
    /\ ascending (ol_distance out)
    /\ forall d, head (ol_distance out) = Some d -> d = 0.
Proof.
  destruct OptimalLineProps.square_run
    as (log & xs & ys & curvature & v0 & v1 & d1 & lap & Hrun).
  eexists log, _. split; [exact Hrun|].
  exact (distance_column_ascends_from_zero unit Examples.always_fits
           Examples.diagonal_splev Examples.no_filter Examples.square 10
           Grip.get_default_vehicle_config 1.40%Q 2%nat log _ Hrun).
Defined.

Lemma lap_time_at_most_length_witness :
  exists log out,
    generate_optimal_line unit Examples.always_fits Examples.diagonal_splev
        Examples.no_filter Examples.square 10 Grip.get_default_vehicle_config
        1.40%Q 2 = (log, Ok out)
    /\ 0 <= ol_lap_time out <= default 0 (last (ol_distance out)).
Proof.
  destruct OptimalLineProps.square_run
    as (log & xs & ys & curvature & v0 & v1 & d1 & lap & Hrun).
  eexists log, _. split; [exact Hrun|].
  exact (lap_time_at_most_length unit Examples.always_fits
           Examples.diagonal_splev Examples.no_filter Examples.square 10
           Grip.get_default_vehicle_config 1.40%Q 2%nat log _ Hrun
           default_vehicle_physical).
Defined.

Lemma columns_have_n_points_witness :
  exists log out,
    generate_optimal_line unit Examples.always_fits Examples.diagonal_splev
        Examples.no_filter Examples.square 10 Grip.get_default_vehicle_config
        1.40%Q 2 = (log, Ok out)
    /\ length (ol_x out) = 2%nat
    /\ length (ol_y out) = 2%nat
    /\ length (ol_distance out) = 2%nat
    /\ length (ol_speed out) = 2%nat
    /\ length (ol_curvature out) = 2%nat.
Proof.
  destruct OptimalLineProps.square_run
    as (log & xs & ys & curvature & v0 & v1 & d1 & lap & Hrun).
  eexists log, _. split; [exact Hrun|].
  exact (columns_have_n_points unit Examples.always_fits
           Examples.diagonal_splev Examples.no_filter Examples.square 10
           Grip.get_default_vehicle_config 1.40%Q 2%nat log _ Hrun
           stand_ins_length_preserving).
Defined.

Lemma lap_time_at_least_length_over_top_speed_witness :
  exists log out,
    generate_optimal_line unit Examples.always_fits Examples.diagonal_splev
        Examples.no_filter Examples.square 10 Grip.get_default_vehicle_config
        1.40%Q 2 = (log, Ok out)
    /\ default 0 (last (ol_distance out)) / rmax (Q2R 67.0) 1 <= ol_lap_time out.
Proof.
  destruct OptimalLineProps.square_run
    as (log & xs & ys & curvature & v0 & v1 & d1 & lap & Hrun).
  eexists log, _. split; [exact Hrun|].
  exact (lap_time_at_least_length_over_top_speed unit Examples.always_fits
           Examples.diagonal_splev Examples.no_filter Examples.square 10
           Grip.get_default_vehicle_config 1.40%Q 2%nat log _ 67.0%Q Hrun
           stand_ins_length_preserving default_vehicle_physical eq_refl).
Defined.

End LineChecks.

Module AssemblerChecks.
Import Py TrackProcessor Spec Geometry.
Local Open Scope R_scope.

Ltac lra := Lra.lra.
Ltac nra := Lra.nra.

(** *** Where parsed ways and nodes come from *)

Lemma parse_fold_origin (els : list element) (st : parsed) :
  (forall w, w ∈ p_ways (foldl parse_element st els) ->
     w ∈ p_ways st \/ EWay w ∈ els)
  /\ (forall i pos, p_nodes (foldl parse_element st els) !! i = Some pos ->
        p_nodes st !! i = Some pos \/ ENode i pos ∈ els).
Proof.
  revert st. induction els as [|el els IH]; intros st; cbn [foldl].
  - split; auto.
  - destruct (IH (parse_element st el)) as [IHw IHn]. split.
    + intros w Hw. destruct (IHw w Hw) as [Hin | Hin].
      * destruct el as [nid pos | w0 |]; cbn [parse_element p_ways] in Hin; auto.
        destruct (decide (way_id w0 ∈ p_seen st)); cbn [p_ways] in Hin; auto.
        apply elem_of_app in Hin as [Hin | Hin]; auto.
        apply list_elem_of_singleton in Hin as ->. right. apply list_elem_of_here.
      * right. by apply list_elem_of_further.
    + intros i pos Hn. destruct (IHn i pos Hn) as [Hin | Hin].
      * destruct el as [nid pos0 | w0 |]; cbn [parse_element p_nodes] in Hin; auto.
        -- destruct (decide (nid = i)) as [-> | Hne].
           ++ rewrite lookup_insert_eq in Hin. injection Hin as ->.
              right. apply list_elem_of_here.
           ++ rewrite lookup_insert_ne in Hin by done. auto.
        -- destruct (decide (way_id w0 ∈ p_seen st)); cbn [p_nodes] in Hin; auto.
      * right. by apply list_elem_of_further.
Qed.

Lemma parsed_way_origin (els : list element) (w : way) :
  w ∈ p_ways (parse_elements els) -> EWay w ∈ els.
Proof.
  unfold parse_elements. intros Hw.
  match type of Hw with
  | context [foldl parse_element ?s els] =>
      destruct (parse_fold_origin els s) as [H _]
  end.
  destruct (H w Hw) as [Hin | Hin]; [|exact Hin].
  cbn in Hin. by apply elem_of_nil in Hin.
Qed.

Lemma parsed_node_origin (els : list element) (i : Z) (pos : geo) :
  p_nodes (parse_elements els) !! i = Some pos -> ENode i pos ∈ els.
Proof.
  unfold parse_elements. intros Hn.
  match type of Hn with
  | context [foldl parse_element ?s els] =>
      destruct (parse_fold_origin els s) as [_ H]
  end.
  destruct (H i pos Hn) as [Hin | Hin]; [|exact Hin].
  cbn in Hin. by rewrite lookup_empty in Hin.
Qed.

(** Every way element leaves a parsed way with its id. *)
Lemma parse_fold_keeps (els : list element) (st : parsed) :
  (forall i, i ∈ p_seen st <-> i ∈ map way_id (p_ways st)) ->
  (forall w, w ∈ p_ways st -> w ∈ p_ways (foldl parse_element st els))
  /\ (forall w, EWay w ∈ els ->
        way_id w ∈ map way_id (p_ways (foldl parse_element st els))).
Proof.
  revert st. induction els as [|el els IH]; intros st Hseen; cbn [foldl].
  - split; [auto|]. intros w Hw. by apply elem_of_nil in Hw.
  - assert (Hseen' : forall i, i ∈ p_seen (parse_element st el)
                               <-> i ∈ map way_id (p_ways (parse_element st el))).
    { destruct el as [nid pos | w0 |]; cbn [parse_element p_seen p_ways]; auto.
      destruct (decide (way_id w0 ∈ p_seen st)); cbn [p_seen p_ways]; auto.
      intros i. rewrite map_app, elem_of_union, elem_of_singleton, elem_of_app.
      cbn [map]. rewrite list_elem_of_singleton, Hseen. tauto. }
    destruct (IH (parse_element st el) Hseen') as [IHold IHnew]. split.
    + intros w Hw. apply IHold.
      destruct el as [nid pos | w0 |]; cbn [parse_element p_ways]; auto.
      destruct (decide (way_id w0 ∈ p_seen st)); cbn [p_ways]; auto.
      apply elem_of_app. by left.
    + intros w Hw. apply elem_of_cons in Hw as [<- | Hw]; [|by apply IHnew].
      assert (Hin : way_id w ∈ map way_id (p_ways (parse_element st (EWay w)))).
      { cbn [parse_element].
        destruct (decide (way_id w ∈ p_seen st)) as [Hin | Hout]; cbn [p_ways].
        - by apply Hseen.
        - rewrite map_app. apply elem_of_app. right. apply list_elem_of_here. }
      apply list_elem_of_fmap in Hin as (w' & Hid & Hw').
      rewrite Hid. apply list_elem_of_fmap_2. by apply IHold.
Qed.

Lemma way_element_parsed (els : list element) (w : way) :
  EWay w ∈ els ->
  exists w', w' ∈ p_ways (parse_elements els) /\ way_id w' = way_id w.
Proof.
  intros Hw. destruct (parse_fold_keeps els
    {| p_nodes := ∅; p_ways := []; p_seen := ∅;
       p_min_lat := None; p_max_lat := None;
       p_min_lon := None; p_max_lon := None |}) as [_ H].
  { intros i. cbn. rewrite elem_of_nil. split; [|done].
    intros Hi. by apply elem_of_empty in Hi. }
  specialize (H w Hw). apply list_elem_of_fmap in H as (w' & Hid & Hw').
  exists w'. split; [exact Hw' | by symmetry].
Qed.

Lemma no_ways_iff (els : list element) :
  p_ways (parse_elements els) = [] <-> forall w, EWay w ∉ els.
Proof.
  split.
  - intros E w Hw. destruct (way_element_parsed els w Hw) as (w' & Hw' & _).
    rewrite E in Hw'. by apply elem_of_nil in Hw'.
  - intros Hnone. destruct (p_ways (parse_elements els)) as [|w ways] eqn:E;
      [reflexivity|].
    exfalso. apply (Hnone w), parsed_way_origin. rewrite E. apply list_elem_of_here.
Qed.

(** *** The pit-lane search *)

Lemma pit_step_raise (nodes : gmap Z geo) (a : geo) (e : exn) (ways : list way) :
  foldl (pit_step nodes a) (Raise e) ways = Raise e.
Proof. induction ways as [|w ways IH]; [reflexivity | exact IH]. Qed.

Lemma pit_step_ok (nodes : gmap Z geo) (a : geo) (st : option R * option Z)
    (w : way) :
  pit_step nodes a (Ok st) w
  = match way_nodes w with
    | None => Raise (KeyError "nodes")
    | Some _ =>
        match anchor_distance nodes a w with
        | Some d => if lt_running d st.1 then Ok (Some d, Some (way_id w)) else Ok st
        | None => Ok st
        end
    end.
Proof.
  unfold pit_step, anchor_distance. destruct st as [min_dist pid].
  cbn [mbind result_bind bind fst].
  destruct (way_nodes w) as [[|n0 ids]|]; try reflexivity.
  destruct (nodes !! n0); reflexivity.
Qed.

Lemma pit_fold_missing_nodes (nodes : gmap Z geo) (a : geo) (ways : list way)
    (st : option R * option Z) (w : way) :
  w ∈ ways -> way_nodes w = None ->
  foldl (pit_step nodes a) (Ok st) ways = Raise (KeyError "nodes").
Proof.
  revert st. induction ways as [|u ways IH]; intros st Hw Hn.
  - by apply elem_of_nil in Hw.
  - cbn [foldl]. rewrite pit_step_ok.
    destruct (way_nodes u) as [ids|] eqn:Eu.
    + apply elem_of_cons in Hw as [-> | Hw]; [congruence|].
      destruct (anchor_distance nodes a u) as [d|]; [|by apply IH].
      destruct (lt_running d st.1); by apply IH.
    + apply pit_step_raise.
Qed.

Lemma pit_fold_invariant (nodes : gmap Z geo) (a : geo) (ways seen : list way)
    (st st' : option R * option Z) :
  pit_invariant nodes a seen st ->
  foldl (pit_step nodes a) (Ok st) ways = Ok st' ->
  pit_invariant nodes a (seen ++ ways) st'.
Proof.
  revert seen st. induction ways as [|u ways IH]; intros seen st Hinv.
  - cbn [foldl]. intros [= <-]. by rewrite app_nil_r.
  - cbn [foldl]. rewrite pit_step_ok.
    destruct (way_nodes u) as [ids|] eqn:Eu;
      [|by rewrite pit_step_raise].
    replace (seen ++ u :: ways) with ((seen ++ [u]) ++ ways)
      by (by rewrite <- app_assoc).
    destruct (anchor_distance nodes a u) as [d|] eqn:Ed.
    + destruct st as [[m|] pid]; cbn [lt_running fst].
      * destruct (bool_decide (d < m)) eqn:Elt.
        -- apply bool_decide_eq_true_1 in Elt. apply IH.
           destruct Hinv as [_ Hlow]. split.
           ++ exists u. split; [apply elem_of_app; right; apply list_elem_of_here|].
              auto.
           ++ intros w d' Hw Hd'. apply elem_of_app in Hw as [Hw | Hw].
              ** specialize (Hlow w d' Hw Hd'). lra.
              ** apply list_elem_of_singleton in Hw as ->.
                 rewrite Ed in Hd'. injection Hd' as <-. lra.
        -- apply bool_decide_eq_false_1 in Elt. apply IH.
           destruct Hinv as [(w0 & Hw0 & Hpid & Hd0) Hlow]. split.
           ++ exists w0. split; [apply elem_of_app; by left | auto].
           ++ intros w d' Hw Hd'. apply elem_of_app in Hw as [Hw | Hw].
              ** exact (Hlow w d' Hw Hd').
              ** apply list_elem_of_singleton in Hw as ->.
                 rewrite Ed in Hd'. injection Hd' as <-. lra.
      * apply IH. destruct Hinv as [_ Hnone]. split.
        -- exists u. split; [apply elem_of_app; right; apply list_elem_of_here|].
           auto.
        -- intros w d' Hw Hd'. apply elem_of_app in Hw as [Hw | Hw].
           ** rewrite (Hnone w Hw) in Hd'. discriminate.
           ** apply list_elem_of_singleton in Hw as ->.
              rewrite Ed in Hd'. injection Hd' as <-. lra.
    + apply IH. destruct st as [[m|] pid].
      * destruct Hinv as [(w0 & Hw0 & Hpid & Hd0) Hlow]. split.
        -- exists w0. split; [apply elem_of_app; by left | auto].
        -- intros w d' Hw Hd'. apply elem_of_app in Hw as [Hw | Hw].
           ** exact (Hlow w d' Hw Hd').
           ** apply list_elem_of_singleton in Hw as ->. congruence.
      * destruct Hinv as [Hpid Hnone]. split; [exact Hpid|].
        intros w Hw. apply elem_of_app in Hw as [Hw | Hw]; [by apply Hnone|].
        by apply list_elem_of_singleton in Hw as ->.
Qed.

(** X14.  When the pit-lane search selects a way, that way is one whose
    first node is known and no way of the dataset has its first node
    nearer the anchor; and it selects none only if no way has a known
    first node. *)
Theorem pit_lane_is_nearest_first_node (nodes : gmap Z geo) (ways : list way)
    (pit_anchor : geo) (selected : option Z) :
  find_pit_lane nodes ways (Some pit_anchor) = Ok selected ->
  match selected with
  | Some pid =>
      exists w d,
        w ∈ ways /\ way_id w = pid
        /\ anchor_distance nodes pit_anchor w = Some d
        /\ forall w' d', w' ∈ ways ->
             anchor_distance nodes pit_anchor w' = Some d' -> d <= d'
  | None => forall w, w ∈ ways -> anchor_distance nodes pit_anchor w = None
  end.
Proof.
  unfold find_pit_lane.
  destruct (foldl _ _ ways) as [st|] eqn:Efold; [|discriminate].
  cbn [mbind result_bind bind]. intros [= <-].
  assert (Hinv : pit_invariant nodes pit_anchor ([] ++ ways) st).
  { apply (pit_fold_invariant nodes pit_anchor ways [] (None, None));
      [|exact Efold].
    split; [reflexivity|]. intros w Hw. by apply elem_of_nil in Hw. }
  cbn [app] in Hinv. destruct st as [[d|] pid]; cbn [snd].
  - destruct Hinv as [(w & Hw & -> & Hd) Hlow]. exists w, d. auto.
  - destruct Hinv as [-> Hnone]. exact Hnone.
Qed.

Lemma pit_lane_is_nearest_first_node_witness :
  exists w d,
    w ∈ [Examples.raceway; Examples.service_way] /\ way_id w = 11%Z
    /\ anchor_distance (<[2%Z:=Examples.node2]> (<[1%Z:=Examples.node1]> ∅))
                       Examples.node1 w = Some d
    /\ forall w' d', w' ∈ [Examples.raceway; Examples.service_way] ->
         anchor_distance (<[2%Z:=Examples.node2]> (<[1%Z:=Examples.node1]> ∅))
                         Examples.node1 w' = Some d' -> d <= d'.
Proof.
  exact (pit_lane_is_nearest_first_node
           (<[2%Z:=Examples.node2]> (<[1%Z:=Examples.node1]> ∅))
           [Examples.raceway; Examples.service_way] Examples.node1 (Some 11%Z)
           AssemblerProps.find_pit_lane_raceway).
Defined.

(** *** Bounds *)

Lemma upd_min_le (cur : option R) (v : R) :
  exists m, upd_min cur v = Some m /\ m <= v
            /\ forall c, cur = Some c -> m <= c.
Proof.
  unfold upd_min, lt_running. destruct cur as [c|].
  - destruct (bool_decide (v < c)) eqn:E.
    + apply bool_decide_eq_true_1 in E. exists v. split; [reflexivity|].
      split; [lra|]. intros c' [= <-]. lra.
    + apply bool_decide_eq_false_1 in E. exists c. split; [reflexivity|].
      split; [lra|]. intros c' [= <-]. lra.
  - exists v. split; [reflexivity|]. split; [lra | discriminate].
Qed.

Lemma upd_max_ge (cur : option R) (v : R) :
  exists m, upd_max cur v = Some m /\ v <= m
            /\ forall c, cur = Some c -> c <= m.
Proof.
  unfold upd_max, gt_running. destruct cur as [c|].
  - destruct (bool_decide (v > c)) eqn:E.
    + apply bool_decide_eq_true_1 in E. exists v. split; [reflexivity|].
      split; [lra|]. intros c' [= <-]. lra.
    + apply bool_decide_eq_false_1 in E. exists c. split; [reflexivity|].
      split; [lra|]. intros c' [= <-]. lra.
  - exists v. split; [reflexivity|]. split; [lra | discriminate].
Qed.

Lemma grow_bounds_inside (b : bounds) (m : xy) :
  inside (grow_bounds b m) m
  /\ forall m', inside b m' -> inside (grow_bounds b m) m'.
Proof.
  destruct (upd_min_le (minX b) (px m)) as (x0 & Ex0 & Hx0 & Lx0).
  destruct (upd_max_ge (maxX b) (px m)) as (x1 & Ex1 & Hx1 & Lx1).
  destruct (upd_min_le (minY b) (py m)) as (y0 & Ey0 & Hy0 & Ly0).
  destruct (upd_max_ge (maxY b) (py m)) as (y1 & Ey1 & Hy1 & Ly1).
  split.
  - exists x0, x1, y0, y1. cbn [grow_bounds minX maxX minY maxY]. auto 10.
  - intros m' (a0 & a1 & b0 & b1 & Ha0 & Ha1 & Hb0 & Hb1 & Hx & Hy).
    exists x0, x1, y0, y1. cbn [grow_bounds minX maxX minY maxY].
    specialize (Lx0 a0 Ha0). specialize (Lx1 a1 Ha1).
    specialize (Ly0 b0 Hb0). specialize (Ly1 b1 Hb1).
    repeat split; auto; lra.
Qed.

Lemma grown_bounds_inside (ms : list xy) (b : bounds) :
  (forall m, inside b m -> inside (foldl grow_bounds b ms) m)
  /\ forall m, m ∈ ms -> inside (foldl grow_bounds b ms) m.
Proof.
  revert b. induction ms as [|m0 ms IH]; intros b; cbn [foldl].
  - split; [auto|]. intros m Hm. by apply elem_of_nil in Hm.
  - destruct (IH (grow_bounds b m0)) as [IHold IHnew].
    destruct (grow_bounds_inside b m0) as [Hm0 Hkeep]. split.
    + intros m Hm. apply IHold, Hkeep, Hm.
    + intros m Hm. apply elem_of_cons in Hm as [-> | Hm]; [|by apply IHnew].
      by apply IHold.
Qed.

Lemma elem_of_concat {A} (x : A) (l : list A) (ls : list (list A)) :
  x ∈ l -> l ∈ ls -> x ∈ concat ls.
Proof.
  intros Hx. induction ls as [|l0 ls IH]; intros Hl.
  - by apply elem_of_nil in Hl.
  - cbn [concat]. apply elem_of_app.
    apply elem_of_cons in Hl as [<- | Hl]; [by left | right; by apply IH].
Qed.

Section ProcessChecks.

Variable parse_width : string -> option R.

Lemma process_osm_data_bounds (els : list element) (name : string)
    (pit_anchor : option geo) (tv : track_value) :
  process_osm_data parse_width (Some els) name pit_anchor = Ok (Some tv) ->
  tv_boundsMeters tv
  = foldl grow_bounds no_bounds (concat (map pv_points (tv_paths tv))).
Proof.
  unfold process_osm_data.
  destruct (p_ways (parse_elements els)) as [|w ways] eqn:E; [discriminate|].
  destruct (find_pit_lane _ _ pit_anchor) as [pid|]; [|discriminate].
  cbn [mbind result_bind bind]. intros [= <-]. reflexivity.
Qed.

Lemma process_way_shape (nodes : gmap Z geo) (c : R * R) (pid : option Z)
    (w : way) (p : path_value) :
  process_way parse_width nodes c pid w = Some p ->
  exists ids,
    way_nodes w = Some ids
    /\ pv_id p = way_id w
    /\ pv_rawPoints p = resolve nodes ids
    /\ pv_points p
       = map (fun q => project_to_local_meters (lat q) (lon q) c.1 c.2)
             (resolve nodes ids)
    /\ (2 <= length (resolve nodes ids))%nat
    /\ (forall t, way_tags w = Some t ->
          tag_truthy t "barrier" = false /\ tag_truthy t "wall" = false
          /\ tag_truthy t "building" = false)
    /\ (Some (way_id w) = pid -> pv_type p = Pit).
Proof.
  unfold process_way. destruct (way_nodes w) as [ids|]; [|discriminate].
  destruct (length ids <? 2)%nat; [discriminate|].
  destruct (length (resolve nodes ids) <? 2)%nat eqn:Elen; [discriminate|].
  apply Nat.ltb_ge in Elen.
  match goal with
  | |- context [if ?b then None else _] => destruct b; [discriminate|]
  end.
  destruct (tag_truthy (default ∅ (way_tags w)) "barrier") eqn:E1;
    [discriminate|].
  destruct (tag_truthy (default ∅ (way_tags w)) "wall") eqn:E2;
    [discriminate|].
  destruct (tag_truthy (default ∅ (way_tags w)) "building") eqn:E3;
    [discriminate|].
  cbn [orb]. intros [= <-].
  exists ids. cbn [pv_id pv_rawPoints pv_points pv_type].
  do 5 (split; [done|]). split.
  - intros t Ht. rewrite Ht in E1, E2, E3. auto.
  - intros Hpid. rewrite (bool_decide_eq_true_2 _ Hpid). reflexivity.
Qed.

Lemma omap_elem_of {A B} (f : A -> option B) (l : list A) (b : B) :
  b ∈ omap f l -> exists a, a ∈ l /\ f a = Some b.
Proof. intros Hb. by apply list_elem_of_omap in Hb. Qed.

Lemma omap_nodup {A B} (f : A -> option B) (ka : A -> Z) (kb : B -> Z)
    (l : list A) :
  (forall a b, f a = Some b -> kb b = ka a) ->
  NoDup (map ka l) -> NoDup (map kb (omap f l)).
Proof.
  intros Hkey. induction l as [|a l IH].
  - constructor.
  - cbn [map]. intros Hnd. apply NoDup_cons in Hnd as [Ha Hnd].
    change (omap f (a :: l))
      with (match f a with Some b => b :: omap f l | None => omap f l end).
    destruct (f a) as [b|] eqn:Eb; [|by apply IH].
    cbn [map]. apply NoDup_cons. split; [|by apply IH].
    intros Hin. apply Ha.
    apply list_elem_of_fmap in Hin as (b' & Hk & Hb').
    apply omap_elem_of in Hb' as (a' & Ha' & Hf').
    rewrite (Hkey a b Eb) in Hk. rewrite Hk, (Hkey a' b' Hf').
    by apply list_elem_of_fmap_2.
Qed.

(** X15.  The returned paths have pairwise distinct ids: of several way
    elements with the same id only one is used. *)
Theorem paths_have_distinct_ids (els : list element) (name : string)
    (pit_anchor : option geo) (tv : track_value) :
  process_osm_data parse_width (Some els) name pit_anchor = Ok (Some tv) ->
  NoDup (map pv_id (tv_paths tv)).
Proof.
  intros Hrun.
  destruct (AssemblerProps.process_osm_data_paths _ _ _ _ _ Hrun)
    as (c & pid & _ & ->).
  apply (omap_nodup _ way_id pv_id).
  - intros w p. apply AssemblerProps.process_way_id.
  - apply AssemblerProps.parse_elements_unique.
Qed.

(** X16.  Every returned path has at least two points and exactly one
    raw point per point, so that [finalize_track] can index
    [rawPoints[i]] for every point [i]. *)
Theorem paths_have_aligned_points (els : list element) (name : string)
    (pit_anchor : option geo) (tv : track_value) (p : path_value) :
  process_osm_data parse_width (Some els) name pit_anchor = Ok (Some tv) ->
  p ∈ tv_paths tv ->
  (2 <= length (pv_points p))%nat
  /\ length (pv_rawPoints p) = length (pv_points p).
Proof.
  intros Hrun Hp.
  destruct (AssemblerProps.process_osm_data_paths _ _ _ _ _ Hrun)
    as (c & pid & _ & Hpaths).
  rewrite Hpaths in Hp. apply omap_elem_of in Hp as (w & _ & Hw).
  apply process_way_shape in Hw as (ids & _ & _ & -> & -> & Hlen & _).
  rewrite length_map. auto.
Qed.

(** X17.  Every returned path stems from a way element of the dataset
    that carries no barrier, wall or building tag, and each of its raw
    points is the position of a node element of the dataset. *)
Theorem paths_stem_from_open_ways (els : list element) (name : string)
    (pit_anchor : option geo) (tv : track_value) (p : path_value) :
  process_osm_data parse_width (Some els) name pit_anchor = Ok (Some tv) ->
  p ∈ tv_paths tv ->
  (exists w,
     EWay w ∈ els /\ way_id w = pv_id p
     /\ forall t, way_tags w = Some t ->
          tag_truthy t "barrier" = false /\ tag_truthy t "wall" = false
          /\ tag_truthy t "building" = false)
  /\ forall pos, pos ∈ pv_rawPoints p -> exists i, ENode i pos ∈ els.
Proof.
  intros Hrun Hp.
  destruct (AssemblerProps.process_osm_data_paths _ _ _ _ _ Hrun)
    as (c & pid & _ & Hpaths).
  rewrite Hpaths in Hp. apply omap_elem_of in Hp as (w & Hin & Hw).
  apply process_way_shape in Hw as (ids & _ & Hid & Hraw & _ & _ & Htags & _).
  split.
  - exists w. split; [by apply parsed_way_origin|]. auto.
  - intros pos Hpos. rewrite Hraw in Hpos. unfold resolve in Hpos.
    apply omap_elem_of in Hpos as (i & _ & Hi).
    exists i. by apply parsed_node_origin.
Qed.

(** X18.  Every projected point of every returned path lies inside the
    returned bounds [minX .. maxX] by [minY .. maxY]. *)
Theorem bounds_contain_every_point (els : list element) (name : string)
    (pit_anchor : option geo) (tv : track_value) (p : path_value) (m : xy) :
  process_osm_data parse_width (Some els) name pit_anchor = Ok (Some tv) ->
  p ∈ tv_paths tv -> m ∈ pv_points p ->
  inside (tv_boundsMeters tv) m.
Proof.
  intros Hrun Hp Hm. rewrite (process_osm_data_bounds _ _ _ _ Hrun).
  apply grown_bounds_inside.
  apply (elem_of_concat m (pv_points p)); [exact Hm|].
  by apply (list_elem_of_fmap_2 pv_points).
Qed.

(** X19.  The call returns [None] exactly when the dataset holds no way
    element; a dataset whose ways are all filtered out gives a track with
    an empty path list instead. *)
Theorem no_track_exactly_without_ways (els : list element) (name : string)
    (pit_anchor : option geo) :
  process_osm_data parse_width (Some els) name pit_anchor = Ok None
  <-> forall w, EWay w ∉ els.
Proof.
  rewrite <- no_ways_iff. unfold process_osm_data.
  destruct (p_ways (parse_elements els)) as [|w ways] eqn:E.
  - split; reflexivity.
  - destruct (find_pit_lane _ _ pit_anchor) as [pid|];
      cbn [mbind result_bind bind]; split; discriminate.
Qed.

(** X20.  A way element without the ['nodes'] key (whose id no other way
    element shares) makes the call raise [KeyError('nodes')] when a pit
    anchor is given, while without a pit anchor the call returns and
    merely leaves that way out. *)
Theorem way_without_nodes_raises_only_with_anchor (els : list element)
    (name : string) (pit_anchor : geo) (w : way) :
  EWay w ∈ els ->
  (forall w', EWay w' ∈ els -> way_id w' = way_id w -> w' = w) ->
  way_nodes w = None ->
  process_osm_data parse_width (Some els) name (Some pit_anchor)
  = Raise (KeyError "nodes")
  /\ exists tv,
       process_osm_data parse_width (Some els) name None = Ok (Some tv)
       /\ forall p, p ∈ tv_paths tv -> pv_id p <> way_id w.
Proof.
  intros Hw Huniq Hnodes.
  destruct (way_element_parsed els w Hw) as (w' & Hw' & Hid).
  assert (w' = w) as -> by (apply Huniq; [by apply parsed_way_origin | exact Hid]).
  split.
  - unfold process_osm_data.
    destruct (p_ways (parse_elements els)) as [|w0 ways] eqn:E.
    { by apply elem_of_nil in Hw'. }
    unfold find_pit_lane.
    rewrite (pit_fold_missing_nodes _ _ _ _ w Hw' Hnodes). reflexivity.
  - destruct (AssemblerProps.process_osm_data_returns parse_width els name None None)
      as (c & tv & Hrun & Hpaths).
    { intros E. rewrite E in Hw'. by apply elem_of_nil in Hw'. }
    { reflexivity. }
    exists tv. split; [exact Hrun|].
    intros p Hp Hpid. rewrite Hpaths in Hp.
    apply omap_elem_of in Hp as (u & Hu & Hproc).
    pose proof (AssemblerProps.process_way_id _ _ _ _ _ _ Hproc) as Hidu.
    assert (u = w) as ->.
    { apply (AssemblerProps.same_id_same_way (p_ways (parse_elements els)));
        auto using AssemblerProps.parse_elements_unique. congruence. }
    unfold process_way in Hproc. rewrite Hnodes in Hproc. discriminate.
Qed.

End ProcessChecks.

(** *** The example map data again *)

Lemma service_only_run :
  exists tv p m,
    process_osm_data Examples.no_width (Some Examples.service_only) "track" None
    = Ok (Some tv)
    /\ p ∈ tv_paths tv /\ m ∈ pv_points p.
Proof.
  destruct AssemblerProps.parse_service_only as [Hways Hnodes].
  destruct (AssemblerProps.process_osm_data_returns Examples.no_width
              Examples.service_only "track" None None) as (c & tv & Hrun & Hpaths).
  { rewrite Hways. discriminate. }
  { reflexivity. }
  rewrite Hways, Hnodes in Hpaths.
  destruct (AssemblerProps.service_way_processed c) as (p & Hp & _).
  assert (Hin : p ∈ tv_paths tv).
  { rewrite Hpaths. cbn [omap list_omap]. rewrite Hp. apply list_elem_of_here. }
  destruct (process_way_shape _ _ _ _ _ _ Hp) as (ids & _ & _ & _ & Hpts & Hlen & _).
  destruct (pv_points p) as [|m ms] eqn:Epts.
  { symmetry in Hpts. apply fmap_nil_inv in Hpts. rewrite Hpts in Hlen.
    cbn in Hlen. lia. }
  exists tv, p, m. split; [exact Hrun|]. split; [exact Hin|].
  rewrite Epts. apply list_elem_of_here.
Qed.

Lemma paths_have_distinct_ids_witness :
  exists tv,
    process_osm_data Examples.no_width (Some Examples.service_only) "track" None
    = Ok (Some tv)
    /\ NoDup (map pv_id (tv_paths tv)).
Proof.
  destruct service_only_run as (tv & p & m & Hrun & _).
  exists tv. split; [exact Hrun|].
  exact (paths_have_distinct_ids Examples.no_width Examples.service_only
           "track" None tv Hrun).
Defined.

Lemma paths_have_aligned_points_witness :
  exists tv p,
    process_osm_data Examples.no_width (Some Examples.service_only) "track" None
    = Ok (Some tv)
    /\ p ∈ tv_paths tv
    /\ (2 <= length (pv_points p))%nat
    /\ length (pv_rawPoints p) = length (pv_points p).
Proof.
  destruct service_only_run as (tv & p & m & Hrun & Hp & _).
  exists tv, p. split; [exact Hrun|]. split; [exact Hp|].
  exact (paths_have_aligned_points Examples.no_width Examples.service_only
           "track" None tv p Hrun Hp).
Defined.

Lemma paths_stem_from_open_ways_witness :
  exists tv p,
    process_osm_data Examples.no_width (Some Examples.service_only) "track" None
    = Ok (Some tv)
    /\ p ∈ tv_paths tv
    /\ (exists w,
          EWay w ∈ Examples.service_only /\ way_id w = pv_id p
          /\ forall t, way_tags w = Some t ->
               tag_truthy t "barrier" = false /\ tag_truthy t "wall" = false
               /\ tag_truthy t "building" = false)
    /\ forall pos, pos ∈ pv_rawPoints p ->
         exists i, ENode i pos ∈ Examples.service_only.
Proof.
  destruct service_only_run as (tv & p & m & Hrun & Hp & _).
  exists tv, p. split; [exact Hrun|]. split; [exact Hp|].
  exact (paths_stem_from_open_ways Examples.no_width Examples.service_only
           "track" None tv p Hrun Hp).
Defined.

Lemma bounds_contain_every_point_witness :
  exists tv p m,
    process_osm_data Examples.no_width (Some Examples.service_only) "track" None
    = Ok (Some tv)
    /\ p ∈ tv_paths tv /\ m ∈ pv_points p
    /\ inside (tv_boundsMeters tv) m.
Proof.
  destruct service_only_run as (tv & p & m & Hrun & Hp & Hm).
  exists tv, p, m. split; [exact Hrun|]. split; [exact Hp|]. split; [exact Hm|].
  exact (bounds_contain_every_point Examples.no_width Examples.service_only
           "track" None tv p m Hrun Hp Hm).
Defined.

Lemma way_without_nodes_raises_only_with_anchor_witness :
  process_osm_data Examples.no_width (Some MoreExamples.with_broken_way) "track"
                   (Some Examples.node1)
  = Raise (KeyError "nodes")
  /\ exists tv,
       process_osm_data Examples.no_width (Some MoreExamples.with_broken_way)
                        "track" None = Ok (Some tv)
       /\ forall p, p ∈ tv_paths tv -> pv_id p <> way_id MoreExamples.broken_way.
Proof.
  apply (way_without_nodes_raises_only_with_anchor Examples.no_width
           MoreExamples.with_broken_way "track" Examples.node1
           MoreExamples.broken_way).
  - unfold MoreExamples.with_broken_way.
    do 3 apply list_elem_of_further. apply list_elem_of_here.
  - intros w' Hw' Hid. unfold MoreExamples.with_broken_way in Hw'.
    repeat (apply elem_of_cons in Hw' as [Hw' | Hw']); try discriminate.
    + injection Hw' as ->. discriminate.
    + by injection Hw' as ->.
    + by apply elem_of_nil in Hw'.
  - reflexivity.
Defined.

End AssemblerChecks.

Module SurveyChecks.
Import Py TrackProcessor Spec Survey.
Local Open Scope R_scope.

Ltac lra := Lra.lra.
Ltac nra := Lra.nra.

(** *** Chains *)

Lemma chained_lookup (P : spline_point -> spline_point -> Prop)
    (pts : list spline_point) (i : nat) (a b : spline_point) :
  chained P pts -> pts !! i = Some a -> pts !! S i = Some b -> P a b.
Proof.
  revert i. induction pts as [|u [|v pts] IH]; intros i Hc Ha Hb.
  - by rewrite lookup_nil in Ha.
  - cbn in Hb. discriminate.
  - destruct Hc as [Huv Hc]. destruct i as [|i].
    + injection Ha as <-. injection Hb as <-. exact Huv.
    + exact (IH i Hc Ha Hb).
Qed.

Lemma chained_tail (P : spline_point -> spline_point -> Prop)
    (a : spline_point) (pts : list spline_point) :
  chained P (a :: pts) ->
  chained P pts /\ forall b, head pts = Some b -> P a b.
Proof.
  destruct pts as [|b pts]; cbn [chained].
  - split; [exact I | discriminate].
  - intros [Hab Hc]. split; [exact Hc|]. by intros b' [= <-].
Qed.

Lemma chained_app (P : spline_point -> spline_point -> Prop)
    (l l' : list spline_point) :
  chained P l -> chained P l' ->
  (forall a b, last l = Some a -> head l' = Some b -> P a b) ->
  chained P (l ++ l').
Proof.
  induction l as [|u [|v l] IH]; intros Hl Hl' Hj.
  - exact Hl'.
  - destruct l' as [|b l']; [exact I|].
    cbn [app chained]. split; [by apply Hj | exact Hl'].
  - destruct Hl as [Huv Hl]. cbn [app chained]. split; [exact Huv|].
    apply IH; [exact Hl | exact Hl' |].
    intros a b Ha Hb. apply Hj; [|exact Hb]. by rewrite last_cons_cons.
Qed.

Lemma chained_steps (P : spline_point -> spline_point -> Prop)
    (f : nat -> spline_point) (n a : nat) (e : spline_point) :
  (forall s, (a <= s < a + n)%nat -> P (f s) (f (S s))) ->
  P (f (a + n)%nat) e ->
  chained P (f a :: map f (seq (S a) n) ++ [e]).
Proof.
  revert a. induction n as [|n IH]; intros a Hstep Hend.
  - cbn. rewrite Nat.add_0_r in Hend. auto.
  - cbn [seq map app chained]. split; [apply Hstep; lia|].
    apply IH.
    + intros s Hs. apply Hstep. lia.
    + by replace (S a + n)%nat with (a + S n)%nat by lia.
Qed.

Lemma cons_eq {A} (a b : A) (l l' : list A) :
  a :: l = b :: l' -> a = b /\ l = l'.
Proof.
  intros E. split.
  - exact (f_equal (fun k => match k with u :: _ => u | [] => a end) E).
  - exact (f_equal (fun k => match k with _ :: k' => k' | [] => [] end) E).
Qed.

Lemma chained_same_shape (P : spline_point -> spline_point -> Prop)
    (l l' : list spline_point) :
  (forall a b a' b', sp_xy a' = sp_xy a -> dist a' = dist a ->
     sp_xy b' = sp_xy b -> dist b' = dist b -> P a b -> P a' b') ->
  map sp_xy l' = map sp_xy l -> map dist l' = map dist l ->
  chained P l -> chained P l'.
Proof.
  intros HP. revert l'. induction l as [|a [|b l] IH]; intros l' Hxy Hd Hc.
  - by apply fmap_nil_inv in Hxy as ->.
  - destruct l' as [|a' [|b' l']]; try discriminate; exact I.
  - destruct l' as [|a' [|b' l']]; try discriminate.
    destruct Hc as [Hab Hc]. cbn [map] in Hxy, Hd.
    apply cons_eq in Hxy as [Ea Hxy]. apply cons_eq in Hd as [Da Hd].
    pose proof Hxy as Hxy'. pose proof Hd as Hd'.
    apply cons_eq in Hxy' as [Eb _]. apply cons_eq in Hd' as [Db _].
    split.
    + by apply (HP a b).
    + apply IH; [exact Hxy | exact Hd | exact Hc].
Qed.

Lemma arc_step_shape (a b a' b' : spline_point) :
  sp_xy a' = sp_xy a -> dist a' = dist a ->
  sp_xy b' = sp_xy b -> dist b' = dist b -> arc_step a b -> arc_step a' b'.
Proof. unfold arc_step. intros -> -> -> ->. auto. Qed.

Lemma fine_step_shape (a b a' b' : spline_point) :
  sp_xy a' = sp_xy a -> dist a' = dist a ->
  sp_xy b' = sp_xy b -> dist b' = dist b -> fine_step a b -> fine_step a' b'.
Proof. unfold fine_step. intros -> _ -> _. auto. Qed.

(** *** Distances along a straight line *)

Lemma scaled_hypot (a b c : R) :
  0 <= c -> sqrt ((a * c) ^ 2 + (b * c) ^ 2) = c * sqrt (a ^ 2 + b ^ 2).
Proof.
  intros Hc.
  replace ((a * c) ^ 2 + (b * c) ^ 2) with (c ^ 2 * (a ^ 2 + b ^ 2)) by ring.
  rewrite sqrt_mult; [|nra|nra]. by rewrite sqrt_pow2.
Qed.

Lemma int_of_above (d : R) : 0 <= d -> d < INR (int_of d) + 1.
Proof.
  intros Hd. unfold int_of. rewrite INR_IZR_INZ, Z2Nat.id.
  - apply Zfloor_bound.
  - apply Zfloor_lub. simpl. exact Hd.
Qed.

Lemma int_of_positive (d : R) : 1 < d -> (1 <= int_of d)%nat.
Proof.
  intros Hd. pose proof (int_of_above d ltac:(lra)) as Hub.
  destruct (int_of d); [cbn in Hub; lra | lia].
Qed.

(** The point that the loop inserts at step [s] between [last_p] and
    [p], as far as its position and cumulative distance go. *)
Lemma interpolated_lookup (last_p : spline_point) (p : xy) (d : R)
    (last_raw raw_p : geo * R) (total w : R) :
  exists f : nat -> spline_point,
    interpolated last_p p d last_raw raw_p total w = map f (seq 1 (int_of d))
    /\ forall s, x (f s) = x last_p + (px p - x last_p) * (INR s / d)
                 /\ y (f s) = y last_p + (py p - y last_p) * (INR s / d)
                 /\ dist (f s) = total + INR s.
Proof.
  eexists (fun s : nat => _). split; [reflexivity|].
  intros s. cbn. auto.
Qed.

Lemma step_between (f : nat -> spline_point) (last_p : spline_point) (p : xy)
    (d total : R) (s : nat) :
  d = get_distance_meters (sp_xy last_p) p -> 1 < d ->
  (forall s, x (f s) = x last_p + (px p - x last_p) * (INR s / d)
             /\ y (f s) = y last_p + (py p - y last_p) * (INR s / d)
             /\ dist (f s) = total + INR s) ->
  get_distance_meters (sp_xy (f s)) (sp_xy (f (S s))) = 1
  /\ dist (f (S s)) = dist (f s) + 1.
Proof.
  intros Hd Hlt Hf.
  destruct (Hf s) as (Hx & Hy & Hdist). destruct (Hf (S s)) as (Hx' & Hy' & Hdist').
  split.
  - unfold get_distance_meters, sp_xy. cbn [px py].
    rewrite Hx, Hy, Hx', Hy', S_INR.
    replace (x last_p + (px p - x last_p) * ((INR s + 1) / d)
             - (x last_p + (px p - x last_p) * (INR s / d)))
      with ((px p - x last_p) * (1 / d)) by (field; lra).
    replace (y last_p + (py p - y last_p) * ((INR s + 1) / d)
             - (y last_p + (py p - y last_p) * (INR s / d)))
      with ((py p - y last_p) * (1 / d)) by (field; lra).
    rewrite scaled_hypot.
    + unfold get_distance_meters, sp_xy in Hd. cbn [px py] in Hd.
      rewrite <- Hd. field. lra.
    + apply Rlt_le, Rdiv_lt_0_compat; lra.
  - rewrite Hdist, Hdist', S_INR. lra.
Qed.

Lemma step_to_vertex (f : nat -> spline_point) (last_p v : spline_point) (p : xy)
    (d total : R) (s : nat) :
  d = get_distance_meters (sp_xy last_p) p -> 1 < d -> INR s <= d ->
  (forall s, x (f s) = x last_p + (px p - x last_p) * (INR s / d)
             /\ y (f s) = y last_p + (py p - y last_p) * (INR s / d)
             /\ dist (f s) = total + INR s) ->
  sp_xy v = p -> dist v = total + d ->
  get_distance_meters (sp_xy (f s)) (sp_xy v) = d - INR s
  /\ dist v = dist (f s) + (d - INR s).
Proof.
  intros Hd Hlt Hs Hf Hv Hdv.
  destruct (Hf s) as (Hx & Hy & Hdist).
  split.
  - rewrite Hv. unfold get_distance_meters, sp_xy. cbn [px py].
    rewrite Hx, Hy.
    replace (px p - (x last_p + (px p - x last_p) * (INR s / d)))
      with ((px p - x last_p) * (1 - INR s / d)) by (field; lra).
    replace (py p - (y last_p + (py p - y last_p) * (INR s / d)))
      with ((py p - y last_p) * (1 - INR s / d)) by (field; lra).
    rewrite scaled_hypot.
    + unfold get_distance_meters, sp_xy in Hd. cbn [px py] in Hd.
      rewrite <- Hd. field. lra.
    + assert (0 < / d) by (apply Rinv_0_lt_compat; lra).
      assert (d * / d = 1) by (field; lra).
      unfold Rdiv. nra.
  - rewrite Hdv, Hdist. lra.
Qed.

(** *** The resampling loop *)

Lemma sp_xy_vertex (p : xy) (zv la lo dv wv : R) :
  sp_xy {| x := px p; y := py p; z := zv; sp_lat := la; sp_lon := lo;
           dist := dv; width := wv |} = p.
Proof. by destruct p. Qed.

Lemma head_app_nonempty {A} (l l' : list A) : l <> [] -> head (l ++ l') = head l.
Proof. by destruct l. Qed.

Lemma last_none_nil {A} (l : list A) : last l = None -> l = [].
Proof.
  destruct l as [|a l] using rev_ind; [reflexivity|].
  by rewrite last_snoc.
Qed.

Lemma inserted_chain (P : spline_point -> spline_point -> Prop)
    (f : nat -> spline_point) (last_p v : spline_point) (n : nat)
    (pts : list spline_point) :
  (forall a b a' b', sp_xy a' = sp_xy a -> dist a' = dist a ->
     sp_xy b' = sp_xy b -> dist b' = dist b -> P a b -> P a' b') ->
  chained P pts -> last pts = Some last_p ->
  sp_xy (f 0%nat) = sp_xy last_p -> dist (f 0%nat) = dist last_p ->
  (forall s, (s < n)%nat -> P (f s) (f (S s))) ->
  P (f n) v ->
  chained P (pts ++ map f (seq 1 n) ++ [v]).
Proof.
  intros HP Hc Hl Hxy Hd Hstep Hend.
  pose proof (chained_steps P f n 0 v) as Hchain.
  destruct (chained_tail P (f 0%nat) (map f (seq 1 n) ++ [v])) as [Hrest Hjoin].
  { apply Hchain; [|exact Hend]. intros s Hs. apply Hstep. lia. }
  apply chained_app; [exact Hc | exact Hrest |].
  intros a b Ha Hb. rewrite Hl in Ha. injection Ha as <-.
  apply (HP (f 0%nat) b); auto.
Qed.

Lemma resample_step_plotted (h : heap) (w : R) (prev : option (geo * R))
    (p : xy) (r : loc * geo) (st : list spline_point * R) :
  plotted st ->
  let raw_p := raw_view h r in
  let st1 :=
    match last st.1 with
    | None => st
    | Some last_p =>
        let last_raw := default raw_p prev in
        let d := get_distance_meters (sp_xy last_p) p in
        let added :=
          if bool_decide (d > 1)
          then interpolated last_p p d last_raw raw_p st.2 w
          else [] in
        (st.1 ++ added, st.2 + d)
    end in
  let vertex :=
    {| x := px p; y := py p; z := raw_p.2;
       sp_lat := lat raw_p.1; sp_lon := lon raw_p.1;
       dist := st1.2; width := w |} in
  plotted (st1.1 ++ [vertex], st1.2).
Proof.
  intros (Hzero & Hlast & Hhead & Harc & Hfine). cbv zeta.
  set (raw_p := raw_view h r).
  destruct (last st.1) as [last_p|] eqn:El.
  - pose proof (Hlast last_p eq_refl) as Hdl.
    set (d := get_distance_meters (sp_xy last_p) p).
    pose proof (FinalizeProps.get_distance_nonneg (sp_xy last_p) p) as Hd0. fold d in Hd0.
    assert (Hne : st.1 <> []) by (intros E; rewrite E in El; discriminate).
    cbn [fst snd].
    set (vertex := {| x := px p; y := py p; z := raw_p.2;
                      sp_lat := lat raw_p.1; sp_lon := lon raw_p.1;
                      dist := st.2 + d; width := w |}).
    assert (Hvxy : sp_xy vertex = p) by apply sp_xy_vertex.
    assert (Hshape : forall added,
              (chained arc_step (st.1 ++ added ++ [vertex])) ->
              (chained fine_step (st.1 ++ added ++ [vertex])) ->
              plotted ((st.1 ++ added) ++ [vertex], st.2 + d)).
    { intros added Ha Hf. unfold plotted. cbn [fst snd].
      rewrite <- app_assoc.
      split; [intros E; by apply app_nil in E as [? _]|].
      split; [rewrite app_assoc, last_snoc; by intros q [= <-]|].
      split; [|split; assumption].
      rewrite head_app_nonempty by exact Hne. exact Hhead. }
    destruct (bool_decide (d > 1)) eqn:E.
    + apply bool_decide_eq_true_1 in E.
      destruct (interpolated_lookup last_p p d (default raw_p prev) raw_p st.2 w)
        as (f & -> & Hf).
      assert (Hf0xy : sp_xy (f 0%nat) = sp_xy last_p).
      { destruct (Hf 0%nat) as (Hx & Hy & _). unfold sp_xy. rewrite Hx, Hy.
        cbn [INR]. f_equal; unfold Rdiv; ring. }
      assert (Hf0d : dist (f 0%nat) = dist last_p).
      { destruct (Hf 0%nat) as (_ & _ & Hd). rewrite Hd, Hdl. cbn [INR]. ring. }
      pose proof (FinalizeProps.int_of_below d Hd0) as Hlow.
      pose proof (int_of_above d Hd0) as Hup.
      destruct (step_to_vertex f last_p vertex p d st.2 (int_of d) eq_refl
                  ltac:(lra) Hlow Hf Hvxy eq_refl) as [Hvd Hvs].
      apply Hshape.
      * apply (inserted_chain arc_step f last_p vertex (int_of d) st.1
                 arc_step_shape Harc El Hf0xy Hf0d).
        -- intros s _.
           destruct (step_between f last_p p d st.2 s eq_refl ltac:(lra) Hf)
             as [Hs1 Hs2].
           unfold arc_step. lra.
        -- unfold arc_step. lra.
      * apply (inserted_chain fine_step f last_p vertex (int_of d) st.1
                 fine_step_shape Hfine El Hf0xy Hf0d).
        -- intros s _.
           destruct (step_between f last_p p d st.2 s eq_refl ltac:(lra) Hf)
             as [Hs1 Hs2].
           unfold fine_step. lra.
        -- unfold fine_step. lra.
    + apply bool_decide_eq_false_1 in E.
      apply Hshape; cbn [app].
      * apply chained_app; [exact Harc | exact I |].
        intros a b Ha [= <-]. rewrite El in Ha. injection Ha as <-.
        unfold arc_step. rewrite Hvxy. cbn [dist vertex]. fold d. lra.
      * apply chained_app; [exact Hfine | exact I |].
        intros a b Ha [= <-]. rewrite El in Ha. injection Ha as <-.
        unfold fine_step. rewrite Hvxy. fold d. lra.
  - pose proof (last_none_nil _ El) as Hnil.
    pose proof (Hzero Hnil) as Hz.
    unfold plotted. rewrite Hnil. cbn [app fst snd head last chained dist].
    split; [done|]. split; [by intros q [= <-]|].
    split; [by intros q [= <-]|]. split; exact I.
Qed.

Lemma plotted_start : plotted ([], 0).
Proof. unfold plotted. cbn. repeat split; auto; discriminate. Qed.

Lemma resample_points_plotted (h : heap) (w : R) (pts : list xy)
    (raws : list (loc * geo)) (prev : option (geo * R))
    (st st' : list spline_point * R) :
  plotted st ->
  resample_points h w prev pts raws st = Ok st' ->
  plotted st'.
Proof.
  revert raws prev st. induction pts as [|p pts IH]; intros raws prev st Hm Hrun.
  - by injection Hrun as <-.
  - destruct raws as [|r raws]; [discriminate|].
    cbn [resample_points] in Hrun.
    apply IH in Hrun; [exact Hrun|].
    apply resample_step_plotted. exact Hm.
Qed.

Lemma resample_plotted (h : heap) (segs : list segment)
    (st st' : list spline_point * R) :
  plotted st -> resample h segs st = Ok st' -> plotted st'.
Proof.
  revert st. induction segs as [|seg segs IH]; intros st Hm Hrun.
  - by injection Hrun as <-.
  - cbn [resample] in Hrun.
    destruct (resample_points h (seg_width seg) None (seg_points seg)
                (seg_rawPoints seg) st) as [st1|] eqn:E; [|discriminate].
    cbn [mbind result_bind bind] in Hrun.
    exact (IH _ (resample_points_plotted _ _ _ _ _ _ _ Hm E) Hrun).
Qed.

(** X21.  The resampling loop leaves consecutive spline points at most
    one metre apart, also across the gap between two segments, and
    records as ['dist'] of each point the length of the polyline up to
    it. *)
Theorem resampled_points_are_one_metre_apart (h : heap) (segs : list segment)
    (pts : list spline_point) (total : R) (i : nat) (p q : spline_point) :
  resample h segs ([], 0) = Ok (pts, total) ->
  pts !! i = Some p -> pts !! S i = Some q ->
  get_distance_meters (sp_xy p) (sp_xy q) <= 1
  /\ dist q = dist p + get_distance_meters (sp_xy p) (sp_xy q).
Proof.
  intros Hrun Hp Hq.
  destruct (resample_plotted _ _ _ _ plotted_start Hrun)
    as (_ & _ & _ & Harc & Hfine). cbn [fst] in *.
  split.
  - exact (chained_lookup fine_step pts i p q Hfine Hp Hq).
  - exact (chained_lookup arc_step pts i p q Harc Hp Hq).
Qed.

(** *** From the resampled points to the returned track *)

Lemma arc_same_shape (l l' : list spline_point) :
  map sp_xy l' = map sp_xy l -> map dist l' = map dist l ->
  arc_measured l -> arc_measured l'.
Proof.
  intros Hxy Hd [Hhead Hc]. split.
  - destruct l' as [|a' l']; [discriminate|].
    destruct l as [|a l]; [discriminate|].
    intros p [= <-]. apply cons_eq in Hd as [-> _]. by apply Hhead.
  - exact (chained_same_shape arc_step l l' arc_step_shape Hxy Hd Hc).
Qed.

Lemma imap_same {B} (g : spline_point -> B)
    (f : nat -> spline_point -> spline_point) (pts : list spline_point) :
  (forall i p, g (f i p) = g p) -> map g (imap f pts) = map g pts.
Proof.
  revert f. induction pts as [|p pts IH]; intros f Hf; [reflexivity|].
  cbn [imap map]. rewrite Hf. f_equal. apply IH. intros i q. apply Hf.
Qed.

Lemma scaled_distance (k : R) (a b : spline_point) :
  0 <= k ->
  get_distance_meters (sp_xy (scale_point k a)) (sp_xy (scale_point k b))
  = k * get_distance_meters (sp_xy a) (sp_xy b).
Proof.
  intros Hk. unfold get_distance_meters, sp_xy, scale_point. cbn [px py x y].
  replace (x b * k - x a * k) with ((x b - x a) * k) by ring.
  replace (y b * k - y a * k) with ((y b - y a) * k) by ring.
  by apply scaled_hypot.
Qed.

Lemma arc_scaled (k : R) (pts : list spline_point) :
  0 <= k -> arc_measured pts -> arc_measured (map (scale_point k) pts).
Proof.
  intros Hk [Hhead Hc]. split.
  - destruct pts as [|a pts]; [discriminate|].
    intros p [= <-]. cbn [scale_point dist]. rewrite (Hhead a eq_refl). ring.
  - clear Hhead. induction pts as [|a [|b pts] IH]; try exact I.
    destruct Hc as [Hab Hc]. split; [|by apply IH].
    unfold arc_step in *. rewrite scaled_distance by exact Hk.
    cbn [scale_point dist]. rewrite Hab. ring.
Qed.

Lemma recompute_from_arc (pts : list spline_point) (prev prev' : spline_point)
    (total : R) :
  sp_xy prev' = sp_xy prev -> dist prev' = total ->
  chained arc_step (prev' :: (recompute_from prev total pts).1).
Proof.
  revert prev prev' total. induction pts as [|p pts IH]; intros prev prev' total Hxy Hd.
  - exact I.
  - cbn [recompute_from].
    set (total' := total + get_distance_meters (sp_xy prev) (sp_xy p)).
    specialize (IH p (set_dist p total') total' eq_refl eq_refl).
    destruct (recompute_from p total' pts) as [rest final]. cbn [fst] in *.
    split; [|exact IH].
    unfold arc_step. rewrite Hxy, Hd. reflexivity.
Qed.

Lemma recompute_dist_arc (pts : list spline_point) :
  arc_measured (recompute_dist pts).1.
Proof.
  destruct pts as [|p0 pts]; cbn [recompute_dist].
  - split; [discriminate | exact I].
  - pose proof (recompute_from_arc pts p0 (set_dist p0 0) 0 eq_refl eq_refl) as Hc.
    destruct (recompute_from p0 0 pts) as [rest final]. cbn [fst] in *.
    split; [by intros p [= <-] | exact Hc].
Qed.

Lemma scale_and_rotate_arc (pts : list spline_point) (total : R)
    (miles : option R) (unscaled_sf : xy) (pl : placed) :
  arc_measured pts -> 0 <= total ->
  scale_and_rotate pts total miles unscaled_sf = Ok pl ->
  arc_measured (pl_points pl).
Proof.
  intros Harc Htotal Hrun. unfold scale_and_rotate in Hrun.
  assert (Hscaled : exists pts1 total1 k,
            scale_track pts total miles = Ok (pts1, total1, k)
            /\ arc_measured pts1).
  { unfold scale_track in *.
    destruct miles as [m|]; [|by eexists _, _, _].
    destruct (bool_decide (m > 0)) eqn:Em; [|by eexists _, _, _].
    apply bool_decide_eq_true_1 in Em.
    destruct (bool_decide (total = 0)) eqn:Et; [discriminate|].
    apply bool_decide_eq_false_1 in Et.
    eexists _, _, _. split; [reflexivity|].
    apply arc_scaled; [|exact Harc].
    apply Rlt_le, Rdiv_lt_0_compat; [|lra].
    unfold METERS_PER_MILE. lra. }
  destruct Hscaled as (pts1 & total1 & k & E & Harc1).
  rewrite E in Hrun. cbn [mbind result_bind bind] in Hrun.
  set (i := find_sf_index _ _) in Hrun.
  destruct (rotate_to_sf pts1 total1 i) as [pts2 total2] eqn:Er.
  injection Hrun as <-. cbn [pl_points].
  unfold rotate_to_sf in Er. destruct i as [|i].
  - by injection Er as <- <-.
  - pose proof (recompute_dist_arc (drop (S i) pts1 ++ take (S i) pts1)) as H.
    by rewrite Er in H.
Qed.

Section FinalizedArc.

Variable round6 : R -> R.
Variable gaussian_filter1d : list R -> list R.

Lemma smooth_same_xy (pts : list spline_point) :
  map sp_xy (smooth_elevation gaussian_filter1d pts) = map sp_xy pts.
Proof.
  unfold smooth_elevation. destruct (10 <? length pts)%nat; [|reflexivity].
  by apply imap_same.
Qed.

Lemma finish_arc (h h' : heap) (td : track_data) (sf : geo)
    (ordered_segments : list segment) (s1 s2 miles : option R)
    (fetch : option fetcher) (out : finalized) :
  finish round6 gaussian_filter1d h td sf ordered_segments s1 s2 miles fetch
  = (h', Ok (Some out)) ->
  arc_measured (splinePoints out).
Proof.
  unfold finish.
  destruct (resample h ordered_segments ([], 0)) as [st0|]; [|discriminate].
  destruct (resample (elevate_track round6 fetch h ordered_segments) _ _)
    as [[sp total]|] eqn:Eres; [|discriminate].
  destruct (resample_plotted _ _ _ _ plotted_start Eres)
    as (_ & _ & Hhead & Harc & _). cbn [fst] in *.
  destruct (FinalizeProps.resample_measured _ _ _ _ FinalizeProps.measured_start Eres)
    as [(_ & _ & Hpos & _) _]. cbn [snd] in Hpos.
  pose proof (FinalizeProps.normalize_same_dist
                (elevate_pits round6 fetch
                   (elevate_track round6 fetch h ordered_segments)
                   (filter (fun p => is_pit p = true) (paths td)))
                (smooth_elevation gaussian_filter1d sp)
                (filter (fun p => is_pit p = true) (paths td))) as Hd.
  pose proof (FinalizeProps.normalize_same_xy
                (elevate_pits round6 fetch
                   (elevate_track round6 fetch h ordered_segments)
                   (filter (fun p => is_pit p = true) (paths td)))
                (smooth_elevation gaussian_filter1d sp)
                (filter (fun p => is_pit p = true) (paths td))) as Hxy.
  destruct (normalize_elevation _ _ _) as [h3 sp3]. cbn [snd] in Hd, Hxy.
  rewrite (FinalizeProps.smooth_same_dist gaussian_filter1d) in Hd.
  rewrite smooth_same_xy in Hxy.
  destruct (scale_and_rotate sp3 total miles _) as [pl|] eqn:Epl; [|discriminate].
  pose proof (scale_and_rotate_arc sp3 total miles _ pl
                (arc_same_shape sp sp3 Hxy Hd (conj Hhead Harc)) Hpos Epl) as Hout.
  destruct (sector_indices (pl_points pl) s1 s2) as [i1 i2].
  intros [= _ <-]. exact Hout.
Qed.

(** X22.  In every returned track the first spline point has ['dist'] 0
    and the ['dist'] of each further point is that of its predecessor
    plus the distance between the two: ['dist'] is the length of the
    track from the start/finish point, also after scaling and after the
    rotation to the start/finish point. *)
Theorem finalized_dist_is_path_length (h h' : heap) (track : option track_data)
    (sf_lat sf_lon s1 s2 s3 miles : option R) (fetch : option fetcher)
    (out : finalized) :
  finalize_track round6 gaussian_filter1d h track sf_lat sf_lon s1 s2 s3 miles fetch
  = (h', Ok (Some out)) ->
  (exists p0, sfMarker out = Some p0 /\ dist p0 = 0)
  /\ forall i p q,
       splinePoints out !! i = Some p -> splinePoints out !! S i = Some q ->
       dist q = dist p + get_distance_meters (sp_xy p) (sp_xy q).
Proof.
  intros Hrun.
  destruct (FinalizeProps.finalize_track_measured _ _ _ _ _ _ _ _ _ _ _ _ _ Hrun)
    as (Hne & _).
  assert (Hmark : sfMarker out = head (splinePoints out)
                  /\ arc_measured (splinePoints out)).
  { revert Hrun. unfold finalize_track.
    destruct track as [td|]; [|discriminate].
    destruct (paths td); [discriminate|].
    destruct (anchor h td sf_lat sf_lon) as [[sf|]|]; try discriminate.
    destruct (stitch h td sf) as [[segs|]|] eqn:Es; try discriminate.
    intros Hrun. split; [|exact (finish_arc _ _ _ _ _ _ _ _ _ _ Hrun)].
    revert Hrun. unfold finish.
    destruct (resample h segs ([], 0)); [|discriminate].
    destruct (resample _ segs ([], 0)) as [[sp total]|]; [|discriminate].
    destruct (normalize_elevation _ _ _) as [h3 sp3].
    destruct (scale_and_rotate _ _ _ _) as [pl|]; [|discriminate].
    destruct (sector_indices _ _ _). by intros [= _ <-]. }
  destruct Hmark as [Hmark [Hhead Harc]]. split.
  - rewrite Hmark. destruct (splinePoints out) as [|p0 pts]; [done|].
    exists p0. split; [reflexivity | by apply Hhead].
  - intros i p q Hp Hq. exact (chained_lookup arc_step _ i p q Harc Hp Hq).
Qed.

End FinalizedArc.

Lemma resampled_points_are_one_metre_apart_witness :
  exists pts total p q,
    resample Examples.track_heap [orient false Examples.track_segment] ([], 0)
    = Ok (pts, total)
    /\ pts !! 0%nat = Some p /\ pts !! 1%nat = Some q
    /\ get_distance_meters (sp_xy p) (sp_xy q) <= 1
    /\ dist q = dist p + get_distance_meters (sp_xy p) (sp_xy q).
Proof.
  destruct (FinalizeProps.small_track_resampled Examples.track_heap false)
    as (v0 & v1 & Hrun & _).
  exists [v0; v1], (0 + 1), v0, v1.
  split; [exact Hrun|]. split; [reflexivity|]. split; [reflexivity|].
  exact (resampled_points_are_one_metre_apart Examples.track_heap
           [orient false Examples.track_segment] [v0; v1] (0 + 1) 0 v0 v1
           Hrun eq_refl eq_refl).
Defined.

Lemma finalized_dist_is_path_length_witness :
  exists h' out,
    finalize_track Examples.exact_round Examples.no_smoothing Examples.track_heap
      (Some Examples.small_track) None None None None None None None
    = (h', Ok (Some out))
    /\ (exists p0, sfMarker out = Some p0 /\ dist p0 = 0)
    /\ forall i p q,
         splinePoints out !! i = Some p -> splinePoints out !! S i = Some q ->
         dist q = dist p + get_distance_meters (sp_xy p) (sp_xy q).
Proof.
  destruct (FinalizeProps.small_track_finalized None None) as (h' & out & Hrun).
  exists h', out. split; [exact Hrun|].
  exact (finalized_dist_is_path_length Examples.exact_round Examples.no_smoothing
           Examples.track_heap h' (Some Examples.small_track)
           None None None None None None None out Hrun).
Defined.

End SurveyChecks.

Module PlacementChecks.
Import Py TrackProcessor Spec Placement.
Local Open Scope R_scope.

Ltac lra := Lra.lra.
Ltac nra := Lra.nra.

Lemma sf_search_nearest (sf : xy) (pts seen : list spline_point)
    (st : option R * nat) :
  nearest_so_far sf seen st ->
  seen ++ pts <> [] ->
  exists m,
    nearest_so_far sf (seen ++ pts) (Some m, sf_search sf (length seen) pts st).
Proof.
  revert seen st. induction pts as [|p0 pts IH]; intros seen st Hinv Hne.
  - rewrite app_nil_r in *. cbn [sf_search]. unfold nearest_so_far in *.
    destruct st as [[m|] k]; cbn [fst snd] in *; [|done].
    exists m. exact Hinv.
  - cbn [sf_search].
    set (d0 := get_distance_meters (sp_xy p0) sf).
    replace (seen ++ p0 :: pts) with ((seen ++ [p0]) ++ pts)
      by (by rewrite <- app_assoc).
    replace (S (length seen)) with (length (seen ++ [p0]))
      by (rewrite length_app; cbn; lia).
    apply IH; [|intros E; by apply app_nil in E as [[? ?]%app_nil _]].
    unfold nearest_so_far in *. destruct st as [[m|] k]; cbn [fst snd lt_running] in *.
    + destruct Hinv as (p & Hp & Hm & Hall & Hstrict).
      pose proof (lookup_lt_Some _ _ _ Hp) as Hk.
      destruct (bool_decide (d0 < m)) eqn:E; cbn [fst snd].
      * apply bool_decide_eq_true_1 in E. exists p0.
        split; [by rewrite lookup_app_r, Nat.sub_diag by lia|].
        split; [reflexivity|]. split.
        -- intros j q Hq. destruct (decide (j < length seen)%nat) as [Hj | Hj].
           ++ rewrite lookup_app_l in Hq by exact Hj.
              specialize (Hall j q Hq). lra.
           ++ rewrite lookup_app_r in Hq by lia.
              destruct (j - length seen)%nat; [|cbn in Hq; discriminate].
              injection Hq as <-. fold d0. lra.
        -- intros j q Hj Hq. rewrite lookup_app_l in Hq by exact Hj.
           specialize (Hall j q Hq). lra.
      * apply bool_decide_eq_false_1 in E. exists p.
        split; [by rewrite lookup_app_l by exact Hk|].
        split; [exact Hm|]. split.
        -- intros j q Hq. destruct (decide (j < length seen)%nat) as [Hj | Hj].
           ++ rewrite lookup_app_l in Hq by exact Hj. exact (Hall j q Hq).
           ++ rewrite lookup_app_r in Hq by lia.
              destruct (j - length seen)%nat; [|cbn in Hq; discriminate].
              injection Hq as <-. fold d0. lra.
        -- intros j q Hj Hq. rewrite lookup_app_l in Hq by lia.
           exact (Hstrict j q Hj Hq).
    + subst seen. cbn [app length fst snd]. exists p0.
      split; [reflexivity|]. split; [reflexivity|]. split.
      * intros j q Hq. destruct j; [|cbn in Hq; discriminate].
        injection Hq as <-. fold d0. lra.
      * intros j q Hj. lia.
Qed.

(** X23.  The start/finish search returns the index of the first spline
    point, among the first 2000, that is nearest the start/finish
    position: no point among them is nearer, and every earlier one is
    strictly farther away. *)
Theorem start_finish_index_is_nearest (pts : list spline_point) (sf : xy) :
  pts <> [] ->
  exists p,
    pts !! find_sf_index pts sf = Some p
    /\ (find_sf_index pts sf < 2000)%nat
    /\ (forall j q, (j < 2000)%nat -> pts !! j = Some q ->
          get_distance_meters (sp_xy p) sf <= get_distance_meters (sp_xy q) sf)
    /\ (forall j q, (j < find_sf_index pts sf)%nat -> pts !! j = Some q ->
          get_distance_meters (sp_xy p) sf < get_distance_meters (sp_xy q) sf).
Proof.
  intros Hne. unfold find_sf_index.
  assert (Hne' : [] ++ take 2000 pts <> []).
  { destruct pts; [done | discriminate]. }
  destruct (sf_search_nearest sf (take 2000 pts) [] (None, 0%nat) eq_refl Hne')
    as [m Hn].
  cbn [app length] in Hn. unfold nearest_so_far in Hn. cbn [fst snd] in Hn.
  destruct Hn as (p & Hp & <- & Hall & Hstrict).
  apply lookup_take_Some in Hp as [Hp Hk].
  exists p. split; [exact Hp|]. split; [exact Hk|]. split.
  - intros j q Hj Hq. apply (Hall j q). by apply lookup_take_Some.
  - intros j q Hj Hq. apply (Hstrict j q Hj). apply lookup_take_Some. split; [exact Hq | lia].
Qed.

Lemma start_finish_index_is_nearest_witness :
  exists p,
    Examples.straight !! find_sf_index Examples.straight {| px := 1; py := 0 |}
    = Some p
    /\ (find_sf_index Examples.straight {| px := 1; py := 0 |} < 2000)%nat
    /\ (forall j q, (j < 2000)%nat -> Examples.straight !! j = Some q ->
          get_distance_meters (sp_xy p) {| px := 1; py := 0 |}
          <= get_distance_meters (sp_xy q) {| px := 1; py := 0 |})
    /\ (forall j q,
          (j < find_sf_index Examples.straight {| px := 1; py := 0 |})%nat ->
          Examples.straight !! j = Some q ->
          get_distance_meters (sp_xy p) {| px := 1; py := 0 |}
          < get_distance_meters (sp_xy q) {| px := 1; py := 0 |}).
Proof.
  apply (start_finish_index_is_nearest Examples.straight {| px := 1; py := 0 |}).
  discriminate.
Defined.

(** *** Rotation *)

Lemma recompute_from_same {B} (g : spline_point -> B) (pts : list spline_point)
    (prev : spline_point) (total : R) :
  (forall p v, g (set_dist p v) = g p) ->
  map g (recompute_from prev total pts).1 = map g pts.
Proof.
  intros Hg. revert prev total. induction pts as [|p pts IH]; intros prev total.
  - reflexivity.
  - cbn [recompute_from]. specialize (IH p (total + get_distance_meters (sp_xy prev) (sp_xy p))).
    destruct (recompute_from p _ pts) as [rest final]. cbn [fst map] in *.
    by rewrite Hg, IH.
Qed.

Lemma recompute_dist_same {B} (g : spline_point -> B) (pts : list spline_point) :
  (forall p v, g (set_dist p v) = g p) ->
  map g (recompute_dist pts).1 = map g pts.
Proof.
  intros Hg. destruct pts as [|p0 pts]; [reflexivity|].
  cbn [recompute_dist]. pose proof (recompute_from_same g pts p0 0 Hg) as H.
  destruct (recompute_from p0 0 pts) as [rest final]. cbn [fst map] in *.
  by rewrite Hg, H.
Qed.

Lemma rotate_same {B} (g : spline_point -> B) (pts : list spline_point)
    (total : R) (i : nat) :
  (forall p v, g (set_dist p v) = g p) ->
  map g (rotate_to_sf pts total i).1 = drop i (map g pts) ++ take i (map g pts).
Proof.
  intros Hg. unfold rotate_to_sf. destruct i as [|i].
  - cbn [fst drop take]. by rewrite app_nil_r.
  - rewrite (recompute_dist_same g _ Hg), map_app.
    change (map g) with (fmap (M := list) g). by rewrite fmap_drop, fmap_take.
Qed.

(** X24.  Scaling and the rotation to the start/finish point never
    change an elevation: the placed points carry the elevations of the
    given points, in the rotated order, whereas [x] and [y] are
    multiplied by the scaling factor. *)
Theorem placement_keeps_elevation (pts : list spline_point) (total : R)
    (miles : option R) (unscaled_sf : xy) (pl : placed) :
  scale_and_rotate pts total miles unscaled_sf = Ok pl ->
  map z (pl_points pl)
  = drop (pl_sf_index pl) (map z pts) ++ take (pl_sf_index pl) (map z pts)
  /\ map (fun p => (x p, y p)) (pl_points pl)
     = drop (pl_sf_index pl)
         (map (fun p => (x p * pl_scaling_factor pl, y p * pl_scaling_factor pl)) pts)
       ++ take (pl_sf_index pl)
            (map (fun p => (x p * pl_scaling_factor pl, y p * pl_scaling_factor pl)) pts)
  /\ length (pl_points pl) = length pts.
Proof.
  unfold scale_and_rotate. intros Hrun.
  assert (Hscaled : exists pts1 total1 k,
            scale_track pts total miles = Ok (pts1, total1, k)
            /\ map z pts1 = map z pts
            /\ map (fun p => (x p, y p)) pts1
               = map (fun p => (x p * k, y p * k)) pts).
  { unfold scale_track in *.
    assert (Hone : map (fun p => (x p, y p)) pts
                   = map (fun p => (x p * 1, y p * 1)) pts).
    { apply map_ext. intros p. f_equal; ring. }
    destruct miles as [m|]; [|by eexists _, _, _].
    destruct (bool_decide (m > 0)) eqn:Em; [|by eexists _, _, _].
    destruct (bool_decide (total = 0)) eqn:Et; [discriminate|].
    eexists _, _, _. split; [reflexivity|].
    rewrite !List.map_map. split; reflexivity. }
  destruct Hscaled as (pts1 & total1 & k & E & Hz & Hxy).
  rewrite E in Hrun. cbn [mbind result_bind bind] in Hrun.
  set (i := find_sf_index _ _) in Hrun.
  pose proof (rotate_same z pts1 total1 i ltac:(reflexivity)) as Rz.
  pose proof (rotate_same (fun p => (x p, y p)) pts1 total1 i ltac:(reflexivity))
    as Rxy.
  destruct (rotate_to_sf pts1 total1 i) as [pts2 total2].
  injection Hrun as <-. cbn [pl_points pl_sf_index pl_scaling_factor fst] in *.
  rewrite Rz, Rxy, Hz, Hxy. split; [reflexivity|]. split; [reflexivity|].
  apply (f_equal length) in Rz.
  rewrite length_map, length_app, length_drop, length_take, Hz, length_map in Rz.
  lia.
Qed.

Lemma placement_keeps_elevation_witness :
  exists pl,
    scale_and_rotate Examples.straight 2 (Some 1) {| px := 1; py := 0 |} = Ok pl
    /\ map z (pl_points pl)
       = drop (pl_sf_index pl) (map z Examples.straight)
         ++ take (pl_sf_index pl) (map z Examples.straight)
    /\ map (fun p => (x p, y p)) (pl_points pl)
       = drop (pl_sf_index pl)
           (map (fun p => (x p * pl_scaling_factor pl, y p * pl_scaling_factor pl))
                Examples.straight)
         ++ take (pl_sf_index pl)
              (map (fun p => (x p * pl_scaling_factor pl, y p * pl_scaling_factor pl))
                   Examples.straight)
    /\ length (pl_points pl) = length Examples.straight.
Proof.
  assert (Hrun : exists pl,
            scale_and_rotate Examples.straight 2 (Some 1) {| px := 1; py := 0 |}
            = Ok pl).
  { unfold scale_and_rotate.
    rewrite FinalizeProps.scale_track_miles by lra.
    cbn [mbind result_bind bind]. destruct (rotate_to_sf _ _ _). by eexists. }
  destruct Hrun as [pl Hrun]. exists pl. split; [exact Hrun|].
  exact (placement_keeps_elevation Examples.straight 2 (Some 1)
           {| px := 1; py := 0 |} pl Hrun).
Defined.

(** *** Early returns *)

Section EarlyReturn.

Variable round6 : R -> R.
Variable gaussian_filter1d : list R -> list R.

Lemma finish_returns_a_track (h h' : heap) (td : track_data) (sf : geo)
    (ordered_segments : list segment) (s1 s2 miles : option R)
    (fetch : option fetcher) :
  finish round6 gaussian_filter1d h td sf ordered_segments s1 s2 miles fetch
  <> (h', Ok None).
Proof.
  unfold finish.
  destruct (resample h ordered_segments ([], 0)); [|discriminate].
  destruct (resample _ ordered_segments ([], 0)) as [[sp total]|]; [|discriminate].
  destruct (normalize_elevation _ _ _) as [h3 sp3].
  destruct (scale_and_rotate _ _ _ _) as [pl|]; [|discriminate].
  destruct (sector_indices _ _ _). discriminate.
Qed.

(** X25.  A call that returns [None] has written nothing: the point
    dictionaries of the track data are as they were, also when an
    elevation provider was passed. *)
Theorem none_result_leaves_track_data_unchanged (h h' : heap)
    (track : option track_data)
    (sf_lat sf_lon s1 s2 s3 miles : option R) (fetch : option fetcher) :
  finalize_track round6 gaussian_filter1d h track sf_lat sf_lon s1 s2 s3 miles fetch
  = (h', Ok None) ->
  h' = h.
Proof.
  unfold finalize_track.
  destruct track as [td|]; [|by intros [= <-]].
  destruct (paths td); [by intros [= <-]|].
  destruct (anchor h td sf_lat sf_lon) as [[sf|]|]; try by intros [= <-].
  destruct (stitch h td sf) as [[segs|]|]; try by intros [= <-].
  intros Hrun. by apply finish_returns_a_track in Hrun.
Qed.

End EarlyReturn.

Lemma none_result_leaves_track_data_unchanged_witness :
  exists h',
    finalize_track Examples.exact_round Examples.no_smoothing Examples.track_heap
      (Some MoreExamples.pit_only) None None None None None None
      (Some Examples.seven_metres)
    = (h', Ok None)
    /\ h' = Examples.track_heap.
Proof.
  assert (Hrun : exists h',
            finalize_track Examples.exact_round Examples.no_smoothing
              Examples.track_heap (Some MoreExamples.pit_only)
              None None None None None None (Some Examples.seven_metres)
            = (h', Ok None)).
  { unfold finalize_track. cbn [paths MoreExamples.pit_only].
    unfold anchor. cbn [paths MoreExamples.pit_only rawPoints Examples.pit_path].
    assert (Hraw : deref_raw Examples.track_heap 3%positive
                   = Ok (Examples.raw_of Examples.node1)) by reflexivity.
    rewrite Hraw. cbn [mbind result_bind bind].
    unfold stitch. cbn [paths MoreExamples.pit_only].
    assert (Hf : filter (fun p => is_track p = true) [Examples.pit_path] = [])
      by reflexivity.
    rewrite Hf. cbn. by eexists. }
  destruct Hrun as [h' Hrun]. exists h'. split; [exact Hrun|].
  exact (none_result_leaves_track_data_unchanged
           Examples.exact_round Examples.no_smoothing Examples.track_heap h'
           (Some MoreExamples.pit_only) None None None None None None
           (Some Examples.seven_metres) Hrun).
Defined.

End PlacementChecks.

(** ** Target length: the scaling and rotation blocks of [finalize_track] *)

Module TargetLengthProps.
Import Py TrackProcessor Spec Survey.
Local Open Scope R_scope.

Ltac lra := Lra.lra.
Ltac nra := Lra.nra.

Lemma sf_index_in_range (pts : list spline_point) (sf : xy) :
  pts <> [] -> (find_sf_index pts sf < length pts)%nat.
Proof.
  intros Hne. unfold find_sf_index.
  assert (Hne' : [] ++ take 2000 pts <> []).
  { destruct pts; [done | discriminate]. }
  destruct (PlacementChecks.sf_search_nearest sf (take 2000 pts) [] (None, 0%nat)
              eq_refl Hne') as [m Hn].
  cbn [app length] in Hn. unfold Placement.nearest_so_far in Hn. cbn [fst snd] in Hn.
  destruct Hn as (p & Hp & _).
  apply lookup_take_Some in Hp as [Hp _]. by apply lookup_lt_Some in Hp.
Qed.

Lemma last_or_cons (p prev : spline_point) (pts : list spline_point) :
  default prev (last (p :: pts)) = default p (last pts).
Proof.
  destruct pts as [|q pts]; [reflexivity|]. rewrite last_cons_cons.
  destruct (last (q :: pts)) eqn:E; [reflexivity|]. by apply last_None in E.
Qed.

(** Along a chain whose ['dist'] entries are cumulative, the recomputed
    total grows by the difference of the old entries. *)
Lemma recompute_from_total (pts : list spline_point) (prev : spline_point) (t : R) :
  chained arc_step (prev :: pts) ->
  (recompute_from prev t pts).2 = t + (dist (default prev (last pts)) - dist prev).
Proof.
  revert prev t. induction pts as [|p pts IH]; intros prev t Hc.
  - cbn. lra.
  - apply SurveyChecks.chained_tail in Hc as [Hc Hstep].
    specialize (Hstep p eq_refl). unfold arc_step in Hstep.
    cbn [recompute_from].
    specialize (IH p (t + get_distance_meters (sp_xy prev) (sp_xy p)) Hc).
    destruct (recompute_from p _ pts) as [rest final]. cbn [snd] in *.
    rewrite IH, last_or_cons. lra.
Qed.

Lemma recompute_from_app (l1 l2 : list spline_point) (prev : spline_point) (t : R) :
  (recompute_from prev t (l1 ++ l2)).2
  = (recompute_from (default prev (last l1)) (recompute_from prev t l1).2 l2).2.
Proof.
  revert prev t. induction l1 as [|p l1 IH]; intros prev t.
  - reflexivity.
  - cbn [app recompute_from].
    specialize (IH p (t + get_distance_meters (sp_xy prev) (sp_xy p))).
    destruct (recompute_from p _ (l1 ++ l2)) as [rest final].
    destruct (recompute_from p _ l1) as [rest1 final1]. cbn [snd] in *.
    by rewrite IH, last_or_cons.
Qed.

Lemma chained_split (P : spline_point -> spline_point -> Prop)
    (l l' : list spline_point) :
  chained P (l ++ l') ->
  chained P l /\ chained P l'
  /\ forall a b, last l = Some a -> head l' = Some b -> P a b.
Proof.
  induction l as [|u [|v l] IH]; intros Hc.
  - split; [exact I|]. split; [exact Hc|]. discriminate.
  - cbn [app] in Hc. apply SurveyChecks.chained_tail in Hc as [Hc Hstep].
    split; [exact I|]. split; [exact Hc|].
    intros a b [= <-] Hb. by apply Hstep.
  - cbn [app] in Hc. destruct Hc as [Huv Hc].
    destruct (IH Hc) as (Hl & Hl' & Hj).
    split; [split; assumption|]. split; [exact Hl'|].
    intros a b Ha Hb. apply Hj; [|exact Hb]. by rewrite last_cons_cons in Ha.
Qed.

(** The length recomputed along the rotated sequence [after ++ before]:
    the old length, without the step from [before] into [after], plus the
    jump from the old last point back to the old first point. *)
Lemma rotated_total (pts : list spline_point) (i : nat) :
  arc_measured pts -> (0 < i < length pts)%nat ->
  exists a b first lst,
    pts !! (i - 1)%nat = Some a /\ pts !! i = Some b
    /\ head pts = Some first /\ last pts = Some lst
    /\ (recompute_dist (drop i pts ++ take i pts)).2
       = dist lst - get_distance_meters (sp_xy a) (sp_xy b)
         + get_distance_meters (sp_xy lst) (sp_xy first).
Proof.
  intros [Hhead Hc] [Hi Hlen].
  rewrite <- (take_drop i pts) in Hc.
  apply chained_split in Hc as (Hbefore & Hafter & Hjoin).
  destruct (lookup_lt_is_Some_2 pts i Hlen) as [b Hb].
  destruct (lookup_lt_is_Some_2 pts (i - 1) ltac:(lia)) as [a Ha].
  destruct pts as [|first pts]; [cbn in Hlen; lia|].
  pose proof (Hhead first eq_refl) as Hfirst.
  assert (Hdrop : exists after, drop i (first :: pts) = b :: after).
  { exists (drop (S i) (first :: pts)). by apply drop_S. }
  destruct Hdrop as [after Hdrop].
  assert (Htake : exists before, take i (first :: pts) = first :: before
                                 /\ default first (last before) = a).
  { destruct i as [|i]; [lia|]. cbn [take]. exists (take i pts). split; [reflexivity|].
    replace (S i - 1)%nat with i in Ha by lia.
    destruct i as [|i].
    - cbn in *. by injection Ha as <-.
    - cbn [lookup list_lookup] in Ha.
      assert (E : last (take (S i) pts) = Some a).
      { rewrite last_lookup, length_take. cbn in Hlen.
        replace (Init.Nat.pred (S i `min` length pts)) with i by lia.
        rewrite lookup_take_lt by lia. exact Ha. }
      by rewrite E. }
  destruct Htake as (before & Htake & Hlast_before).
  assert (Hlst : last (first :: pts) = Some (default b (last after))).
  { rewrite <- (take_drop i (first :: pts)), Hdrop, last_app, last_cons.
    by destruct (last after). }
  exists a, b, first, (default b (last after)).
  split; [exact Ha|]. split; [exact Hb|]. split; [reflexivity|].
  split; [exact Hlst|].
  rewrite Hdrop, Htake in *. cbn [app recompute_dist].
  pose proof (recompute_from_app after (first :: before) b 0) as Happ.
  destruct (recompute_from b 0 (after ++ first :: before)) as [rest final].
  cbn [snd] in *. rewrite Happ. clear Happ.
  rewrite (recompute_from_total after b 0 Hafter).
  cbn [recompute_from].
  pose proof (recompute_from_total before first
                (0 + (dist (default b (last after)) - dist b)
                 + get_distance_meters (sp_xy (default b (last after))) (sp_xy first))
                Hbefore) as Hb2.
  destruct (recompute_from first _ before) as [rest2 final2]. cbn [snd] in *.
  rewrite Hb2, Hlast_before, Hfirst.
  assert (Hstep : arc_step a b).
  { apply Hjoin; [|reflexivity]. rewrite last_cons, <- Hlast_before.
    by destruct (last before). }
  unfold arc_step in Hstep. lra.
Qed.

Lemma arc_length_nonneg (pts : list spline_point) :
  arc_measured pts -> 0 <= length_of pts.
Proof.
  intros [Hhead Hc]. unfold length_of.
  destruct pts as [|p pts]; [cbn; lra|].
  pose proof (recompute_from_total pts p 0 Hc) as Ht.
  destruct (FinalizeProps.recompute_from_measured p 0 pts) as [Hasc Hl].
  rewrite Ht in Hl.
  assert (Hin : 0 <= 0 + (dist (default p (last pts)) - dist p)).
  { apply (FinalizeProps.ascending_below_last
             (0 :: map dist (recompute_from p 0 pts).1)); [exact Hasc | | exact Hl].
    apply list_elem_of_here. }
  rewrite (Hhead p eq_refl) in Hin. rewrite last_cons.
  destruct (last pts); cbn in *; [lra | rewrite (Hhead p eq_refl); lra].
Qed.

(** Scaling and rotation of resampled points (whose ['dist'] is the
    length of the polyline up to them, the total being that of the last
    point) to a target of [miles > 0]. *)
Lemma scale_and_rotate_target
    (pts : list spline_point) (total miles : R) (unscaled_sf : xy) :
  miles > 0 -> total <> 0 ->
  arc_measured pts -> length_of pts = total ->
  exists pl,
    scale_and_rotate pts total (Some miles) unscaled_sf = Ok pl
    /\ pl_scaling_factor pl = miles * METERS_PER_MILE / total
    /\ pl_sf_index pl
       = find_sf_index (map (scale_point (pl_scaling_factor pl)) pts)
           {| px := px unscaled_sf * pl_scaling_factor pl;
              py := py unscaled_sf * pl_scaling_factor pl |}
    /\ (pl_sf_index pl < length pts)%nat
    /\ map (fun p => (x p, y p)) (pl_points pl)
       = drop (pl_sf_index pl)
           (map (fun p => (x p * pl_scaling_factor pl,
                           y p * pl_scaling_factor pl)) pts)
         ++ take (pl_sf_index pl)
              (map (fun p => (x p * pl_scaling_factor pl,
                              y p * pl_scaling_factor pl)) pts)
    /\ arc_measured (pl_points pl)
    /\ length_of (pl_points pl) = pl_total_distance pl
    /\ (pl_sf_index pl = 0%nat ->
        pl_total_distance pl = miles * METERS_PER_MILE
        /\ map dist (pl_points pl)
           = map (fun p => dist p * pl_scaling_factor pl) pts)
    /\ (pl_sf_index pl <> 0%nat ->
        exists a b first lst,
          pts !! (pl_sf_index pl - 1)%nat = Some a
          /\ pts !! pl_sf_index pl = Some b
          /\ head pts = Some first /\ last pts = Some lst
          /\ pl_total_distance pl
             = miles * METERS_PER_MILE
               - pl_scaling_factor pl * get_distance_meters (sp_xy a) (sp_xy b)
               + pl_scaling_factor pl * get_distance_meters (sp_xy lst) (sp_xy first)).
Proof.
  intros Hm Ht Harc Hlen.
  assert (Hne : pts <> []).
  { intros ->. apply Ht. rewrite <- Hlen. reflexivity. }
  assert (Hpos : 0 < total).
  { pose proof (arc_length_nonneg pts Harc). lra. }
  set (k := miles * METERS_PER_MILE / total).
  assert (Hk : 0 < k).
  { apply Rdiv_lt_0_compat; [|exact Hpos]. unfold METERS_PER_MILE. lra. }
  assert (Hmeasured : exists pl,
            scale_and_rotate pts total (Some miles) unscaled_sf = Ok pl
            /\ pl_scaling_factor pl = k
            /\ pl_sf_index pl
               = find_sf_index (map (scale_point k) pts)
                   {| px := px unscaled_sf * k; py := py unscaled_sf * k |}
            /\ (pl_points pl, pl_total_distance pl)
               = rotate_to_sf (map (scale_point k) pts) (miles * METERS_PER_MILE)
                   (pl_sf_index pl)).
  { unfold scale_and_rotate.
    rewrite (FinalizeProps.scale_track_miles _ _ _ Hm Ht).
    cbn [mbind result_bind bind]. fold k.
    destruct (rotate_to_sf _ _ _) as [pts' total'] eqn:E.
    eexists. split; [reflexivity|].
    cbn [pl_scaling_factor pl_sf_index pl_points pl_total_distance].
    split; [reflexivity|]. split; [reflexivity|]. by rewrite E. }
  destruct Hmeasured as (pl & Hrun & Hfactor & Hidx & Hrot).
  exists pl. split; [exact Hrun|]. split; [exact Hfactor|].
  split; [by rewrite Hfactor|].
  assert (Hrange : (pl_sf_index pl < length pts)%nat).
  { rewrite Hidx. rewrite <- (length_map (scale_point k) pts).
    apply sf_index_in_range. intros E. by apply fmap_nil_inv in E. }
  split; [exact Hrange|].
  assert (Hsarc : arc_measured (map (scale_point k) pts)).
  { apply SurveyChecks.arc_scaled; [lra | exact Harc]. }
  assert (Hslen : length_of (map (scale_point k) pts) = miles * METERS_PER_MILE).
  { unfold length_of in *. change (map (scale_point k) pts) with (scale_point k <$> pts).
    rewrite fmap_last. destruct (last pts) as [p|] eqn:El.
    - cbn in *. rewrite Hlen. unfold k. field. exact Ht.
    - by apply last_None in El. }
  split.
  { pose proof (PlacementChecks.rotate_same (fun p => (x p, y p))
                  (map (scale_point k) pts) (miles * METERS_PER_MILE)
                  (pl_sf_index pl) ltac:(reflexivity)) as Hsame.
    rewrite <- Hrot in Hsame. cbn [fst] in Hsame.
    rewrite Hsame, Hfactor, List.map_map. reflexivity. }
  clear Hidx.
  destruct (pl_sf_index pl) as [|i] eqn:Ei.
  - cbn [rotate_to_sf] in Hrot. injection Hrot as Hp Htot.
    rewrite Hp, Htot. split; [exact Hsarc|]. split; [exact Hslen|]. split.
    + intros _. split; [reflexivity|]. rewrite Hfactor, List.map_map. reflexivity.
    + intros Hcontra. done.
  - cbn [rotate_to_sf] in Hrot.
    pose proof (SurveyChecks.recompute_dist_arc
                  (drop (S i) (map (scale_point k) pts)
                   ++ take (S i) (map (scale_point k) pts))) as Harc'.
    destruct (FinalizeProps.recompute_dist_measured
                (drop (S i) (map (scale_point k) pts)
                 ++ take (S i) (map (scale_point k) pts))) as [Hmeas Hnonempty].
    destruct (rotated_total (map (scale_point k) pts) (S i) Hsarc)
      as (a' & b' & first' & lst' & Ha' & Hb' & Hfirst' & Hlst' & Htotal').
    { rewrite length_map. lia. }
    rewrite <- Hrot in Harc', Hmeas, Hnonempty, Htotal'. cbn [fst snd] in *.
    split; [exact Harc'|]. split.
    { destruct Hmeas as (_ & _ & _ & [Hnil | Hl]); [|exact Hl].
      exfalso. apply Hnonempty; [|exact Hnil].
      apply FinalizeProps.rotation_nonempty. intros E. by apply fmap_nil_inv in E. }
    split; [intros Hcontra; discriminate|]. intros _.
    rewrite list_lookup_fmap in Ha', Hb'.
    change (map (scale_point k) pts) with (scale_point k <$> pts) in Hfirst', Hlst'.
    rewrite fmap_last in Hlst'.
    destruct (pts !! (S i - 1)%nat) as [a|] eqn:Ea; [|discriminate].
    destruct (pts !! S i) as [b|] eqn:Eb; [|discriminate].
    destruct (last pts) as [lst|] eqn:El; [|discriminate].
    destruct pts as [|first pts']; [done|].
    cbn in Ha', Hb', Hfirst', Hlst'.
    injection Ha' as <-. injection Hb' as <-. injection Hfirst' as <-.
    injection Hlst' as <-.
    exists a, b, first, lst.
    split; [reflexivity|]. split; [reflexivity|]. split; [reflexivity|].
    split; [reflexivity|].
    rewrite Htotal', !SurveyChecks.scaled_distance by lra.
    rewrite Hfactor.
    assert (Hd : dist (scale_point k lst) = miles * METERS_PER_MILE).
    { unfold length_of in Hslen.
      change (map (scale_point k) (first :: pts'))
        with (scale_point k <$> first :: pts') in Hslen.
      rewrite fmap_last, El in Hslen. exact Hslen. }
    rewrite Hd. reflexivity.
Qed.

(** Stages that leave [x], [y] and ['dist'] alone. *)
Lemma same_xy_lookup (l l' : list spline_point) (j : nat) (a' : spline_point) :
  map sp_xy l' = map sp_xy l -> l' !! j = Some a' ->
  exists a, l !! j = Some a /\ sp_xy a = sp_xy a'.
Proof.
  intros Hxy Ha'.
  assert (E : map sp_xy l !! j = Some (sp_xy a')).
  { rewrite <- Hxy. change (map sp_xy l') with (sp_xy <$> l').
    by rewrite list_lookup_fmap, Ha'. }
  change (map sp_xy l) with (sp_xy <$> l) in E. rewrite list_lookup_fmap in E.
  destruct (l !! j) as [a|]; [|discriminate]. cbn in E.
  exists a. split; [reflexivity|]. congruence.
Qed.

Lemma same_xy_map {B} (g : xy -> B) (l l' : list spline_point) :
  map sp_xy l' = map sp_xy l ->
  map (fun p => g (sp_xy p)) l' = map (fun p => g (sp_xy p)) l.
Proof.
  intros Hxy. rewrite <- !(List.map_map sp_xy g). by rewrite Hxy.
Qed.

Lemma sf_search_same_xy (sf : xy) (l l' : list spline_point) (i : nat)
    (st : option R * nat) :
  map sp_xy l' = map sp_xy l -> sf_search sf i l' st = sf_search sf i l st.
Proof.
  revert l' i st. induction l as [|p l IH]; intros l' i st Hxy.
  - by apply fmap_nil_inv in Hxy as ->.
  - destruct l' as [|p' l']; [discriminate|].
    cbn [map] in Hxy. apply SurveyChecks.cons_eq in Hxy as [Hp Hxy].
    cbn [sf_search]. rewrite Hp. by apply IH.
Qed.

Lemma find_sf_index_same_xy (sf : xy) (l l' : list spline_point) :
  map sp_xy l' = map sp_xy l -> find_sf_index l' sf = find_sf_index l sf.
Proof.
  intros Hxy. unfold find_sf_index. apply sf_search_same_xy.
  change (map sp_xy) with (fmap (M := list) sp_xy) in *. by rewrite !fmap_take, Hxy.
Qed.

Lemma scaled_same_xy (k : R) (l l' : list spline_point) :
  map sp_xy l' = map sp_xy l ->
  map sp_xy (map (scale_point k) l') = map sp_xy (map (scale_point k) l).
Proof.
  intros Hxy. rewrite !List.map_map.
  exact (same_xy_map (fun m => {| px := px m * k; py := py m * k |}) l l' Hxy).
Qed.

Lemma same_dist_length (l l' : list spline_point) :
  map dist l' = map dist l -> length_of l' = length_of l.
Proof.
  intros Hd. unfold length_of. rewrite <- !fmap_last.
  change (dist <$> l') with (map dist l'). by rewrite Hd.
Qed.

Section TargetLength.

Variable round6 : R -> R.
Variable gaussian_filter1d : list R -> list R.

Lemma finish_target (h h' : heap) (td : track_data) (sf : geo)
    (segs : list segment) (s1 s2 : option R) (miles : R)
    (fetch : option fetcher) (out : finalized) :
  finish round6 gaussian_filter1d h td sf segs s1 s2 (Some miles) fetch
  = (h', Ok (Some out)) ->
  miles > 0 ->
  exists raw raw_total i,
    resample (elevate_track round6 fetch h segs) segs ([], 0) = Ok (raw, raw_total)
    /\ raw_total <> 0
    /\ scalingFactorApplied out = miles * METERS_PER_MILE / raw_total
    /\ i = find_sf_index (map (scale_point (scalingFactorApplied out)) raw)
             {| px := px (project_to_local_meters (lat sf) (lon sf)
                            (lat (center td)) (lon (center td)))
                      * scalingFactorApplied out;
                py := py (project_to_local_meters (lat sf) (lon sf)
                            (lat (center td)) (lon (center td)))
                      * scalingFactorApplied out |}
    /\ (i < length raw)%nat
    /\ map (fun p => (x p, y p)) (splinePoints out)
       = drop i (map (fun p => (x p * scalingFactorApplied out,
                                y p * scalingFactorApplied out)) raw)
         ++ take i (map (fun p => (x p * scalingFactorApplied out,
                                   y p * scalingFactorApplied out)) raw)
    /\ arc_measured (splinePoints out)
    /\ length_of (splinePoints out) = totalLen out
    /\ (i = 0%nat ->
        totalLen out = miles * METERS_PER_MILE
        /\ map dist (splinePoints out)
           = map (fun p => dist p * scalingFactorApplied out) raw)
    /\ (i <> 0%nat ->
        exists a b first lst,
          raw !! (i - 1)%nat = Some a /\ raw !! i = Some b
          /\ head raw = Some first /\ last raw = Some lst
          /\ totalLen out
             = miles * METERS_PER_MILE
               - scalingFactorApplied out * get_distance_meters (sp_xy a) (sp_xy b)
               + scalingFactorApplied out
                 * get_distance_meters (sp_xy lst) (sp_xy first)).
Proof.
  unfold finish. intros Hrun Hm. revert Hrun.
  destruct (resample h segs ([], 0)) as [st0|]; [|discriminate].
  destruct (resample (elevate_track round6 fetch h segs) _ _)
    as [[raw raw_total]|] eqn:Eres; [|discriminate].
  destruct (SurveyChecks.resample_plotted _ _ _ _ SurveyChecks.plotted_start Eres)
    as (Hnil & Hlast & Hhead & Harc & _). cbn [fst snd] in *.
  pose proof (FinalizeProps.normalize_same_dist
                (elevate_pits round6 fetch (elevate_track round6 fetch h segs)
                   (filter (fun p => is_pit p = true) (paths td)))
                (smooth_elevation gaussian_filter1d raw)
                (filter (fun p => is_pit p = true) (paths td))) as Hd.
  pose proof (FinalizeProps.normalize_same_xy
                (elevate_pits round6 fetch (elevate_track round6 fetch h segs)
                   (filter (fun p => is_pit p = true) (paths td)))
                (smooth_elevation gaussian_filter1d raw)
                (filter (fun p => is_pit p = true) (paths td))) as Hxy.
  destruct (normalize_elevation _ _ _) as [h3 sp3]. cbn [snd] in Hd, Hxy.
  rewrite (FinalizeProps.smooth_same_dist gaussian_filter1d) in Hd.
  rewrite (SurveyChecks.smooth_same_xy gaussian_filter1d) in Hxy.
  set (usf := project_to_local_meters (lat sf) (lon sf)
                (lat (center td)) (lon (center td))).
  destruct (scale_and_rotate sp3 raw_total (Some miles) usf) as [pl|] eqn:Epl;
    [|discriminate].
  destruct (sector_indices (pl_points pl) s1 s2) as [i1 i2].
  intros [= _ <-]. cbn [splinePoints totalLen scalingFactorApplied].
  assert (Ht : raw_total <> 0).
  { intros ->. unfold scale_and_rotate, scale_track in Epl.
    rewrite bool_decide_eq_true_2 in Epl by exact Hm.
    rewrite bool_decide_eq_true_2 in Epl by reflexivity. discriminate. }
  assert (Harc3 : arc_measured sp3).
  { exact (SurveyChecks.arc_same_shape raw sp3 Hxy Hd (conj Hhead Harc)). }
  assert (Hlen : length_of raw = raw_total).
  { unfold length_of. destruct (last raw) as [p|] eqn:El.
    - cbn. by apply Hlast.
    - apply last_None in El. cbn. symmetry. by apply Hnil. }
  assert (Hlen3 : length_of sp3 = raw_total).
  { by rewrite (same_dist_length raw sp3 Hd). }
  destruct (scale_and_rotate_target sp3 raw_total miles usf Hm Ht Harc3 Hlen3)
    as (pl' & Epl' & Hfactor & Hidx & Hrange & Hpts & Harc' & Hlen' & Hzero & Hrot).
  rewrite Epl in Epl'. injection Epl' as <-.
  exists raw, raw_total, (pl_sf_index pl).
  split; [reflexivity|]. split; [exact Ht|]. split; [exact Hfactor|].
  split.
  { rewrite Hidx. apply find_sf_index_same_xy. by apply scaled_same_xy. }
  assert (Hsame_len : length sp3 = length raw).
  { apply (f_equal length) in Hd. by rewrite !length_map in Hd. }
  split; [by rewrite <- Hsame_len|].
  split.
  { rewrite Hpts.
    pose proof (same_xy_map (fun m => (px m * pl_scaling_factor pl,
                                       py m * pl_scaling_factor pl)) raw sp3 Hxy)
      as E.
    cbn [sp_xy px py] in E. by rewrite E. }
  split; [exact Harc'|]. split; [exact Hlen'|]. split.
  - intros Hi. destruct (Hzero Hi) as [Htot Hdist]. split; [exact Htot|].
    rewrite Hdist.
    rewrite <- !(List.map_map dist (fun v => v * pl_scaling_factor pl)).
    by rewrite Hd.
  - intros Hi.
    destruct (Hrot Hi) as (a' & b' & first' & lst' & Ha' & Hb' & Hf' & Hl' & Htot).
    destruct (same_xy_lookup raw sp3 _ a' Hxy Ha') as (a & Ha & Ea).
    destruct (same_xy_lookup raw sp3 _ b' Hxy Hb') as (b & Hb & Eb).
    rewrite head_lookup in Hf'. rewrite last_lookup in Hl'.
    destruct (same_xy_lookup raw sp3 _ first' Hxy Hf') as (first & Hf & Ef).
    destruct (same_xy_lookup raw sp3 _ lst' Hxy Hl') as (lst & Hl & El).
    exists a, b, first, lst.
    split; [exact Ha|]. split; [exact Hb|].
    split; [by rewrite head_lookup|].
    split; [by rewrite last_lookup, <- Hsame_len|].
    rewrite Htot, Ea, Eb, Ef, El. reflexivity.
Qed.

(** C5, as the code has it.  When [finalize_track] returns a track for a
    target of [miles > 0], let [raw] and [raw_total] be the points and the
    length that its resampling loop yields.  Then [raw_total] is not 0,
    [scaling_factor = L / raw_total] with [L = miles * 1609.34], and the
    returned points are the resampled points with [x] and [y] multiplied
    by the factor, in the order rotated to the start/finish index [i]
    that the search finds; ['dist'] is the length of the returned
    polyline up to each point and the total that of the last point.
    When [i = 0] the total is exactly [L] and every ['dist'] is
    multiplied by the factor; when [i > 0] the total is [L] minus the
    scaled step from point [i - 1] to point [i] plus the scaled jump from
    the last point back to the first. *)
Theorem scaled_length_is_target_up_to_rotation
    (h h' : heap) (track : option track_data)
    (sf_lat sf_lon s1 s2 s3 : option R) (miles : R) (fetch : option fetcher)
    (out : finalized) :
  finalize_track round6 gaussian_filter1d h track sf_lat sf_lon s1 s2 s3
                 (Some miles) fetch
  = (h', Ok (Some out)) ->
  miles > 0 ->
  exists td sf segs raw raw_total i,
    track = Some td
    /\ anchor h td sf_lat sf_lon = Ok (Some sf)
    /\ stitch h td sf = Ok (Some segs)
    /\ resample (elevate_track round6 fetch h segs) segs ([], 0) = Ok (raw, raw_total)
    /\ raw_total <> 0
    /\ scalingFactorApplied out = miles * METERS_PER_MILE / raw_total
    /\ i = find_sf_index (map (scale_point (scalingFactorApplied out)) raw)
             {| px := px (project_to_local_meters (lat sf) (lon sf)
                            (lat (center td)) (lon (center td)))
                      * scalingFactorApplied out;
                py := py (project_to_local_meters (lat sf) (lon sf)
                            (lat (center td)) (lon (center td)))
                      * scalingFactorApplied out |}
    /\ (i < length raw)%nat
    /\ map (fun p => (x p, y p)) (splinePoints out)
       = drop i (map (fun p => (x p * scalingFactorApplied out,
                                y p * scalingFactorApplied out)) raw)
         ++ take i (map (fun p => (x p * scalingFactorApplied out,
                                   y p * scalingFactorApplied out)) raw)
    /\ arc_measured (splinePoints out)
    /\ length_of (splinePoints out) = totalLen out
    /\ (i = 0%nat ->
        totalLen out = miles * METERS_PER_MILE
        /\ map dist (splinePoints out)
           = map (fun p => dist p * scalingFactorApplied out) raw)
    /\ (i <> 0%nat ->
        exists a b first lst,
          raw !! (i - 1)%nat = Some a /\ raw !! i = Some b
          /\ head raw = Some first /\ last raw = Some lst
          /\ totalLen out
             = miles * METERS_PER_MILE
               - scalingFactorApplied out * get_distance_meters (sp_xy a) (sp_xy b)
               + scalingFactorApplied out
                 * get_distance_meters (sp_xy lst) (sp_xy first)).
Proof.
  unfold finalize_track. intros Hrun Hm. revert Hrun.
  destruct track as [td|]; [|discriminate].
  destruct (paths td) eqn:Ep; [discriminate|].
  destruct (anchor h td sf_lat sf_lon) as [[sf|]|] eqn:Ea; try discriminate.
  destruct (stitch h td sf) as [[segs|]|] eqn:Es; try discriminate.
  intros Hrun.
  destruct (finish_target h h' td sf segs s1 s2 miles fetch out Hrun Hm)
    as (raw & raw_total & i & Hres).
  exists td, sf, segs, raw, raw_total, i.
  split; [reflexivity|]. split; [exact Ea|]. split; [exact Es|]. exact Hres.
Qed.

End TargetLength.

(** The example track, scaled to one mile. *)
Lemma small_track_scaled :
  exists h' out,
    finalize_track Examples.exact_round Examples.no_smoothing Examples.track_heap
      (Some Examples.small_track) None None None None None (Some 1) None
    = (h', Ok (Some out)).
Proof.
  unfold finalize_track. cbn [paths Examples.small_track].
  rewrite FinalizeProps.small_track_anchor.
  destruct FinalizeProps.small_track_stitch as [reverse ->].
  unfold finish. cbn [elevate_track elevate_pits].
  destruct (FinalizeProps.small_track_resampled Examples.track_heap reverse)
    as (v0 & v1 & -> & _).
  destruct (normalize_elevation _ _ _) as [h3 sp3].
  unfold scale_and_rotate.
  rewrite (FinalizeProps.scale_track_miles _ (0 + 1) 1) by lra.
  cbn [mbind result_bind bind].
  destruct (rotate_to_sf _ _ _) as [pts' total'].
  destruct (sector_indices _ _ _) as [i1 i2].
  eexists _, _. reflexivity.
Qed.

Lemma scaled_length_is_target_up_to_rotation_witness :
  exists h' out,
    finalize_track Examples.exact_round Examples.no_smoothing Examples.track_heap
      (Some Examples.small_track) None None None None None (Some 1) None
    = (h', Ok (Some out))
    /\ exists td sf segs raw raw_total i,
         Some Examples.small_track = Some td
         /\ anchor Examples.track_heap td None None = Ok (Some sf)
         /\ stitch Examples.track_heap td sf = Ok (Some segs)
         /\ resample (elevate_track Examples.exact_round None Examples.track_heap segs)
                     segs ([], 0) = Ok (raw, raw_total)
         /\ raw_total <> 0
         /\ scalingFactorApplied out = 1 * METERS_PER_MILE / raw_total
         /\ i = find_sf_index (map (scale_point (scalingFactorApplied out)) raw)
                  {| px := px (project_to_local_meters (lat sf) (lon sf)
                                 (lat (center td)) (lon (center td)))
                           * scalingFactorApplied out;
                     py := py (project_to_local_meters (lat sf) (lon sf)
                                 (lat (center td)) (lon (center td)))
                           * scalingFactorApplied out |}
         /\ (i < length raw)%nat
         /\ map (fun p => (x p, y p)) (splinePoints out)
            = drop i (map (fun p => (x p * scalingFactorApplied out,
                                     y p * scalingFactorApplied out)) raw)
              ++ take i (map (fun p => (x p * scalingFactorApplied out,
                                        y p * scalingFactorApplied out)) raw)
         /\ arc_measured (splinePoints out)
         /\ length_of (splinePoints out) = totalLen out
         /\ (i = 0%nat ->
             totalLen out = 1 * METERS_PER_MILE
             /\ map dist (splinePoints out)
                = map (fun p => dist p * scalingFactorApplied out) raw)
         /\ (i <> 0%nat ->
             exists a b first lst,
               raw !! (i - 1)%nat = Some a /\ raw !! i = Some b
               /\ head raw = Some first /\ last raw = Some lst
               /\ totalLen out
                  = 1 * METERS_PER_MILE
                    - scalingFactorApplied out
                      * get_distance_meters (sp_xy a) (sp_xy b)
                    + scalingFactorApplied out
                      * get_distance_meters (sp_xy lst) (sp_xy first)).
Proof.
  destruct small_track_scaled as (h' & out & Hrun).
  exists h', out. split; [exact Hrun|].
  apply (scaled_length_is_target_up_to_rotation
           Examples.exact_round Examples.no_smoothing Examples.track_heap h'
           (Some Examples.small_track) None None None None None 1 None out Hrun).
  lra.
Defined.

End TargetLengthProps.

Module FetcherChecks.
Import Py TrackProcessor TrackFetcher.
Local Open Scope R_scope.

Ltac lra := Lra.lra.
Ltac nra := Lra.nra.

(** *** [fetch_elevation] *)

Section ElevationChecks.

Variable round6 : R -> R.

Lemma fallback_lookup (locations : list geo) (m : elevation_map) (key : R * R) :
  foldl (fun m loc => set_elevation m (node_key round6 loc) 0) m locations key
  = if decide (key ∈ map (node_key round6) locations) then Some 0 else m key.
Proof.
  revert m. induction locations as [|loc locations IH]; intros m; cbn [foldl map].
  - rewrite decide_False; [reflexivity|]. apply not_elem_of_nil.
  - rewrite IH. unfold set_elevation.
    destruct (decide (key ∈ map (node_key round6) locations)) as [Hin | Hout].
    + rewrite decide_True; [reflexivity|]. by apply list_elem_of_further.
    + destruct (decide (key = node_key round6 loc)) as [-> | Hne].
      * rewrite decide_True; [reflexivity|]. apply list_elem_of_here.
      * rewrite decide_False; [reflexivity|].
        intros [? | ?]%elem_of_cons; contradiction.
Qed.

(** X26.  When the request to the elevation service fails in any way,
    [fetch_elevation] answers anyway: it maps the rounded key of every
    requested location to 0 and holds no other key. *)
Theorem failed_elevation_request_is_flat
    (post : list (R * R) -> option (option (list (option R))))
    (locations : list geo) (key : R * R) :
  post (map (fun loc => (lat loc, lon loc)) locations) = None ->
  fetch_elevation round6 post locations key
  = if decide (key ∈ map (node_key round6) locations) then Some 0 else None.
Proof.
  intros Hpost. unfold fetch_elevation.
  destruct locations as [|loc locations].
  - rewrite decide_False; [reflexivity|]. apply not_elem_of_nil.
  - rewrite Hpost. apply fallback_lookup.
Qed.

Lemma results_lookup (pairs : list (geo * option R)) (m : elevation_map)
    (key : R * R) :
  NoDup (map (fun pr => node_key round6 pr.1) pairs) ->
  foldl (fun m '(loc, result) =>
           set_elevation m (node_key round6 loc) (default 0 result)) m pairs key
  = match List.find (fun pr => bool_decide (node_key round6 pr.1 = key)) pairs with
    | Some pr => Some (default 0 pr.2)
    | None => m key
    end.
Proof.
  revert m. induction pairs as [|[loc result] pairs IH]; intros m Hnd;
    cbn [foldl List.find map fst snd] in *; [reflexivity|].
  apply NoDup_cons in Hnd as [Hout Hnd]. rewrite (IH _ Hnd).
  destruct (bool_decide (node_key round6 loc = key)) eqn:E.
  - apply bool_decide_eq_true_1 in E. subst key.
    destruct (List.find _ pairs) as [pr|] eqn:Ef.
    + apply List.find_some in Ef as [Hin Hb]. apply bool_decide_eq_true_1 in Hb.
      exfalso. apply Hout. rewrite <- Hb.
      apply (list_elem_of_fmap_2 (fun pr => node_key round6 pr.1)).
      by apply list_elem_of_In.
    + unfold set_elevation. by rewrite decide_True.
  - apply bool_decide_eq_false_1 in E.
    destruct (List.find _ pairs) as [pr|]; [reflexivity|].
    unfold set_elevation. rewrite decide_False; [reflexivity | congruence].
Qed.

(** X27.  When the elevation service answers and the requested locations
    have distinct rounded keys, [fetch_elevation] maps the key of the
    [i]-th location to the elevation of the [i]-th result, or to 0 if
    that result has no elevation; a location without a result, and any
    other key, is absent. *)
Theorem answered_elevation_request_is_read_in_order
    (post : list (R * R) -> option (option (list (option R))))
    (locations : list geo) (results : list (option R)) :
  post (map (fun loc => (lat loc, lon loc)) locations) = Some (Some results) ->
  NoDup (map (node_key round6) locations) ->
  (forall i loc, locations !! i = Some loc ->
     fetch_elevation round6 post locations (node_key round6 loc)
     = default 0 <$> results !! i)
  /\ (forall key, key ∉ map (node_key round6) locations ->
        fetch_elevation round6 post locations key = None).
Proof.
  intros Hpost Hnd. unfold fetch_elevation.
  assert (Hzip : forall key,
            foldl (fun m '(loc, result) =>
                     set_elevation m (node_key round6 loc) (default 0 result))
                  no_elevations (zip locations results) key
            = match List.find (fun pr => bool_decide (node_key round6 pr.1 = key))
                              (zip locations results) with
              | Some pr => Some (default 0 pr.2)
              | None => None
              end).
  { intros key. apply results_lookup.
    assert (Hsub : sublist (map (fun pr => node_key round6 pr.1) (zip locations results))
                           (map (node_key round6) locations)).
    { clear. revert results. induction locations as [|loc locations IH];
        intros [|r results]; cbn [zip zip_with map fst]; try constructor.
      - apply sublist_nil_l.
      - apply IH. }
    eapply sublist_NoDup; eassumption. }
  split.
  - intros i loc Hi.
    destruct locations as [|loc0 locations]; [by rewrite lookup_nil in Hi|].
    rewrite Hpost, Hzip.
    set (locs := loc0 :: locations) in *. clearbody locs. clear Hzip Hpost.
    revert i results Hi. induction locs as [|l locs IH]; intros i results Hi.
    { by rewrite lookup_nil in Hi. }
    apply NoDup_cons in Hnd as [Hout Hnd].
    destruct results as [|r results].
    { cbn [zip zip_with List.find]. by rewrite lookup_nil. }
    cbn [zip zip_with List.find fst snd].
    destruct i as [|i].
    + injection Hi as ->. by rewrite bool_decide_eq_true_2.
    + cbn [lookup list_lookup] in Hi.
      rewrite bool_decide_eq_false_2.
      * exact (IH Hnd i results Hi).
      * intros E. apply Hout. rewrite E.
        apply list_elem_of_fmap_2. by apply list_elem_of_lookup_2 in Hi.
  - intros key Hout.
    destruct locations as [|loc0 locations]; [reflexivity|].
    rewrite Hpost, Hzip.
    destruct (List.find _ _) as [pr|] eqn:Ef; [|reflexivity].
    apply List.find_some in Ef as [Hin Hb]. apply bool_decide_eq_true_1 in Hb.
    exfalso. apply Hout. rewrite <- Hb.
    apply list_elem_of_In in Hin. destruct pr as [loc r].
    apply elem_of_zip_l in Hin. by apply list_elem_of_fmap_2.
Qed.

End ElevationChecks.

Lemma failed_elevation_request_is_flat_witness :
  fetch_elevation Examples.exact_round MoreExamples.unreachable
    [Examples.node1; Examples.node2] (0, 1 / 1000)
  = if decide ((0, 1 / 1000)
               ∈ map (node_key Examples.exact_round) [Examples.node1; Examples.node2])
    then Some 0 else None.
Proof.
  exact (failed_elevation_request_is_flat Examples.exact_round MoreExamples.unreachable
           [Examples.node1; Examples.node2] (0, 1 / 1000) eq_refl).
Defined.

Lemma example_keys_distinct :
  NoDup (map (node_key Examples.exact_round) [Examples.node1; Examples.node2]).
Proof.
  cbn [map]. apply NoDup_cons. split; [|apply NoDup_singleton].
  intros H%list_elem_of_singleton. unfold node_key, Examples.exact_round in H.
  cbn in H. injection H as H. lra.
Qed.

Lemma answered_elevation_request_is_read_in_order_witness :
  (forall i loc, [Examples.node1; Examples.node2] !! i = Some loc ->
     fetch_elevation Examples.exact_round MoreExamples.answering
       [Examples.node1; Examples.node2] (node_key Examples.exact_round loc)
     = default 0 <$> [Some 12; None] !! i)
  /\ (forall key,
        key ∉ map (node_key Examples.exact_round) [Examples.node1; Examples.node2] ->
        fetch_elevation Examples.exact_round MoreExamples.answering
          [Examples.node1; Examples.node2] key = None).
Proof.
  exact (answered_elevation_request_is_read_in_order Examples.exact_round
           MoreExamples.answering [Examples.node1; Examples.node2] [Some 12; None]
           eq_refl example_keys_distinct).
Defined.

(** *** [_execute_query] *)

Section QueryChecks.

Variable query : Type.
Variable server : query -> nat -> string -> outcome.

Lemma request_urls_app (l l' : list event) :
  request_urls (l ++ l') = request_urls l ++ request_urls l'.
Proof. unfold request_urls. apply omap_app. Qed.

Lemma requests_in_app (l l' : list event) :
  requests_in (l ++ l') = (requests_in l + requests_in l')%nat.
Proof. unfold requests_in. by rewrite request_urls_app, length_app. Qed.

Lemma sleeps_in_app (l l' : list event) :
  sleeps_in (l ++ l') = (sleeps_in l + sleeps_in l')%nat.
Proof. unfold sleeps_in. by rewrite omap_app, length_app. Qed.

Lemma fruitless_snoc (q : query) (log : list event) (url : string) :
  fruitless query server q log -> ~ usable (server q (requests_in log) url) ->
  fruitless query server q (log ++ [Request url]).
Proof.
  intros Hlog Hnew i u. rewrite request_urls_app. cbn.
  intros Hi. destruct (decide (i < requests_in log)%nat) as [Hlt | Hge].
  - rewrite lookup_app_l in Hi by exact Hlt. by apply Hlog.
  - rewrite lookup_app_r in Hi by (unfold requests_in in Hge; lia).
    destruct (i - length (request_urls log))%nat eqn:E; [|cbn in Hi; discriminate].
    injection Hi as <-.
    replace i with (requests_in log) by (unfold requests_in in *; lia).
    exact Hnew.
Qed.

Lemma fruitless_sleep (q : query) (log : list event) :
  fruitless query server q log -> fruitless query server q (log ++ [Sleep]).
Proof.
  intros Hlog i u. rewrite request_urls_app. cbn. rewrite app_nil_r. apply Hlog.
Qed.

(** What one mirror contributes. *)
Lemma try_url_spec (q : query) (url : string) (max_retries remaining : nat)
    (log log' : list event) (result : option (list element)) :
  (remaining <= max_retries)%nat ->
  fruitless query server q log ->
  try_url query server q url max_retries remaining log = (log', result) ->
  exists added,
    log' = log ++ added
    /\ (requests_in added <= remaining)%nat
    /\ (sleeps_in added <= remaining - 1)%nat
    /\ Forall (fun e => e = Request url \/ e = Sleep) added
    /\ match result with
       | None => fruitless query server q log'
       | Some data =>
           data <> []
           /\ exists before,
                log' = before ++ [Request url]
                /\ fruitless query server q before
                /\ server q (requests_in before) url = Replied (Some data)
       end.
Proof.
  revert log. induction remaining as [|remaining IH]; intros log Hle Hlog;
    cbn [try_url].
  - intros [= <- <-]. exists []. rewrite app_nil_r. cbn. auto.
  - destruct (server q (requests_in log) url) as [[[|e els]|]| |] eqn:Es.
    + intros Hrun.
      assert (Hfr : fruitless query server q (log ++ [Request url])).
      { apply fruitless_snoc; [exact Hlog|]. rewrite Es. by intros (? & ? & ?). }
      destruct (IH (log ++ [Request url]) ltac:(lia) Hfr Hrun)
        as (added & -> & Hreq & Hsl & Hev & Hres).
      exists (Request url :: added). rewrite <- app_assoc. split; [reflexivity|].
      change (Request url :: added) with ([Request url] ++ added).
      rewrite requests_in_app, sleeps_in_app. cbn.
      split; [lia|]. split; [lia|]. split; [constructor; auto|].
      by rewrite <- app_assoc in Hres.
    + intros [= <- <-]. exists [Request url]. cbn.
      split; [reflexivity|]. split; [lia|]. split; [lia|].
      split; [repeat constructor; auto|]. split; [done|].
      exists log. auto.
    + intros Hrun.
      assert (Hfr : fruitless query server q (log ++ [Request url])).
      { apply fruitless_snoc; [exact Hlog|]. rewrite Es. by intros (? & ? & ?). }
      destruct (IH (log ++ [Request url]) ltac:(lia) Hfr Hrun)
        as (added & -> & Hreq & Hsl & Hev & Hres).
      exists (Request url :: added). rewrite <- app_assoc. split; [reflexivity|].
      change (Request url :: added) with ([Request url] ++ added).
      rewrite requests_in_app, sleeps_in_app. cbn.
      split; [lia|]. split; [lia|]. split; [constructor; auto|].
      by rewrite <- app_assoc in Hres.
    + destruct (max_retries - S remaining <? max_retries - 1)%nat eqn:Elt.
      * apply Nat.ltb_lt in Elt. intros Hrun.
        assert (Hfr : fruitless query server q ((log ++ [Request url]) ++ [Sleep])).
        { apply fruitless_sleep, fruitless_snoc; [exact Hlog|].
          rewrite Es. by intros (? & ? & ?). }
        destruct (IH ((log ++ [Request url]) ++ [Sleep]) ltac:(lia) Hfr Hrun)
          as (added & -> & Hreq & Hsl & Hev & Hres).
        exists (Request url :: Sleep :: added). rewrite <- !app_assoc.
        split; [reflexivity|].
        change (Request url :: Sleep :: added)
          with ([Request url] ++ [Sleep] ++ added).
        rewrite !requests_in_app, !sleeps_in_app. cbn.
        split; [lia|]. split; [lia|]. split.
        { constructor; [by left|]. constructor; [by right | exact Hev]. }
        rewrite <- !app_assoc in Hres. exact Hres.
      * apply Nat.ltb_ge in Elt. intros Hrun.
        assert (Hfr : fruitless query server q (log ++ [Request url])).
        { apply fruitless_snoc; [exact Hlog|]. rewrite Es. by intros (? & ? & ?). }
        destruct (IH (log ++ [Request url]) ltac:(lia) Hfr Hrun)
          as (added & -> & Hreq & Hsl & Hev & Hres).
        exists (Request url :: added). rewrite <- app_assoc. split; [reflexivity|].
        change (Request url :: added) with ([Request url] ++ added).
        rewrite requests_in_app, sleeps_in_app. cbn.
        split; [lia|]. split; [lia|]. split; [constructor; auto|].
        by rewrite <- app_assoc in Hres.
    + intros [= <- <-]. exists [Request url]. cbn.
      split; [reflexivity|]. split; [lia|]. split; [lia|].
      split; [repeat constructor; auto|].
      apply fruitless_snoc; [exact Hlog|]. rewrite Es. by intros (? & ? & ?).
Qed.

Lemma query_from_spec (q : query) (urls : list string) (max_retries : nat)
    (log log' : list event) (result : option (list element)) :
  fruitless query server q log ->
  query_from query server q urls max_retries log = (log', result) ->
  exists added,
    log' = log ++ added
    /\ (requests_in added <= length urls * max_retries)%nat
    /\ (sleeps_in added <= length urls * (max_retries - 1))%nat
    /\ Forall (fun e => (exists url, url ∈ urls /\ e = Request url) \/ e = Sleep) added
    /\ match result with
       | None => fruitless query server q log'
       | Some data =>
           data <> []
           /\ exists before url,
                log' = before ++ [Request url]
                /\ url ∈ urls
                /\ fruitless query server q before
                /\ server q (requests_in before) url = Replied (Some data)
       end.
Proof.
  revert log. induction urls as [|url urls IH]; intros log Hlog; cbn [query_from].
  - intros [= <- <-]. exists []. rewrite app_nil_r. cbn. auto.
  - destruct (try_url query server q url max_retries max_retries log)
      as [log1 r1] eqn:Etry.
    destruct (try_url_spec q url max_retries max_retries log log1 r1
                ltac:(lia) Hlog Etry) as (added1 & -> & Hreq1 & Hsl1 & Hev1 & Hres1).
    assert (Hev1' : Forall (fun e => (exists u, u ∈ url :: urls /\ e = Request u)
                                     \/ e = Sleep) added1).
    { eapply Forall_impl; [exact Hev1|]. intros e [-> | ->]; [left | by right].
      exists url. split; [apply list_elem_of_here | reflexivity]. }
    destruct r1 as [data|].
    + intros [= <- <-]. exists added1. split; [reflexivity|].
      cbn [length]. split; [nia|]. split; [nia|]. split; [exact Hev1'|].
      destruct Hres1 as (Hne & before & E & Hfr & Hs).
      split; [exact Hne|]. exists before, url.
      split; [exact E|]. split; [apply list_elem_of_here | auto].
    + intros Hrun.
      destruct (IH (log ++ added1) Hres1 Hrun)
        as (added2 & -> & Hreq2 & Hsl2 & Hev2 & Hres2).
      exists (added1 ++ added2). rewrite <- app_assoc. split; [reflexivity|].
      rewrite requests_in_app, sleeps_in_app. cbn [length].
      split; [nia|]. split; [nia|]. split.
      * apply Forall_app. split; [exact Hev1'|].
        eapply Forall_impl; [exact Hev2|].
        intros e [(u & Hu & ->) | ->]; [left | by right].
        exists u. split; [by apply list_elem_of_further | reflexivity].
      * rewrite <- app_assoc in Hres2. destruct result as [data|]; [|exact Hres2].
        destruct Hres2 as (Hne & before & u & E & Hu & Hfr & Hs).
        split; [exact Hne|]. exists before, u.
        split; [exact E|]. split; [by apply list_elem_of_further | auto].
Qed.

Lemma requests_to_app (url : string) (l l' : list event) :
  requests_to url (l ++ l') = (requests_to url l + requests_to url l')%nat.
Proof. unfold requests_to. by rewrite request_urls_app, filter_app, length_app. Qed.

Lemma requests_to_le (url : string) (l : list event) :
  (requests_to url l <= requests_in l)%nat.
Proof. unfold requests_to, requests_in. apply length_filter. Qed.

Lemma requests_to_other (url u : string) (l : list event) :
  Forall (fun e => e = Request u \/ e = Sleep) l -> url <> u ->
  requests_to url l = 0%nat.
Proof.
  intros Hall Hne. unfold requests_to.
  induction Hall as [|e l [-> | ->] Hall IH]; [reflexivity | | exact IH].
  cbn [request_urls omap list_omap]. rewrite filter_cons_False by congruence.
  exact IH.
Qed.

(** X28.  The events of [_execute_query] are those of the first Overpass
    mirror followed by those of the second: each mirror gets at most
    [max_retries] requests, followed by at most [max_retries - 1] sleeps
    in all, so that no address is requested more than [max_retries]
    times, and no other address is contacted. *)
Theorem query_effort_is_bounded (q : query) (max_retries : nat)
    (log : list event) (result : option (list element)) :
  execute_query query server q max_retries = (log, result) ->
  (exists first second,
     log = first ++ second
     /\ Forall (fun e => e = Request "https://overpass-api.de/api/interpreter"
                         \/ e = Sleep) first
     /\ Forall (fun e => e = Request "https://overpass.kumi.systems/api/interpreter"
                         \/ e = Sleep) second
     /\ (requests_in first <= max_retries)%nat
     /\ (sleeps_in first <= max_retries - 1)%nat
     /\ (requests_in second <= max_retries)%nat
     /\ (sleeps_in second <= max_retries - 1)%nat)
  /\ (forall url, (requests_to url log <= max_retries)%nat)
  /\ (requests_in log <= 2 * max_retries)%nat
  /\ (sleeps_in log <= 2 * (max_retries - 1))%nat
  /\ forall url, url ∈ request_urls log -> url ∈ overpass_urls.
Proof.
  unfold execute_query, overpass_urls. cbn [query_from]. intros Hrun.
  assert (Hblocks : exists first second,
            log = first ++ second
            /\ Forall (fun e => e = Request "https://overpass-api.de/api/interpreter"
                                \/ e = Sleep) first
            /\ Forall (fun e => e = Request "https://overpass.kumi.systems/api/interpreter"
                                \/ e = Sleep) second
            /\ (requests_in first <= max_retries)%nat
            /\ (sleeps_in first <= max_retries - 1)%nat
            /\ (requests_in second <= max_retries)%nat
            /\ (sleeps_in second <= max_retries - 1)%nat).
  { destruct (try_url query server q _ max_retries max_retries []) as [log1 r1] eqn:E1.
    destruct (try_url_spec q _ max_retries max_retries [] log1 r1 ltac:(lia)
                ltac:(intros i url Hi; cbn in Hi; discriminate) E1)
      as (added1 & -> & Hreq1 & Hsl1 & Hev1 & Hres1).
    cbn [app] in *. destruct r1 as [data|].
    - injection Hrun as <- _. exists added1, []. rewrite app_nil_r.
      split; [reflexivity|]. split; [exact Hev1|]. split; [constructor|].
      split; [exact Hreq1|]. split; [exact Hsl1|]. cbn. split; lia.
    - destruct (try_url query server q _ max_retries max_retries added1)
        as [log2 r2] eqn:E2.
      destruct (try_url_spec q _ max_retries max_retries added1 log2 r2 ltac:(lia)
                  Hres1 E2) as (added2 & -> & Hreq2 & Hsl2 & Hev2 & _).
      assert (log = added1 ++ added2) as -> by (destruct r2; by injection Hrun as <-).
      exists added1, added2. auto 10. }
  split; [exact Hblocks|].
  destruct Hblocks as (first & second & -> & Hev1 & Hev2 & Hreq1 & Hsl1 & Hreq2 & Hsl2).
  split; [|split; [rewrite requests_in_app; lia|];
           split; [rewrite sleeps_in_app; lia|]].
  - intros url. rewrite requests_to_app.
    destruct (decide (url = "https://overpass-api.de/api/interpreter"%string))
      as [-> | Hne].
    + rewrite (requests_to_other _ _ second Hev2) by discriminate.
      pose proof (requests_to_le "https://overpass-api.de/api/interpreter" first). lia.
    + rewrite (requests_to_other _ _ first Hev1) by exact Hne.
      pose proof (requests_to_le url second). lia.
  - intros url Hurl. rewrite request_urls_app in Hurl.
    apply elem_of_app in Hurl as [Hurl | Hurl]; unfold request_urls in Hurl;
      apply list_elem_of_omap in Hurl as (e & He & Hmatch).
    + apply (proj1 (Forall_forall _ _) Hev1) in He as [-> | ->]; [|discriminate].
      injection Hmatch as <-. apply list_elem_of_here.
    + apply (proj1 (Forall_forall _ _) Hev2) in He as [-> | ->]; [|discriminate].
      injection Hmatch as <-. apply list_elem_of_further, list_elem_of_here.
Qed.

(** X29.  What [_execute_query] returns is the non-empty element list of
    the reply to its last request, which went to one of the mirrors, and
    no earlier request of the call got a usable reply; when it returns
    [None], no request of the call got one. *)
Theorem query_returns_first_usable_reply (q : query) (max_retries : nat)
    (log : list event) (result : option (list element)) :
  execute_query query server q max_retries = (log, result) ->
  match result with
  | Some data =>
      data <> []
      /\ exists before url,
           log = before ++ [Request url]
           /\ url ∈ overpass_urls
           /\ server q (requests_in before) url = Replied (Some data)
           /\ forall i u, request_urls before !! i = Some u ->
                ~ usable (server q i u)
  | None =>
      forall i u, request_urls log !! i = Some u -> ~ usable (server q i u)
  end.
Proof.
  unfold execute_query. intros Hrun.
  destruct (query_from_spec q overpass_urls max_retries [] log result) as
    (added & -> & _ & _ & _ & Hres); [|exact Hrun|].
  { intros i url Hi. cbn in Hi. discriminate. }
  destruct result as [data|]; [|exact Hres].
  destruct Hres as (Hne & before & url & E & Hu & Hfr & Hs).
  split; [exact Hne|]. exists before, url. auto.
Qed.

End QueryChecks.

Lemma lucky_run :
  execute_query unit MoreExamples.second_time_lucky tt 3
  = ([ Request "https://overpass-api.de/api/interpreter"; Sleep;
       Request "https://overpass-api.de/api/interpreter" ],
     Some Examples.service_only).
Proof. reflexivity. Qed.

(** When every request times out, both mirrors are tried twice for
    [max_retries = 2], with one sleep each. *)
Lemma timeout_run :
  execute_query unit MoreExamples.always_timeout tt 2
  = ([ Request MoreExamples.first_mirror; Sleep; Request MoreExamples.first_mirror;
       Request MoreExamples.second_mirror; Sleep; Request MoreExamples.second_mirror ],
     None).
Proof. reflexivity. Qed.

Lemma query_effort_is_bounded_witness :
  (exists first second,
     [ Request MoreExamples.first_mirror; Sleep; Request MoreExamples.first_mirror;
       Request MoreExamples.second_mirror; Sleep; Request MoreExamples.second_mirror ]
     = first ++ second
     /\ Forall (fun e => e = Request "https://overpass-api.de/api/interpreter"
                         \/ e = Sleep) first
     /\ Forall (fun e => e = Request "https://overpass.kumi.systems/api/interpreter"
                         \/ e = Sleep) second
     /\ (requests_in first <= 2)%nat
     /\ (sleeps_in first <= 2 - 1)%nat
     /\ (requests_in second <= 2)%nat
     /\ (sleeps_in second <= 2 - 1)%nat)
  /\ (forall url,
        (requests_to url
           [ Request MoreExamples.first_mirror; Sleep; Request MoreExamples.first_mirror;
             Request MoreExamples.second_mirror; Sleep;
             Request MoreExamples.second_mirror ] <= 2)%nat)
  /\ (requests_in
        [ Request MoreExamples.first_mirror; Sleep; Request MoreExamples.first_mirror;
          Request MoreExamples.second_mirror; Sleep;
          Request MoreExamples.second_mirror ] <= 2 * 2)%nat
  /\ (sleeps_in
        [ Request MoreExamples.first_mirror; Sleep; Request MoreExamples.first_mirror;
          Request MoreExamples.second_mirror; Sleep;
          Request MoreExamples.second_mirror ] <= 2 * (2 - 1))%nat
  /\ forall url,
       url ∈ request_urls
               [ Request MoreExamples.first_mirror; Sleep;
                 Request MoreExamples.first_mirror;
                 Request MoreExamples.second_mirror; Sleep;
                 Request MoreExamples.second_mirror ] ->
       url ∈ overpass_urls.
Proof.
  exact (query_effort_is_bounded unit MoreExamples.always_timeout tt 2 _ _
           timeout_run).
Defined.

Lemma query_returns_first_usable_reply_witness :
  Examples.service_only <> []
  /\ exists before url,
       [ Request "https://overpass-api.de/api/interpreter"; Sleep;
         Request "https://overpass-api.de/api/interpreter" ]
       = before ++ [Request url]
       /\ url ∈ overpass_urls
       /\ MoreExamples.second_time_lucky tt (requests_in before) url
          = Replied (Some Examples.service_only)
       /\ forall i u, request_urls before !! i = Some u ->
            ~ usable (MoreExamples.second_time_lucky tt i u).
Proof.
  exact (query_returns_first_usable_reply unit MoreExamples.second_time_lucky tt 3
           _ _ lucky_run).
Defined.

End FetcherChecks.

Module FlatChecks.
Import Py TrackProcessor TrackFetcher Flat.
Local Open Scope R_scope.

Ltac lra := Lra.lra.
Ltac nra := Lra.nra.

Lemma write_raw_level (h : heap) (l : loc) (v : R) :
  v = 0 -> level h -> level (write_raw_z h l v).
Proof.
  intros -> [Hp Hr]. split; [exact Hp|].
  intros l' q. unfold write_raw_z. cbn [h_raw].
  destruct (decide (l = l')) as [<- | Hne].
  - rewrite lookup_alter_eq. destruct (h_raw h !! l); [|discriminate].
    by intros [= <-].
  - rewrite lookup_alter_ne by done. apply Hr.
Qed.

Lemma write_point_level (h : heap) (l : loc) (v : R) :
  v = 0 -> level h -> level (write_point_z h l v).
Proof.
  intros -> [Hp Hr]. split; [|exact Hr].
  intros l' q. unfold write_point_z. cbn [h_points].
  destruct (decide (l = l')) as [<- | Hne].
  - rewrite lookup_alter_eq. destruct (h_points h !! l); [|discriminate].
    by intros [= <-].
  - rewrite lookup_alter_ne by done. apply Hp.
Qed.

Lemma raw_z_level (h : heap) (l : loc) : level h -> raw_z_or_0 h l = 0.
Proof.
  intros [_ Hr]. unfold raw_z_or_0.
  destruct (h_raw h !! l) as [q|] eqn:E; [|reflexivity]. exact (Hr l q E).
Qed.

Lemma rmin_zero : rmin 0 0 = 0.
Proof. unfold rmin. by destruct (Rlt_dec 0 0). Qed.

Lemma py_min_list_level (values : list R) :
  values <> [] -> Forall (fun v => v = 0) values -> py_min_list values = Some 0.
Proof.
  destruct values as [|v rest]; [done|]. intros _ Hall.
  apply Forall_cons in Hall as [-> Hall]. cbn [py_min_list]. f_equal.
  induction rest as [|u rest IH]; [reflexivity|].
  apply Forall_cons in Hall as [-> Hall]. cbn [foldl]. rewrite rmin_zero.
  by apply IH.
Qed.

Section FlatFinish.

Variable round6 : R -> R.
Variable gaussian_filter1d : list R -> list R.

Lemma fetched_level (f : fetcher) (segs : list segment) (k : R * R) :
  (forall batch key, default 0 (f batch key) = 0) ->
  default 0 (fetch_node_elevations round6 f segs k) = 0.
Proof.
  intros Hf. unfold fetch_node_elevations.
  generalize (batches (length (unique_nodes round6 segs)) 200
                      (unique_nodes round6 segs)) as bs.
  assert (Hstart : default 0 (no_elevations k) = 0) by reflexivity.
  revert Hstart. generalize no_elevations as acc.
  intros acc Hacc bs. revert acc Hacc.
  induction bs as [|b bs IH]; intros acc Hacc; [exact Hacc|].
  cbn [foldl]. apply IH. unfold update_elevations.
  specialize (Hf b k). destruct (f b k); [exact Hf | exact Hacc].
Qed.

Lemma elevate_track_level (fetch : option fetcher) (h : heap)
    (segs : list segment) :
  (forall f, fetch = Some f -> forall batch key, default 0 (f batch key) = 0) ->
  level h -> level (elevate_track round6 fetch h segs).
Proof.
  intros Hf Hh. unfold elevate_track.
  destruct fetch as [f|]; [|exact Hh]. destruct segs as [|seg segs]; [exact Hh|].
  unfold apply_node_elevations.
  generalize (all_raw (seg :: segs)) as raws. intros raws. revert h Hh.
  induction raws as [|r raws IH]; intros h Hh; [exact Hh|].
  cbn [foldl]. apply IH. apply write_raw_level; [|exact Hh].
  apply fetched_level. by apply Hf.
Qed.

Lemma elevate_pits_level (fetch : option fetcher) (h : heap)
    (pit_segs : list path) :
  (forall f, fetch = Some f -> forall batch key, default 0 (f batch key) = 0) ->
  level h -> level (elevate_pits round6 fetch h pit_segs).
Proof.
  intros Hf Hh. unfold elevate_pits. destruct fetch as [f|]; [|exact Hh].
  specialize (Hf f eq_refl). revert h Hh.
  induction pit_segs as [|seg pit_segs IH]; intros h Hh; [exact Hh|].
  cbn [foldl]. apply IH. unfold elevate_pit_segment.
  generalize (zip (points seg)
                (omap (fun l => raw_geo <$> h_raw h !! l) (rawPoints seg))) as prs.
  assert (He : forall key,
            default 0 (f (omap (fun l => raw_geo <$> h_raw h !! l) (rawPoints seg))
                         key) = 0) by (intros key; apply Hf).
  revert He.
  generalize (f (omap (fun l => raw_geo <$> h_raw h !! l) (rawPoints seg))) as e.
  intros e He prs. revert h Hh.
  induction prs as [|[pt rp] prs IHp]; intros h Hh; [exact Hh|].
  cbn [foldl]. apply IHp. apply write_point_level; [|exact Hh]. apply He.
Qed.

Lemma interpolated_level (last_p : spline_point) (p : xy) (d : R)
    (last_raw raw_p : geo * R) (total w : R) :
  last_raw.2 = 0 -> raw_p.2 = 0 ->
  Forall (fun q => z q = 0) (interpolated last_p p d last_raw raw_p total w).
Proof.
  intros Hl Hr. unfold interpolated. apply Forall_forall. intros q Hq.
  apply list_elem_of_fmap in Hq as (s & -> & _). cbn [z]. rewrite Hl, Hr. ring.
Qed.

Lemma resample_points_level (h : heap) (w : R) (prev : option (geo * R))
    (pts : list xy) (raws : list (loc * geo))
    (st st' : list spline_point * R) :
  level h ->
  Forall (fun q => z q = 0) st.1 ->
  (forall pr, prev = Some pr -> pr.2 = 0) ->
  resample_points h w prev pts raws st = Ok st' ->
  Forall (fun q => z q = 0) st'.1.
Proof.
  intros Hh. revert raws prev st.
  induction pts as [|p pts IH]; intros raws prev st Hst Hprev Hrun.
  - cbn [resample_points] in Hrun. by injection Hrun as <-.
  - destruct raws as [|r raws]; [discriminate|].
    cbn [resample_points] in Hrun.
    assert (Hr : (raw_view h r).2 = 0) by apply (raw_z_level h r.1 Hh).
    apply IH in Hrun; [exact Hrun | | by intros pr [= <-]].
    cbn [fst]. apply Forall_app. split.
    + destruct (last st.1) as [last_p|]; [|exact Hst]. cbn [fst].
      apply Forall_app. split; [exact Hst|].
      destruct (bool_decide _); [|constructor].
      apply interpolated_level; [|exact Hr].
      destruct prev as [pr|]; [by apply Hprev | exact Hr].
    + constructor; [exact Hr | constructor].
Qed.

Lemma resample_level (h : heap) (segs : list segment)
    (st st' : list spline_point * R) :
  level h ->
  Forall (fun q => z q = 0) st.1 ->
  resample h segs st = Ok st' ->
  Forall (fun q => z q = 0) st'.1.
Proof.
  intros Hh. revert st. induction segs as [|seg segs IH]; intros st Hst Hrun.
  - cbn [resample] in Hrun. by injection Hrun as <-.
  - cbn [resample] in Hrun.
    destruct (resample_points h _ None _ _ st) as [st1|] eqn:E; [|discriminate].
    cbn [mbind result_bind bind] in Hrun.
    apply (IH st1); [|exact Hrun].
    eapply (resample_points_level h); [exact Hh | exact Hst | | exact E].
    discriminate.
Qed.

Lemma smooth_level (pts : list spline_point) :
  keeps_zero gaussian_filter1d ->
  Forall (fun q => z q = 0) pts ->
  Forall (fun q => z q = 0) (smooth_elevation gaussian_filter1d pts).
Proof.
  intros Hk Hpts. unfold smooth_elevation.
  destruct (10 <? length pts)%nat; [|exact Hpts].
  assert (Hz : map z pts = repeat 0 (length pts)).
  { clear Hk. induction pts as [|p pts IH]; [reflexivity|].
    apply Forall_cons in Hpts as [Hp Hpts]. cbn [map length repeat].
    by rewrite Hp, IH. }
  rewrite Hz, Hk. apply Forall_lookup. intros i q Hq.
  rewrite list_lookup_imap in Hq.
  destruct (pts !! i) as [p|] eqn:Ep; [|discriminate].
  cbn in Hq. injection Hq as <-. cbn [z set_z].
  destruct (repeat 0 (length pts) !! i) as [v|] eqn:Ev.
  - cbn [default]. apply list_elem_of_lookup_2, list_elem_of_In in Ev.
    exact (repeat_spec _ _ _ Ev).
  - cbn [default]. exact (proj1 (Forall_lookup _ _) Hpts i p Ep).
Qed.

Lemma lower_pits_level (h : heap) (refs : list loc) :
  level h -> level (foldl (lower_pit_z 0) h refs).
Proof.
  revert h. induction refs as [|l refs IH]; intros h Hh; [exact Hh|].
  cbn [foldl]. apply IH. unfold lower_pit_z.
  destruct (h_points h !! l ≫= pt_z) as [v|] eqn:E; [|exact Hh].
  apply write_point_level; [|exact Hh].
  destruct (h_points h !! l) as [q|] eqn:El; [|discriminate].
  cbn in E. pose proof (proj1 Hh l q El) as Hq. rewrite E in Hq. cbn in Hq.
  rewrite Hq. ring.
Qed.

Lemma normalize_level (h h' : heap) (pts pts' : list spline_point)
    (pit_segs : list path) :
  level h ->
  Forall (fun q => z q = 0) pts ->
  normalize_elevation h pts pit_segs = (h', pts') ->
  level h' /\ Forall (fun q => z q = 0) pts'.
Proof.
  intros Hh Hpts. unfold normalize_elevation.
  destruct pts as [|p pts]; [by intros [= <- <-]|].
  rewrite (py_min_list_level _); cycle 1.
  - discriminate.
  - apply Forall_app. split.
    + apply Forall_forall. intros v Hv.
      apply list_elem_of_fmap in Hv as (q & -> & Hq).
      exact (proj1 (Forall_forall _ _) Hpts q Hq).
    + apply Forall_forall. intros v Hv. unfold pit_z_values in Hv.
      apply list_elem_of_omap in Hv as (l & _ & Hl).
      destruct (h_points h !! l) as [q|] eqn:El; [|discriminate].
      cbn in Hl. pose proof (proj1 Hh l q El) as Hq. rewrite Hl in Hq. exact Hq.
  - intros [= <- <-]. split; [by apply lower_pits_level|].
    apply Forall_forall. intros q Hq.
    change (q ∈ (fun p0 => set_z p0 (z p0 - 0)) <$> (p :: pts)) in Hq.
    apply list_elem_of_fmap in Hq as (q0 & -> & Hq0). cbn [z set_z].
    rewrite (proj1 (Forall_forall _ _) Hpts q0 Hq0). ring.
Qed.

Lemma placed_level (pts : list spline_point) (total : R) (miles : option R)
    (unscaled_sf : xy) (pl : placed) :
  Forall (fun q => z q = 0) pts ->
  scale_and_rotate pts total miles unscaled_sf = Ok pl ->
  Forall (fun q => z q = 0) (pl_points pl).
Proof.
  intros Hpts. unfold scale_and_rotate. intros Hrun.
  assert (Hscaled : exists pts1 total1 k,
            scale_track pts total miles = Ok (pts1, total1, k)
            /\ map z pts1 = map z pts).
  { unfold scale_track in *.
    destruct miles as [m|]; [|by eexists _, _, _].
    destruct (bool_decide (m > 0)) eqn:Em; [|by eexists _, _, _].
    destruct (bool_decide (total = 0)) eqn:Et; [discriminate|].
    eexists _, _, _. split; [reflexivity|].
    rewrite !List.map_map. reflexivity. }
  destruct Hscaled as (pts1 & total1 & k & E & Hz).
  rewrite E in Hrun. cbn [mbind result_bind bind] in Hrun.
  set (i := find_sf_index _ _) in Hrun.
  pose proof (PlacementChecks.rotate_same z pts1 total1 i ltac:(reflexivity)) as Rz.
  destruct (rotate_to_sf pts1 total1 i) as [pts2 total2].
  injection Hrun as <-. cbn [pl_points fst] in *. rewrite Hz in Rz.
  assert (Hall : Forall (fun v => v = 0) (map z pts2)).
  { rewrite Rz. apply Forall_app. split.
    - apply Forall_drop. apply Forall_fmap. exact Hpts.
    - apply Forall_take. apply Forall_fmap. exact Hpts. }
  by apply Forall_fmap in Hall.
Qed.

Lemma pit_visual_level (h : heap) (k : R) (seg : path) :
  level h ->
  Forall (fun t : R * R * R => t.2 = 0) (pvis_points (pit_visual_of h k seg)).
Proof.
  intros Hh. unfold pit_visual_of. cbn [pvis_points].
  apply Forall_forall. intros t Ht.
  apply list_elem_of_omap in Ht as (l & _ & Hl).
  destruct (h_points h !! l) as [q|] eqn:El; [|discriminate].
  cbn in Hl. injection Hl as <-. cbn [snd]. exact (proj1 Hh l q El).
Qed.

Lemma finish_level (h h' : heap) (td : track_data) (sf : geo)
    (ordered_segments : list segment) (s1 s2 miles : option R)
    (fetch : option fetcher) (out : finalized) :
  level h ->
  keeps_zero gaussian_filter1d ->
  (forall f, fetch = Some f -> forall batch key, default 0 (f batch key) = 0) ->
  finish round6 gaussian_filter1d h td sf ordered_segments s1 s2 miles fetch
  = (h', Ok (Some out)) ->
  flat_track out.
Proof.
  intros Hh Hk Hf. unfold finish.
  destruct (resample h ordered_segments ([], 0)) as [st0|]; [|discriminate].
  pose proof (elevate_track_level fetch h ordered_segments Hf Hh) as Hh1.
  destruct (resample (elevate_track round6 fetch h ordered_segments) _ _)
    as [[sp total]|] eqn:Eres; [|discriminate].
  pose proof (resample_level _ _ ([], 0) _ Hh1 (Forall_nil_2 _) Eres) as Hsp.
  cbn [fst] in Hsp.
  pose proof (elevate_pits_level fetch _
                (filter (fun p => is_pit p = true) (paths td)) Hf Hh1) as Hh2.
  destruct (normalize_elevation _ _ _) as [h3 sp3] eqn:En.
  destruct (normalize_level _ _ _ _ _ Hh2 (smooth_level sp Hk Hsp) En)
    as [Hh3 Hsp3].
  destruct (scale_and_rotate sp3 total miles _) as [pl|] eqn:Epl; [|discriminate].
  pose proof (placed_level _ _ _ _ _ Hsp3 Epl) as Hpl.
  destruct (sector_indices (pl_points pl) s1 s2) as [i1 i2].
  intros [= _ <-]. split; cbn [splinePoints pitPaths]; [exact Hpl|].
  apply Forall_fmap. apply Forall_forall. intros seg _.
  by apply pit_visual_level.
Qed.

Lemma unreachable_is_level
    (post : list (R * R) -> option (option (list (option R))))
    (batch : list geo) (key : R * R) :
  (forall coords, post coords = None) ->
  default 0 (fetch_elevation round6 post batch key) = 0.
Proof.
  intros Hpost. unfold fetch_elevation.
  destruct batch as [|loc batch]; [reflexivity|].
  rewrite Hpost, (FetcherChecks.fallback_lookup round6).
  by destruct (decide _).
Qed.

(** X30.  When no request to the elevation service succeeds, a track
    whose points store no elevation is returned flat: ['z'] is 0 at
    every spline point and at every pit point (given a smoothing filter
    that turns zeros into zeros). *)
Theorem unreachable_elevation_service_gives_flat_track
    (post : list (R * R) -> option (option (list (option R))))
    (h h' : heap) (track : option track_data)
    (sf_lat sf_lon s1 s2 s3 miles : option R) (out : finalized) :
  level h ->
  keeps_zero gaussian_filter1d ->
  (forall coords, post coords = None) ->
  finalize_track round6 gaussian_filter1d h track sf_lat sf_lon s1 s2 s3 miles
    (Some (fetch_elevation round6 post))
  = (h', Ok (Some out)) ->
  flat_track out.
Proof.
  intros Hh Hk Hpost. unfold finalize_track.
  destruct track as [td|]; [|discriminate].
  destruct (paths td); [discriminate|].
  destruct (anchor h td sf_lat sf_lon) as [[sf|]|]; try discriminate.
  destruct (stitch h td sf) as [[segs|]|] eqn:Es; try discriminate.
  intros Hrun. apply (finish_level _ _ _ _ _ _ _ _ _ _ Hh Hk) in Hrun; [exact Hrun|].
  intros f [= <-] batch key. by apply unreachable_is_level.
Qed.

(** A track whose single track segment has as many raw points as points
    is returned, with or without an elevation provider, when no target
    length is asked for. *)
Lemma finish_returns_fetched (h : heap) (td : track_data) (sf : geo)
    (seg : segment) (s1 s2 : option R) (fetch : option fetcher) :
  (length (seg_points seg) <= length (seg_rawPoints seg))%nat ->
  exists h' out,
    finish round6 gaussian_filter1d h td sf [seg] s1 s2 None fetch
    = (h', Ok (Some out)).
Proof.
  intros Hlen. unfold finish.
  destruct (FinalizeProps.resample_one_returns h seg Hlen) as [st0 ->].
  destruct (FinalizeProps.resample_one_returns
              (elevate_track round6 fetch h [seg]) seg Hlen) as [[sp total] ->].
  destruct (normalize_elevation _ _ _) as [h3 sp3].
  unfold scale_and_rotate, scale_track. cbn [mbind result_bind bind].
  destruct (rotate_to_sf _ _ _) as [pts' total'].
  destruct (sector_indices _ _ _) as [i1 i2].
  eexists _, _. reflexivity.
Qed.

End FlatFinish.

Lemma track_heap_level : level Examples.track_heap.
Proof.
  split; intros l q Hq.
  - unfold Examples.track_heap in Hq. cbn [h_points] in Hq.
    repeat (apply lookup_insert_Some in Hq as [[_ <-] | [_ Hq]]; [reflexivity|]).
    by rewrite lookup_empty in Hq.
  - unfold Examples.track_heap in Hq. cbn [h_raw] in Hq.
    repeat (apply lookup_insert_Some in Hq as [[_ <-] | [_ Hq]]; [reflexivity|]).
    by rewrite lookup_empty in Hq.
Qed.

Lemma no_smoothing_keeps_zero : keeps_zero Examples.no_smoothing.
Proof. intros n. reflexivity. Qed.

Lemma unreachable_elevation_service_gives_flat_track_witness :
  exists h' out,
    finalize_track Examples.exact_round Examples.no_smoothing Examples.track_heap
      (Some Examples.small_track) None None None None None None
      (Some (fetch_elevation Examples.exact_round MoreExamples.unreachable))
    = (h', Ok (Some out))
    /\ flat_track out.
Proof.
  assert (Hrun : exists h' out,
            finalize_track Examples.exact_round Examples.no_smoothing
              Examples.track_heap (Some Examples.small_track)
              None None None None None None
              (Some (fetch_elevation Examples.exact_round MoreExamples.unreachable))
            = (h', Ok (Some out))).
  { unfold finalize_track. cbn [paths Examples.small_track].
    rewrite FinalizeProps.small_track_anchor.
    destruct FinalizeProps.small_track_stitch as [reverse ->].
    apply finish_returns_fetched. destruct reverse; simpl; lia. }
  destruct Hrun as (h' & out & Hrun). exists h', out. split; [exact Hrun|].
  exact (unreachable_elevation_service_gives_flat_track
           Examples.exact_round Examples.no_smoothing MoreExamples.unreachable
           Examples.track_heap h' (Some Examples.small_track)
           None None None None None None out
           track_heap_level no_smoothing_keeps_zero (fun _ => eq_refl) Hrun).
Defined.

End FlatChecks.
